(** * Transaction tracker: ledger consistency and incremental aggregation

    A shallow embedding of the transaction controller
    (getBalanceAtTimestamp, getBalancesAtTimestamps, getAllTransactions,
    createTransaction, updateTransaction, deleteTransaction,
    invalidateBalanceCache, createBulkTransactions, getTransactionStats),
    of the summary controller (getSummaryStats) and of the utility module
    (recalculateFromTimestamp, markInvalidTransactions).

    Conventions of the model.
    - An instant is the number of milliseconds since the epoch, a [Z]
      (what [Date.prototype.getTime] returns).  The methods of [Date]
      that work in local time take the offset of the process's time zone
      from the class [TimeZone].
    - A JavaScript number, and a value of a DOUBLE PRECISION column, is a
      binary64 floating-point number.  A finite one is the rational it
      denotes, a [Qc]; addition, subtraction, multiplication and
      division give the exact result rounded to the nearest binary64
      value, ties to the even significand ([binary64]).  Negation and
      comparison are exact.  NaN is the [None] of an [option Qc]; the
      infinities, the sign of zero and overflow are outside the model.
    - The PostgreSQL tables are fields of [Db].  A query that gives no
      ORDER BY, or whose ORDER BY leaves rows tied, returns the rows, or
      the tied rows, in table order.  An aggregate reads its rows in
      table order.
    - The Redis keys are fields of [Redis], with a flag telling whether
      the server carries out commands; when it does not, every command
      is rejected with an error.  A command that never settles, because
      the client queues it while it has no connection, is outside the
      model.  The model has no clock for the cache: the time to live
      that setEx gives a key is not part of it. *)

From Stdlib Require Import ZArith QArith Qabs Qcanon Qround List Permutation.
From Stdlib Require Import Sorting.Sorted Lqa.
From stdpp Require Import base numbers list gmap strings pretty.

Local Open Scope Z_scope.

(** ** Numbers *)

(** The exact sum of a list of rationals. *)
Definition sum_Qc (l : list Qc) : Qc := foldr Qcplus 0%Qc l.

(** [Math.max(x, y)] *)
Definition Qc_max (x y : Qc) : Qc := if bool_decide (x < y)%Qc then y else x.

(** *** Rounding to binary64 *)

(** The integer k with 2^k <= x < 2^(k+1), for a positive [x]. *)
Definition Qlog2_floor (x : Q) : Z :=
  let n := Qnum x in
  let d := Zpos (Qden x) in
  let k := Z.log2 n - Z.log2 d in
  if 0 <=? k
  then (if d * 2 ^ k <=? n then k else k - 1)
  else (if d <=? n * 2 ^ (- k) then k else k - 1).

Definition pow2 (e : Z) : Q :=
  if 0 <=? e then inject_Z (2 ^ e) else 1 # Z.to_pos (2 ^ (- e)).

(** The nearest integer, the even one of two that are equally near. *)
Definition round_half_even (q : Q) : Z :=
  let f := Qfloor q in
  match Qcompare (q - inject_Z f) (1 # 2) with
  | Lt => f
  | Gt => f + 1
  | Eq => if Z.even f then f else f + 1
  end.

(** The exponent of the unit in the last place of the binary64 values
    around [x]: 53 bits of significand, and the spacing 2^-1074 of the
    subnormal values as the least one. *)
Definition ulp_exponent (x : Q) : Z :=
  Z.max (Qlog2_floor (Qabs x) - 52) (-1074).

(** The binary64 value nearest to [q], ties to even. *)
Definition binary64 (q : Q) : Q :=
  let x := Qred q in
  if Qeq_bool x 0 then 0%Q
  else
    let u := pow2 (ulp_exponent x) in
    (inject_Z (round_half_even (x / u)) * u)%Q.

(** The number a decimal literal or string denotes. *)
Definition double (q : Q) : Qc := Q2Qc (binary64 q).

(** [x + y], [x - y], [x * y] and [x / y] on numbers, and the operators
    float8pl, float8mi, float8mul and float8div of PostgreSQL. *)
Definition fadd (x y : Qc) : Qc := Q2Qc (binary64 (x + y)).
Definition fsub (x y : Qc) : Qc := Q2Qc (binary64 (x - y)).
Definition fmul (x y : Qc) : Qc := Q2Qc (binary64 (x * y)).
Definition fdiv (x y : Qc) : Qc := Q2Qc (binary64 (x / y)).

(** SUM over DOUBLE PRECISION values: NULL over no row; else the first
    value, to which the others are added one by one with float8pl. *)
Definition float8_sum (l : list Qc) : option Qc :=
  match l with
  | [] => None
  | x :: rest => Some (fold_left fadd rest x)
  end.

(** AVG over DOUBLE PRECISION values: NULL over no row, else the sum
    divided by the number of rows. *)
Definition float8_avg (l : list Qc) : option Qc :=
  (λ s, fdiv s (Qc_of_Z (Z.of_nat (length l)))) <$> float8_sum l.

(** A whole number; [Zsum_abs] adds up the magnitudes of whole
    numbers. *)
Definition whole (x : Qc) : Prop := Qden x = 1%positive.

Definition Zsum_abs (l : list Qc) : Z :=
  foldr (λ (x : Qc) m, Z.abs (Qnum x) + m) 0 l.

(** ** The persisted rows *)

Inductive TransactionType := IN | OUT.

#[global] Instance TransactionType_eq_dec : EqDecision TransactionType.
Proof. solve_decision. Defined.

Module Transaction.
Record t := mk { id : Z; timestamp : Z; type : TransactionType; amount : Qc }.
End Transaction.

Module InvalidTransaction.
Record t := mk { transactionId : Z; reason : string }.
End InvalidTransaction.

Module DailySummary.
Record t := mk {
  balance : Qc;
  percentChange : Qc;
  transactionCount : Z;
  inAmount : Qc;
  outAmount : Qc
}.
End DailySummary.

(** The database: the Transaction table in insertion order with the next
    value of its SERIAL id, the InvalidTransaction table, and the
    DailySummary table keyed by its unique date. *)
Record Db := mkDb {
  transactions : list Transaction.t;
  transaction_seq : Z;
  invalidTransactions : list InvalidTransaction.t;
  dailySummaries : gmap Z DailySummary.t
}.

(** ** The Redis cache *)

Record TypeStats := mkTypeStats {
  count : Z;
  totalAmount : Qc;
  averageAmount : Qc;
  maxAmount : Qc;
  minAmount : Qc
}.

Record Stats := mkStats {
  totalTransactions : Z;
  inTransactions : TypeStats;
  outTransactions : TypeStats;
  currentBalance : Qc
}.

(** [balance_keys] holds the keys balance:<ISO instant>, indexed by the
    instant; the two other fields are the keys invalid_transaction_count
    and transaction_stats. *)
Record Redis := mkRedis {
  connected : bool;
  balance_keys : gmap Z Qc;
  invalid_transaction_count : option Z;
  transaction_stats : option Stats
}.

Record State := mkState { db : Db; redis : Redis }.

Definition set_redis (st : State) (r : Redis) : State := mkState (db st) r.
Definition set_db (st : State) (d : Db) : State := mkState d (redis st).

(** Redis commands; [None] is the error of a rejected command. *)
Definition redis_get_balance (r : Redis) (t : Z) : option (option Qc) :=
  if connected r then Some (balance_keys r !! t) else None.

Definition redis_setEx_balance (r : Redis) (t : Z) (v : Qc) : option Redis :=
  if connected r
  then Some (mkRedis (connected r) (<[t := v]> (balance_keys r))
                     (invalid_transaction_count r) (transaction_stats r))
  else None.

(** ** Balance oracle *)

(** CASE WHEN type = 'IN' THEN amount ELSE -amount END *)
Definition signed_amount (tx : Transaction.t) : Qc :=
  match Transaction.type tx with
  | IN => Transaction.amount tx
  | OUT => (- Transaction.amount tx)%Qc
  end.

(** SELECT COALESCE(SUM(CASE ...), 0) FROM Transaction WHERE P *)
Definition sql_signed_sum (P : Transaction.t → Prop) `{∀ tx, Decision (P tx)}
    (log : list Transaction.t) : Qc :=
  default 0%Qc (float8_sum (signed_amount <$> filter P log)).

Definition getBalanceAtTimestamp (st : State) (timestamp : Z) : State * Qc :=
  match redis_get_balance (redis st) timestamp with
  | Some (Some cachedBalance) => (st, cachedBalance)
  | _ =>
      let balance :=
        sql_signed_sum (λ tx, Transaction.timestamp tx ≤ timestamp)
                       (transactions (db st)) in
      match redis_setEx_balance (redis st) timestamp balance with
      | Some r => (set_redis st r, balance)
      | None => (st, balance)
      end
  end.

(** The balance function of the data model, in the words of the
    specification: the sum over the transactions with timestamp at most
    [t] of +amount for IN and -amount for OUT. *)
Fixpoint B (log : list Transaction.t) (t : Z) : Qc :=
  match log with
  | [] => 0%Qc
  | tx :: rest =>
      if Transaction.timestamp tx <=? t
      then match Transaction.type tx with
           | IN => (B rest t + Transaction.amount tx)%Qc
           | OUT => (B rest t - Transaction.amount tx)%Qc
           end
      else B rest t
  end.

(** A ledger on which the sums of the code round nothing: every amount
    is a whole number, and the magnitudes of the amounts add up to less
    than 2^53. *)
Definition exact_ledger (log : list Transaction.t) : Prop :=
  Forall (λ tx, whole (Transaction.amount tx)) log
  ∧ Zsum_abs (Transaction.amount <$> log) < 2 ^ 53.

(** Every cached balance is the sum the query gives on the current
    table. *)
Definition cache_fresh (st : State) : Prop :=
  ∀ t v, balance_keys (redis st) !! t = Some v →
         v = sql_signed_sum (λ tx, Transaction.timestamp tx ≤ t)
                            (transactions (db st)).
(** ** JavaScript values of a request body *)

(** A field of a JSON body: absent, null, a boolean, a number (a
    binary64 value) or a string. *)
Inductive jsval :=
| JUndefined
| JNull
| JBool (b : bool)
| JNum (q : Qc)
| JStr (s : string).

(** ToBoolean *)
Definition truthy (v : jsval) : bool :=
  match v with
  | JUndefined | JNull => false
  | JBool b => b
  | JNum q => negb (bool_decide (q = 0%Qc))
  | JStr s => negb (bool_decide (s = EmptyString))
  end.

(** The parsers of the JavaScript runtime, which are not part of the
    repository: [Date.parse], [parseFloat] and [parseInt] on strings.
    [None] is NaN. *)
Class JsRuntime := {
  Date_parse : string → option Z;
  parseFloat_string : string → option Qc;
  parseInt_string : string → option Z
}.

Definition MAX_TIME : Z := 8640000000000000.

(** Truncation of a number toward zero (ToIntegerOrInfinity). *)
Definition Qc_trunc (q : Qc) : Z := Z.quot (Qnum q) (Zpos (Qden q)).

Definition TimeClip (q : Qc) : option Z :=
  if bool_decide (Qc_of_Z (- MAX_TIME) ≤ q ∧ q ≤ Qc_of_Z MAX_TIME)%Qc
  then Some (Qc_trunc q)
  else None.

(** [new Date(v).getTime()]; [None] is an Invalid Date. *)
Definition new_Date `{JsRuntime} (v : jsval) : option Z :=
  match v with
  | JUndefined => None
  | JNull => Some 0
  | JBool b => Some (if b then 1 else 0)
  | JNum q => TimeClip q
  | JStr s => Date_parse s
  end.

(** [parseFloat(v)]: a number prints and parses back to itself; the
    strings undefined, null, true and false do not start a number. *)
Definition parseFloat `{JsRuntime} (v : jsval) : option Qc :=
  match v with
  | JNum q => Some q
  | JStr s => parseFloat_string s
  | _ => None
  end.

(** The member of the enum TransactionType a value denotes, if any:
    this decides [["IN", "OUT"].includes(v)], and whether Prisma accepts
    [v] for the column [type]. *)
Definition as_TransactionType (v : jsval) : option TransactionType :=
  match v with
  | JStr s =>
      if String.eqb s "IN" then Some IN
      else if String.eqb s "OUT" then Some OUT
      else None
  | _ => None
  end.

Definition type_name (ty : TransactionType) : jsval :=
  match ty with IN => JStr "IN" | OUT => JStr "OUT" end.

(** [v === "OUT"] *)
Definition is_OUT (v : jsval) : bool :=
  match v with JStr s => String.eqb s "OUT" | _ => false end.

(** [isFuture(date)] of date-fns, at the instant [now]. *)
Definition isFuture (now date : Z) : bool := bool_decide (now < date).

Module Body.
Record t := mk { timestamp : jsval; type : jsval; amount : jsval }.
End Body.

(** ** Responses *)

Inductive Json :=
| JError (error : string)
| JInsufficient (available requested : Qc)
| JInsufficientUpdate (available requested : Qc)
| JTransaction (txn : Transaction.t)
| JMessage (message : string)
| JBulk (message : string) (created : Z)
| JStats (stats : Stats).

Record Response := mkResponse { status : Z; json : Json }.

(** What a handler leaves behind: the state, the response, and the
    instant from which [setImmediate] recalculates, if it was queued. *)
Record Outcome := mkOutcome {
  state : State;
  response : Response;
  queued : option Z
}.

Definition respond (st : State) (code : Z) (error : string) : Outcome :=
  mkOutcome st (mkResponse code (JError error)) None.

(** ** Cache invalidation coordinator *)

(** [redis.keys("balance:*")] *)
Definition redis_keys_balance (r : Redis) : option (list Z) :=
  if connected r then Some (map_to_list (balance_keys r)).*1 else None.

(** [redis.del(keys)] on balance keys *)
Definition redis_del_balance (r : Redis) (keys : list Z) : option Redis :=
  if connected r
  then Some (mkRedis (connected r) (foldr delete (balance_keys r) keys)
                     (invalid_transaction_count r) (transaction_stats r))
  else None.

(** [redis.del("invalid_transaction_count")] *)
Definition redis_del_invalid_count (r : Redis) : option Redis :=
  if connected r
  then Some (mkRedis (connected r) (balance_keys r) None (transaction_stats r))
  else None.

(** [redis.flushDb()] *)
Definition redis_flushDb (r : Redis) : option Redis :=
  if connected r then Some (mkRedis (connected r) ∅ None None) else None.

Definition invalidateBalanceCache (st : State) (fromDate : Z) : State :=
  match redis_keys_balance (redis st) with
  | None => st
  | Some keys =>
      let keysToDelete := filter (λ keyDate, fromDate ≤ keyDate) keys in
      let deleted :=
        if bool_decide (0 < length keysToDelete)%nat
        then redis_del_balance (redis st) keysToDelete
        else Some (redis st) in
      match deleted with
      | None => st
      | Some r1 =>
          match redis_del_invalid_count r1 with
          | None => set_redis st r1
          | Some r2 => set_redis st r2
          end
      end
  end.

Definition getInvalidTransactionCount (st : State) : State * Z :=
  let cached :=
    if connected (redis st) then invalid_transaction_count (redis st) else None in
  match cached with
  | Some cachedCount => (st, cachedCount)
  | None =>
      let n := Z.of_nat (length (invalidTransactions (db st))) in
      if connected (redis st)
      then (set_redis st (mkRedis (connected (redis st)) (balance_keys (redis st))
                                  (Some n) (transaction_stats (redis st))), n)
      else (st, n)
  end.

(** ** Statistics *)

Definition Qc_list_max (l : list Qc) : option Qc :=
  match l with
  | [] => None
  | x :: rest => Some (foldr Qc_max x rest)
  end.

Definition Qc_min (x y : Qc) : Qc := if bool_decide (y < x)%Qc then y else x.

Definition Qc_list_min (l : list Qc) : option Qc :=
  match l with
  | [] => None
  | x :: rest => Some (foldr Qc_min x rest)
  end.

(** [prisma.transaction.aggregate({ where: { type }, _count, _sum, _avg,
    _max, _min })], each null aggregate replaced by 0. *)
Definition aggregate (ty : TransactionType) (log : list Transaction.t) : TypeStats :=
  let amounts :=
    Transaction.amount <$> filter (λ tx, Transaction.type tx = ty) log in
  mkTypeStats (Z.of_nat (length amounts))
    (default 0%Qc (float8_sum amounts))
    (default 0%Qc (float8_avg amounts))
    (default 0%Qc (Qc_list_max amounts))
    (default 0%Qc (Qc_list_min amounts)).

Definition getTransactionStats (st : State) : State * Response :=
  let cached :=
    if connected (redis st) then transaction_stats (redis st) else None in
  match cached with
  | Some cachedStats => (st, mkResponse 200 (JStats cachedStats))
  | None =>
      let log := transactions (db st) in
      let inStats := aggregate IN log in
      let outStats := aggregate OUT log in
      let stats :=
        mkStats (Z.of_nat (length log)) inStats outStats
                (fsub (totalAmount inStats) (totalAmount outStats)) in
      let st' :=
        if connected (redis st)
        then set_redis st (mkRedis (connected (redis st)) (balance_keys (redis st))
                                   (invalid_transaction_count (redis st)) (Some stats))
        else st in
      (st', mkResponse 200 (JStats stats))
  end.

(** ** Prisma operations on the Transaction table *)

(** [findUnique({ where: { id: txnId } })] *)
Definition findUnique (log : list Transaction.t) (txnId : Z) : option Transaction.t :=
  List.find (λ tx, bool_decide (Transaction.id tx = txnId)) log.

(** [tx.transaction.create({ data })], for a row the database takes.
    The error the database raises for a value beyond the range of its
    column (a date before the least timestamp of PostgreSQL) is outside
    the model. *)
Definition transaction_create (d : Db) (date : Z) (ty : TransactionType)
    (amount : Qc) : Db * Transaction.t :=
  let newTxn := Transaction.mk (transaction_seq d) date ty amount in
  (mkDb (transactions d ++ [newTxn]) (transaction_seq d + 1)
        (invalidTransactions d) (dailySummaries d),
   newTxn).

Definition transaction_update (d : Db) (txnId : Z) (date : Z)
    (ty : TransactionType) (amount : Qc) : Db * Transaction.t :=
  let updated := Transaction.mk txnId date ty amount in
  (mkDb ((λ tx, if bool_decide (Transaction.id tx = txnId) then updated else tx)
           <$> transactions d)
        (transaction_seq d) (invalidTransactions d) (dailySummaries d),
   updated).

(** Deleting a transaction removes its marker (ON DELETE CASCADE). *)
Definition transaction_delete (d : Db) (txnId : Z) : Db :=
  mkDb (filter (λ tx, Transaction.id tx ≠ txnId) (transactions d))
       (transaction_seq d)
       (filter (λ m, InvalidTransaction.transactionId m ≠ txnId)
               (invalidTransactions d))
       (dailySummaries d).

(** One row of [createMany({ data, skipDuplicates: true })]: the row takes
    the next id, and is skipped when it collides on a unique key; the
    primary key is the only unique key of the table. *)
Definition createMany_row (acc : Db * Z) (row : Z * TransactionType * Qc) : Db * Z :=
  let '(d, n) := acc in
  let '(date, ty, amount) := row in
  let newTxn := Transaction.mk (transaction_seq d) date ty amount in
  if existsb (λ old, Transaction.id old =? Transaction.id newTxn) (transactions d)
  then (mkDb (transactions d) (transaction_seq d + 1)
             (invalidTransactions d) (dailySummaries d), n)
  else (mkDb (transactions d ++ [newTxn]) (transaction_seq d + 1)
             (invalidTransactions d) (dailySummaries d), n + 1).

Definition createMany (d : Db) (data : list (Z * TransactionType * Qc)) : Db * Z :=
  fold_left createMany_row data (d, 0).

(** A stable sort on an integer key: [Array.prototype.sort] with the
    comparator [(a, b) => key(a) - key(b)], and ORDER BY key ASC with rows
    of equal key in table order. *)
Fixpoint insert_by {A} (key : A → Z) (x : A) (l : list A) : list A :=
  match l with
  | [] => [x]
  | y :: rest =>
      if key x <=? key y then x :: y :: rest else y :: insert_by key x rest
  end.

Definition sort_by {A} (key : A → Z) (l : list A) : list A :=
  foldr (insert_by key) [] l.

(** Ascending order of the key. *)
Definition key_le {A} (key : A → Z) (a b : A) : Prop := key a ≤ key b.

(** ** Mutation guard *)

(** The input validation of createTransaction: the 400 response of the
    first failing check, or the parsed date, type and amount. *)
Definition create_validate `{JsRuntime} (now : Z) (body : Body.t)
    : string + (Z * TransactionType * Qc) :=
  if negb (truthy (Body.timestamp body)) || negb (truthy (Body.type body))
     || negb (truthy (Body.amount body))
  then inl "Missing required fields"
  else
    match as_TransactionType (Body.type body) with
    | None => inl "Invalid transaction type"
    | Some type =>
        match new_Date (Body.timestamp body) with
        | None => inl "Invalid timestamp format"
        | Some date =>
            if isFuture now date then inl "Cannot use future timestamp"
            else
              match parseFloat (Body.amount body) with
              | None => inl "Amount must be a positive number"
              | Some numericAmount =>
                  if bool_decide (numericAmount ≤ 0)%Qc
                  then inl "Amount must be a positive number"
                  else inr (date, type, numericAmount)
              end
        end
    end.

(** The balance check at the head of the $transaction callback of
    createTransaction: [Some] is the thrown Insufficient balance error. *)
Definition create_gate (st : State) (date : Z) (type : TransactionType)
    (numericAmount : Qc) : State * option Response :=
  match type with
  | OUT =>
      let '(st1, balanceAtTime) := getBalanceAtTimestamp st date in
      if bool_decide (balanceAtTime < numericAmount)%Qc
      then (st1, Some (mkResponse 400 (JInsufficient balanceAtTime numericAmount)))
      else (st1, None)
  | IN => (st, None)
  end.

Definition createTransaction `{JsRuntime} (now : Z) (st : State) (body : Body.t)
    : Outcome :=
  match create_validate now body with
  | inl error => respond st 400 error
  | inr (date, type, numericAmount) =>
      match create_gate st date type numericAmount with
      | (st1, Some insufficient) => mkOutcome st1 insufficient None
      | (st1, None) =>
          let '(d, newTxn) := transaction_create (db st1) date type numericAmount in
          let st2 := invalidateBalanceCache (set_db st1 d) date in
          mkOutcome st2 (mkResponse 201 (JTransaction newTxn)) (Some date)
      end
  end.

Definition getBalanceExcludingTransaction (d : Db) (timestamp excludeId : Z) : Qc :=
  sql_signed_sum
    (λ tx, Transaction.timestamp tx ≤ timestamp ∧ Transaction.id tx ≠ excludeId)
    (transactions d).

Definition updateTransaction `{JsRuntime} (now : Z) (st : State) (id : string)
    (body : Body.t) : Outcome :=
  match parseInt_string id with
  | None => respond st 400 "Invalid transaction ID"
  | Some txnId =>
      match findUnique (transactions (db st)) txnId with
      | None => respond st 404 "Transaction not found"
      | Some existing =>
          let date :=
            if truthy (Body.timestamp body) then new_Date (Body.timestamp body)
            else Some (Transaction.timestamp existing) in
          let newType :=
            if truthy (Body.type body) then Body.type body
            else type_name (Transaction.type existing) in
          let newAmount :=
            if truthy (Body.amount body) then parseFloat (Body.amount body)
            else Some (Transaction.amount existing) in
          match date with
          | None => respond st 400 "Invalid timestamp format"
          | Some date =>
              if isFuture now date then respond st 400 "Cannot use future timestamp"
              else
                match newAmount with
                | None => respond st 400 "Amount must be a positive number"
                | Some newAmount =>
                    if truthy (Body.amount body) && bool_decide (newAmount ≤ 0)%Qc
                    then respond st 400 "Amount must be a positive number"
                    else
                      let balanceExcludingThis :=
                        getBalanceExcludingTransaction (db st) date txnId in
                      if is_OUT newType
                         && bool_decide (balanceExcludingThis < newAmount)%Qc
                      then mkOutcome st
                             (mkResponse 400
                                (JInsufficientUpdate balanceExcludingThis newAmount))
                             None
                      else
                        match as_TransactionType newType with
                        | None => respond st 500 "Failed to update transaction"
                        | Some ty =>
                            let '(d, updated) :=
                              transaction_update (db st) txnId date ty newAmount in
                            let earliestDate :=
                              Z.min (Transaction.timestamp existing) date in
                            mkOutcome
                              (invalidateBalanceCache (set_db st d) earliestDate)
                              (mkResponse 200 (JTransaction updated))
                              (Some earliestDate)
                        end
                end
          end
      end
  end.

Definition deleteTransaction `{JsRuntime} (st : State) (id : string) : Outcome :=
  match parseInt_string id with
  | None => respond st 400 "Invalid transaction ID"
  | Some txnId =>
      match findUnique (transactions (db st)) txnId with
      | None => respond st 404 "Transaction not found"
      | Some transaction =>
          let d := transaction_delete (db st) txnId in
          mkOutcome
            (invalidateBalanceCache (set_db st d) (Transaction.timestamp transaction))
            (mkResponse 200 (JMessage "Transaction deleted successfully"))
            (Some (Transaction.timestamp transaction))
      end
  end.

(** ** Bulk loader *)

Definition bulk_validate `{JsRuntime} (now : Z) (txn : Body.t)
    : string + (Z * TransactionType * Qc) :=
  if negb (truthy (Body.timestamp txn)) || negb (truthy (Body.type txn))
     || negb (truthy (Body.amount txn))
  then inl "Invalid transaction data"
  else
    match as_TransactionType (Body.type txn) with
    | None => inl "Invalid transaction type"
    | Some type =>
        match new_Date (Body.timestamp txn) with
        | None => inl "Invalid timestamp"
        | Some date =>
            if isFuture now date then inl "Invalid timestamp"
            else
              match parseFloat (Body.amount txn) with
              | None => inl "Invalid amount"
              | Some numericAmount =>
                  if bool_decide (numericAmount ≤ 0)%Qc
                  then inl "Invalid amount"
                  else inr (date, type, numericAmount)
              end
        end
    end.

(** The validation loop: the response to the first element that stops
    it, or the list validatedTransactions.  An element of the array is
    [None] when it is null or undefined: destructuring it throws a
    TypeError, which the handler catches and answers 500. *)
Fixpoint bulk_validate_all `{JsRuntime} (now : Z) (txns : list (option Body.t))
    (validatedTransactions : list (Z * TransactionType * Qc))
    : Response + list (Z * TransactionType * Qc) :=
  match txns with
  | [] => inr validatedTransactions
  | None :: _ =>
      inl (mkResponse 500 (JError "Failed to create bulk transactions"))
  | Some txn :: rest =>
      match bulk_validate now txn with
      | inl error => inl (mkResponse 400 (JError error))
      | inr v => bulk_validate_all now rest (validatedTransactions ++ [v])
      end
  end.

Definition bulk_batchSize : nat := Z.to_nat 1000.

(** [for (let i = 0; i < validated.length; i += batchSize)] *)
Fixpoint bulk_insert (batchSize : nat) (fuel : nat) (i : nat)
    (validated : list (Z * TransactionType * Qc)) (d : Db) (created : Z)
    : Db * Z :=
  match fuel with
  | O => (d, created)
  | S fuel' =>
      if bool_decide (i < length validated)%nat
      then
        let batch := take batchSize (drop i validated) in
        let '(d', n) := createMany d batch in
        bulk_insert batchSize fuel' (i + batchSize) validated d' (created + n)
      else (d, created)
  end.

(** The body field [transactions] is [None] when it is not an array. *)
Definition createBulkTransactions `{JsRuntime} (now : Z) (st : State)
    (transactions : option (list (option Body.t))) : Outcome :=
  match transactions with
  | None => respond st 400 "Transactions array is required"
  | Some [] => respond st 400 "Transactions array is required"
  | Some txns =>
      match bulk_validate_all now txns [] with
      | inl failed => mkOutcome st failed None
      | inr validatedTransactions =>
          let sorted := sort_by (λ v, v.1.1) validatedTransactions in
          let '(d, created) :=
            bulk_insert bulk_batchSize (length sorted) 0 sorted (db st) 0 in
          match redis_flushDb (redis st) with
          | None => respond (set_db st d) 500 "Failed to create bulk transactions"
          | Some r =>
              mkOutcome (mkState d r)
                (mkResponse 201
                   (JBulk "Bulk transactions created successfully" created))
                None
          end
      end
  end.

(** The rows a list of validated records becomes when every record is
    inserted, the first with id [seq]. *)
Fixpoint rows_from (seq : Z) (records : list (Z * TransactionType * Qc))
    : list Transaction.t :=
  match records with
  | [] => []
  | (date, ty, amount) :: rest =>
      Transaction.mk seq date ty amount :: rows_from (seq + 1) rest
  end.

(** Every id in the table was drawn from the sequence. *)
Definition ids_below_seq (d : Db) : Prop :=
  Forall (λ tx, Transaction.id tx < transaction_seq d) (transactions d).

(** ** Number.prototype.toFixed(2) *)

(** The integer n for which n / 100 is nearest to |x|, the larger one
    when two are equally near; [x] is the exact value of the number. *)
Definition toFixed2_n (x : Qc) : Z := Qfloor (Qabs x * 100 + (1 # 2))%Q.

Definition pad2 (d : Z) : string :=
  if d <? 10 then "0" +:+ pretty d else pretty d.

(** [x.toFixed(2)], for |x| below 10^21. *)
Definition toFixed2 (x : Qc) : string :=
  let n := toFixed2_n x in
  (if bool_decide (x < 0)%Qc then "-" else EmptyString)
    +:+ pretty (n / 100) +:+ "." +:+ pad2 (n mod 100).

(** [parseFloat(x.toFixed(2))]: the number nearest to the decimal that
    toFixed prints. *)
Definition parseFloat_toFixed2 (x : Qc) : Qc :=
  let n := toFixed2_n x in
  double ((if bool_decide (x < 0)%Qc then - n else n) # 100).

(** ** Invalid-transaction detector *)

Definition mark_batchSize : nat := Z.to_nat 10000.
Definition mark_insertSize : nat := Z.to_nat 1000.

(** The rows from the cursor row on, in the order of the query. *)
Fixpoint from_cursor (cursor : Z) (rows : list Transaction.t) : list Transaction.t :=
  match rows with
  | [] => []
  | tx :: rest =>
      if bool_decide (Transaction.id tx = cursor) then tx :: rest
      else from_cursor cursor rest
  end.

(** [findMany({ take, ...(cursor && { skip: 1, cursor: { id: cursor } }),
    orderBy: { timestamp: "asc" } })]; a cursor that is null or 0 is
    falsy and adds no cursor clause. *)
Definition findMany_page (log : list Transaction.t) (take_n : nat)
    (cursor : option Z) : list Transaction.t :=
  let ordered := sort_by Transaction.timestamp log in
  match cursor with
  | Some c =>
      if bool_decide (c = 0) then take take_n ordered
      else take take_n (drop 1 (from_cursor c ordered))
  | None => take take_n ordered
  end.

Definition newBalance_of (runningBalance : Qc) (txn : Transaction.t) : Qc :=
  match Transaction.type txn with
  | IN => fadd runningBalance (Transaction.amount txn)
  | OUT => fsub runningBalance (Transaction.amount txn)
  end.

(** The body of [for (const txn of transactions)], on the pair of
    runningBalance and invalidTxns. *)
Definition mark_txn (acc : Qc * list InvalidTransaction.t) (txn : Transaction.t)
    : Qc * list InvalidTransaction.t :=
  let '(runningBalance, invalidTxns) := acc in
  let newBalance := newBalance_of runningBalance txn in
  let invalidTxns' :=
    if bool_decide (newBalance < 0)%Qc
    then invalidTxns
           ++ [InvalidTransaction.mk (Transaction.id txn)
                 ("Would result in negative balance: " +:+ toFixed2 newBalance)]
    else invalidTxns in
  (Qc_max 0%Qc newBalance, invalidTxns').

(** The [while (true)] loop; [table] is the InvalidTransaction table.
    [None] when the fuel runs out before a page comes back empty. *)
Fixpoint mark_loop (batchSize insertSize : nat) (fuel : nat)
    (log : list Transaction.t) (cursor : option Z)
    (runningBalance : Qc) (invalidTxns table : list InvalidTransaction.t)
    : option (list InvalidTransaction.t * list InvalidTransaction.t) :=
  match fuel with
  | O => None
  | S fuel' =>
      let page := findMany_page log batchSize cursor in
      match last page with
      | None => Some (invalidTxns, table)
      | Some lastTxn =>
          let '(runningBalance', invalidTxns') :=
            fold_left mark_txn page (runningBalance, invalidTxns) in
          let cursor' := Some (Transaction.id lastTxn) in
          if bool_decide (insertSize ≤ length invalidTxns')%nat
          then mark_loop batchSize insertSize fuel' log cursor' runningBalance'
                 (drop insertSize invalidTxns')
                 (table ++ take insertSize invalidTxns')
          else mark_loop batchSize insertSize fuel' log cursor' runningBalance'
                 invalidTxns' table
      end
  end.

Definition markInvalidTransactions (d : Db) : option Db :=
  match mark_loop mark_batchSize mark_insertSize (S (length (transactions d)))
                  (transactions d) None 0%Qc [] [] with
  | None => None
  | Some (invalidTxns, table) =>
      let table' :=
        if bool_decide (0 < length invalidTxns)%nat then table ++ invalidTxns
        else table in
      Some (mkDb (transactions d) (transaction_seq d) table' (dailySummaries d))
  end.

(** The detector in the words of the specification: over a scan in
    chronological order, a transaction gets a marker exactly when its
    prospective balance is negative, and the scan goes on from the
    maximum of 0 and the prospective balance.  The balances are numbers:
    each sum and difference is rounded. *)
Definition prospective_balance (running : Qc) (txn : Transaction.t) : Qc :=
  match Transaction.type txn with
  | IN => fadd running (Transaction.amount txn)
  | OUT => fsub running (Transaction.amount txn)
  end.

Definition clamped (running : Qc) (txn : Transaction.t) : Qc :=
  let p := prospective_balance running txn in
  if bool_decide (p < 0)%Qc then 0%Qc else p.

Fixpoint running_after (running : Qc) (scan : list Transaction.t) : Qc :=
  match scan with
  | [] => running
  | txn :: rest => running_after (clamped running txn) rest
  end.

(** The reason of a marker: the negative prospective balance, printed
    with two decimals. *)
Definition shortfall (p : Qc) : string :=
  "Would result in negative balance: " +:+ toFixed2 p.

Fixpoint detect (running : Qc) (scan : list Transaction.t)
    : list InvalidTransaction.t :=
  match scan with
  | [] => []
  | txn :: rest =>
      let p := prospective_balance running txn in
      if bool_decide (p < 0)%Qc
      then InvalidTransaction.mk (Transaction.id txn) (shortfall p)
             :: detect 0%Qc rest
      else detect p rest
  end.

(** The detector of the specification with balances that round nothing:
    the ids of the transactions a scan marks. *)
Definition prospective_exact (running : Qc) (txn : Transaction.t) : Qc :=
  match Transaction.type txn with
  | IN => (running + Transaction.amount txn)%Qc
  | OUT => (running - Transaction.amount txn)%Qc
  end.

Fixpoint marked_exact (running : Qc) (scan : list Transaction.t) : list Z :=
  match scan with
  | [] => []
  | txn :: rest =>
      let p := prospective_exact running txn in
      if bool_decide (p < 0)%Qc
      then Transaction.id txn :: marked_exact 0%Qc rest
      else marked_exact p rest
  end.

(** ** Daily summary recalculator *)

Definition DAY : Z := 86400000.

(** The offset of local time from UTC in milliseconds (LocalTZA of
    ECMAScript): [LocalTZA t true] is the offset at the instant [t],
    [LocalTZA l false] the offset at the local time [l]. *)
Class TimeZone := { LocalTZA : Z → bool → Z }.

Definition LocalTime `{TimeZone} (t : Z) : Z := t + LocalTZA t true.
Definition UTC `{TimeZone} (l : Z) : Z := l - LocalTZA l false.

(** [setHours(0, 0, 0, 0)] and [setHours(23, 59, 59, 999)]: the local
    day is kept, the time within the day is replaced. *)
Definition startOfDay `{TimeZone} (t : Z) : Z := UTC (LocalTime t / DAY * DAY).
Definition endOfDay `{TimeZone} (t : Z) : Z :=
  UTC (LocalTime t / DAY * DAY + (DAY - 1)).

(** [d.setDate(d.getDate() + 1)]: the next local day, at the same time
    within the day. *)
Definition nextDay `{TimeZone} (d : Z) : Z := UTC (LocalTime d + DAY).

(** [for (let d = new Date(startDate); d <= endDate; d.setDate(d.getDate() + 1))];
    [None] when the fuel runs out before [d] passes [endDate]. *)
Fixpoint affectedDates_loop `{TimeZone} (fuel : nat) (d endDate : Z)
    : option (list Z) :=
  match fuel with
  | O => None
  | S fuel' =>
      if d <=? endDate
      then cons d <$> affectedDates_loop fuel' (nextDay d) endDate
      else Some []
  end.

(** The fuel is enough for a time zone in which a step of the loop
    advances [d] by half a day at least. *)
Definition affectedDates `{TimeZone} (now fromTimestamp : Z) : option (list Z) :=
  let startDate := startOfDay fromTimestamp in
  let endDate := endOfDay now in
  affectedDates_loop (S (Z.to_nat (2 * ((endDate - startDate) / DAY) + 2)))
                     startDate endDate.

(** The row computed for one date by the body of the second loop. *)
Definition daily_summary `{TimeZone} (log : list Transaction.t) (date : Z)
    : DailySummary.t :=
  let nextDate := nextDay date in
  let currentBalance :=
    sql_signed_sum (λ tx, Transaction.timestamp tx < nextDate) log in
  let dayTxns :=
    filter (λ tx, date ≤ Transaction.timestamp tx ∧ Transaction.timestamp tx < nextDate)
           log in
  let transactionCount := Z.of_nat (length dayTxns) in
  let inAmount :=
    default 0%Qc
      (float8_sum ((λ tx, match Transaction.type tx with
                          | IN => Transaction.amount tx | OUT => 0%Qc end)
                     <$> dayTxns)) in
  let outAmount :=
    default 0%Qc
      (float8_sum ((λ tx, match Transaction.type tx with
                          | OUT => Transaction.amount tx | IN => 0%Qc end)
                     <$> dayTxns)) in
  let previousBalance :=
    sql_signed_sum (λ tx, Transaction.timestamp tx < date) log in
  let percentChange :=
    if bool_decide (previousBalance = 0%Qc) then 0%Qc
    else fmul (fdiv (fsub currentBalance previousBalance) previousBalance)
              (Qc_of_Z 100) in
  DailySummary.mk currentBalance (parseFloat_toFixed2 percentChange)
                  transactionCount inAmount outAmount.

(** What the column [date], a DATE, keeps of an instant: the day of the
    UTC calendar, read back as the midnight that starts it. *)
Definition date_column (t : Z) : Z := t / DAY * DAY.

(** [prisma.dailySummary.upsert({ where: { date }, update, create })] *)
Definition upsert_summary `{TimeZone} (log : list Transaction.t)
    (table : gmap Z DailySummary.t) (date : Z) : gmap Z DailySummary.t :=
  <[date_column date := daily_summary log date]> table.

(** [now] is the instant of [new Date()]. *)
Definition recalculateFromTimestamp `{TimeZone} (now : Z) (d : Db)
    (fromTimestamp : Z) : option Db :=
  match affectedDates now fromTimestamp with
  | None => None
  | Some dates =>
      let table :=
        fold_left (upsert_summary (transactions d)) dates (dailySummaries d) in
      markInvalidTransactions
        (mkDb (transactions d) (transaction_seq d) (invalidTransactions d) table)
  end.

(** The process runs in UTC. *)
Definition utc : TimeZone := {| LocalTZA := λ _ _, 0 |}.

(** The time zone has offset 0 throughout. *)
Definition is_utc `{TimeZone} : Prop := ∀ t isUTC, LocalTZA t isUTC = 0.

(** The daily summary in the words of the specification, for the day
    number [k] of the UTC calendar: the day from instant [k * DAY] up
    to, and without, instant [(k + 1) * DAY]. *)
Definition in_day (k : Z) (tx : Transaction.t) : Prop :=
  k * DAY ≤ Transaction.timestamp tx ∧ Transaction.timestamp tx < (k + 1) * DAY.

#[global] Instance in_day_dec (k : Z) (tx : Transaction.t) : Decision (in_day k tx).
Proof. unfold in_day. apply _. Defined.

Definition amount_of_type (ty : TransactionType) (k : Z)
    (log : list Transaction.t) : Qc :=
  sum_Qc (Transaction.amount
            <$> filter (λ tx, Transaction.type tx = ty ∧ in_day k tx) log).

(** The relative change in percent, as a number: each operation
    rounds, and so does the reading of the two printed decimals. *)
Definition percent_change (balance previousBalance : Qc) : Qc :=
  if bool_decide (previousBalance = 0%Qc) then 0%Qc
  else parseFloat_toFixed2
         (fmul (fdiv (fsub balance previousBalance) previousBalance)
               (Qc_of_Z 100)).

Definition end_of_day (k : Z) : Z := (k + 1) * DAY - 1.



Definition summary_of_day (log : list Transaction.t) (k : Z) : DailySummary.t :=
  let balance := B log (end_of_day k) in
  let previousBalance := B log (end_of_day (k - 1)) in
  DailySummary.mk balance (percent_change balance previousBalance)
    (Z.of_nat (length (filter (in_day k) log)))
    (amount_of_type IN k log) (amount_of_type OUT k log).

(** ** Batch balances *)

(** The statement of getBalancesAtTimestamps, clause by clause.

    - The subquery [buckets] selects the timestamp of every row of
      Transaction whose timestamp is among the requested instants.
    - LEFT JOIN Transaction t ON t.timestamp <= timestamp_bucket pairs a
      bucket row with every transaction up to it.
    - GROUP BY timestamp_bucket makes one group, hence one result row,
      per distinct bucket, in ascending order.

    The select item COALESCE(SUM(CASE ...) OVER (ORDER BY
    timestamp_bucket), 0) is a window sum over columns of [t] that are
    neither grouped nor aggregated.  The value a database gives it in
    the row of a bucket is the argument [running_balance], a function of
    all groups and of the bucket. *)
Definition bucket_rows (log : list Transaction.t) (uniqueTimestamps : list Z)
    : list Z :=
  sort_by (λ b : Z, b)
    (Transaction.timestamp
       <$> filter (λ tx, Transaction.timestamp tx ∈ uniqueTimestamps) log).

Definition joined_rows (log : list Transaction.t) (bucket : Z) : list Transaction.t :=
  filter (λ t, Transaction.timestamp t ≤ bucket) log.

Definition groups (log : list Transaction.t) (uniqueTimestamps : list Z)
    : list (Z * list Transaction.t) :=
  let rows := bucket_rows log uniqueTimestamps in
  (λ b, (b, mjoin ((λ _, joined_rows log b) <$> filter (λ b', b' = b) rows)))
    <$> remove_dups rows.

Definition getBalancesAtTimestamps
    (running_balance : list (Z * list Transaction.t) → Z → Qc)
    (log : list Transaction.t) (timestamps : list Z) : gmap Z Qc :=
  let uniqueTimestamps := remove_dups timestamps in
  let gs := groups log uniqueTimestamps in
  let results := (λ g, (g.1, running_balance gs g.1)) <$> gs in
  fold_left (λ balanceMap row, <[row.1 := row.2]> balanceMap) results ∅.

(** One reading of the select item: the sum of the signed amounts of the
    rows joined to the buckets up to the current one. *)
Definition window_sum (gs : list (Z * list Transaction.t)) (bucket : Z) : Qc :=
  default 0%Qc
    (float8_sum (signed_amount <$> mjoin (snd <$> filter (λ g, g.1 ≤ bucket) gs))).

(** ** createTransaction requests in flight *)

(** A request that has passed validation stops at three awaits: the
    balance read, the insert, and the cache invalidation.  Between two
    awaits a handler runs alone; at an await any other handler may run. *)
Inductive CreateTask :=
| AwaitBalance (date : Z) (type : TransactionType) (numericAmount : Qc)
| AwaitCreate (date : Z) (type : TransactionType) (numericAmount : Qc)
| AwaitInvalidate (date : Z) (newTxn : Transaction.t)
| Responded (r : Response).

Definition create_start `{JsRuntime} (now : Z) (body : Body.t) : CreateTask :=
  match create_validate now body with
  | inl error => Responded (mkResponse 400 (JError error))
  | inr (date, type, numericAmount) => AwaitBalance date type numericAmount
  end.

Definition create_step (st : State) (task : CreateTask) : State * CreateTask :=
  match task with
  | AwaitBalance date type numericAmount =>
      match create_gate st date type numericAmount with
      | (st1, Some insufficient) => (st1, Responded insufficient)
      | (st1, None) => (st1, AwaitCreate date type numericAmount)
      end
  | AwaitCreate date type numericAmount =>
      let '(d, newTxn) := transaction_create (db st) date type numericAmount in
      (set_db st d, AwaitInvalidate date newTxn)
  | AwaitInvalidate date newTxn =>
      (invalidateBalanceCache st date,
       Responded (mkResponse 201 (JTransaction newTxn)))
  | Responded r => (st, Responded r)
  end.

(** Two requests; the schedule tells which of them runs to its next
    await. *)
Fixpoint run_two (schedule : list bool) (st : State) (a b : CreateTask)
    : State * CreateTask * CreateTask :=
  match schedule with
  | [] => (st, a, b)
  | true :: rest =>
      let '(st', a') := create_step st a in run_two rest st' a' b
  | false :: rest =>
      let '(st', b') := create_step st b in run_two rest st' a b'
  end.

(** ** Sample ledgers and requests *)

(** A runtime for bodies whose fields are numbers: no string parses. *)
Definition numeric_runtime : JsRuntime :=
  {| Date_parse := λ _, None;
     parseFloat_string := λ _, None;
     parseInt_string := λ s, if String.eqb s "1" then Some 1
                             else if String.eqb s "2" then Some 2 else None |}.

Definition day1 : Z := 1 * DAY.
Definition day2 : Z := 2 * DAY.

Definition empty_redis : Redis := mkRedis true ∅ None None.

Definition db_of (log : list Transaction.t) : Db :=
  mkDb log (Z.of_nat (length log) + 1) [] ∅.

(** IN 100 on day 1, then OUT 150 on day 2. *)
Definition overdraft_log : list Transaction.t :=
  [ Transaction.mk 1 day1 IN (Qc_of_Z 100);
    Transaction.mk 2 day2 OUT (Qc_of_Z 150) ].

Definition deposit_log : list Transaction.t :=
  [ Transaction.mk 1 day1 IN (Qc_of_Z 100) ].

Definition withdrawal_log : list Transaction.t :=
  [ Transaction.mk 1 day2 OUT (Qc_of_Z 100) ].

Definition state_of (log : list Transaction.t) : State :=
  mkState (db_of log) empty_redis.

Definition body_of (timestamp : Z) (type : string) (amount : Z) : Body.t :=
  Body.mk (JNum (Qc_of_Z timestamp)) (JStr type) (JNum (Qc_of_Z amount)).

(** The deposit ledger after the stats endpoint, the invalid count and
    the balances at day 1 and day 2 were read, all through the cache. *)
Definition warm_state : State :=
  let st0 := state_of deposit_log in
  let st1 := (getTransactionStats st0).1 in
  let st2 := (getInvalidTransactionCount st1).1 in
  let st3 := (getBalanceAtTimestamp st2 day1).1 in
  (getBalanceAtTimestamp st3 day2).1.

(** ** The service as a transition system *)

(** The requests that read or write the ledger, each at the instant
    [now] it is handled. *)
Inductive Request :=
| PostTransaction (now : Z) (body : Body.t)
| PutTransaction (now : Z) (id : string) (body : Body.t)
| DeleteTransaction (id : string)
| PostBulk (now : Z) (transactions : option (list (option Body.t)))
| GetStats
| ReadBalance (timestamp : Z)
| ReadInvalidCount.

Definition handle `{JsRuntime} (st : State) (req : Request) : State :=
  match req with
  | PostTransaction now body => state (createTransaction now st body)
  | PutTransaction now id body => state (updateTransaction now st id body)
  | DeleteTransaction id => state (deleteTransaction st id)
  | PostBulk now txns => state (createBulkTransactions now st txns)
  | GetStats => (getTransactionStats st).1
  | ReadBalance t => (getBalanceAtTimestamp st t).1
  | ReadInvalidCount => (getInvalidTransactionCount st).1
  end.

(** The invariant of the service while the cache carries out its
    commands: ids are unique and were drawn from the sequence, and every
    cached balance is the sum the query gives on the table. *)
Record Inv (st : State) : Prop := mkInv {
  inv_connected : connected (redis st) = true;
  inv_ids : NoDup (Transaction.id <$> transactions (db st));
  inv_seq : ids_below_seq (db st);
  inv_cache : cache_fresh st
}.

(** ** More sample ledgers and requests *)

(** IN 100 on day 1, then OUT 100 on day 2. *)
Definition settled_log : list Transaction.t :=
  [ Transaction.mk 1 day1 IN (Qc_of_Z 100);
    Transaction.mk 2 day2 OUT (Qc_of_Z 100) ].






(** ** Listing *)

(** The query string of GET /api/transactions: each parameter absent or
    given once, as a string. *)
Module Query.
Record t := mk { cursor : option string; limit : option string }.
End Query.

(** The body of a listing: each transaction with the reason of its
    marker, or null. *)
Module Listing.
Record row := mkRow { txn : Transaction.t; invalidTransaction : option string }.
Record t := mk {
  transactions : list row;
  nextCursor : option Z;
  hasMore : bool;
  invalidCount : Z
}.
End Listing.

Inductive ListResponse :=
| Listed (body : Listing.t)
| ListFailed (status : Z) (error : string).

(** [Math.min(parseInt(limit), 100)] with the default [limit = 50];
    [None] is NaN. *)
Definition take_of `{JsRuntime} (limit : option string) : option Z :=
  match limit with
  | None => Some (Z.min 50 100)
  | Some s => (λ n, Z.min n 100) <$> parseInt_string s
  end.

(** [...(cursor && { skip: 1, cursor: { id: parseInt(cursor) } })]: no
    clause for an absent or empty parameter; [Some None] is the id NaN. *)
Definition cursor_of `{JsRuntime} (cursor : option string) : option (option Z) :=
  match cursor with
  | Some s => if truthy (JStr s) then Some (parseInt_string s) else None
  | None => None
  end.

(** The ranges of the column type INTEGER and of Prisma's [take]. *)
Definition fits_INTEGER (n : Z) : bool :=
  bool_decide (-2147483648 ≤ n ≤ 2147483647).
Definition fits_BIGINT (n : Z) : bool :=
  bool_decide (-9223372036854775808 ≤ n ≤ 9223372036854775807).

(** ORDER BY timestamp DESC, id DESC *)
Definition newest_first (log : list Transaction.t) : list Transaction.t :=
  sort_by (λ tx, - Transaction.timestamp tx)
          (sort_by (λ tx, - Transaction.id tx) log).

(** The rows after the cursor row ([skip: 1]) in an order. *)
Definition after_cursor (cursor : option Z) (ordered : list Transaction.t)
    : list Transaction.t :=
  match cursor with
  | None => ordered
  | Some c => drop 1 (from_cursor c ordered)
  end.

(** [prisma.transaction.findMany({ take, cursor, skip, orderBy })] of
    getAllTransactions; [None] is a thrown error.  Prisma rejects NaN and
    an integer outside the range of its argument; a negative [take]
    selects the rows before the cursor, or the last rows of the order,
    and returns them in the order. *)
Definition findMany_newest (log : list Transaction.t) (take_ : option Z)
    (cursor : option (option Z)) : option (list Transaction.t) :=
  match take_ with
  | None => None
  | Some n =>
      if negb (fits_BIGINT n) then None
      else
        match cursor with
        | Some None => None
        | Some (Some c) =>
            if fits_INTEGER c
            then Some (if 0 <=? n
                       then take (Z.to_nat n) (after_cursor (Some c) (newest_first log))
                       else reverse (take (Z.to_nat (- n))
                                       (after_cursor (Some c)
                                                     (reverse (newest_first log)))))
            else None
        | None =>
            Some (if 0 <=? n
                  then take (Z.to_nat n) (newest_first log)
                  else reverse (take (Z.to_nat (- n)) (reverse (newest_first log))))
        end
  end.

(** [invalidTransaction: { select: { reason: true } }] *)
Definition reason_for (table : list InvalidTransaction.t) (txnId : Z)
    : option string :=
  InvalidTransaction.reason
    <$> List.find (λ m, bool_decide (InvalidTransaction.transactionId m = txnId))
                  table.

(** The select clause: a transaction with the reason of its marker. *)
Definition listing_row (d : Db) (tx : Transaction.t) : Listing.row :=
  Listing.mkRow tx (reason_for (invalidTransactions d) (Transaction.id tx)).

Definition getAllTransactions `{JsRuntime} (st : State) (query : Query.t)
    : State * ListResponse :=
  let failed := ListFailed 500 "Failed to fetch transactions" in
  let take_ := take_of (Query.limit query) in
  match take_, findMany_newest (transactions (db st)) take_
                                (cursor_of (Query.cursor query)) with
  | Some take_n, Some found =>
      let rows := listing_row (db st) <$> found in
      let '(st1, invalidCount) := getInvalidTransactionCount st in
      if bool_decide (Z.of_nat (length found) = take_n)
      then
        (* transactions[transactions.length - 1].id throws on an empty page *)
        match last found with
        | Some lastTxn =>
            (st1, Listed (Listing.mk rows (Some (Transaction.id lastTxn)) true
                                     invalidCount))
        | None => (st1, failed)
        end
      else (st1, Listed (Listing.mk rows None false invalidCount))
  | _, _ => (st, failed)
  end.

(** ** Summary statistics *)

Module SummaryStats.
Record t := mk {
  totalDays : Z;
  currentBalance : Qc;
  averageBalance : Qc;
  maxBalance : Qc;
  minBalance : Qc;
  averagePercentChange : Qc;
  maxPercentChange : Qc;
  minPercentChange : Qc
}.
End SummaryStats.

(** [prisma.dailySummary.findFirst({ orderBy: { date: "desc" } })] *)
Definition latestSummary (table : gmap Z DailySummary.t) : option DailySummary.t :=
  snd <$> head (sort_by (λ row : Z * DailySummary.t, - row.1) (map_to_list table)).

(** [x || 0] on a number or null. *)
Definition or_0 (x : option Qc) : Qc := default 0%Qc x.

Definition getSummaryStats (d : Db) : SummaryStats.t :=
  let rows := (map_to_list (dailySummaries d)).*2 in
  let balances := DailySummary.balance <$> rows in
  let changes := DailySummary.percentChange <$> rows in
  SummaryStats.mk
    (Z.of_nat (length rows))
    (or_0 (DailySummary.balance <$> latestSummary (dailySummaries d)))
    (or_0 (float8_avg balances))
    (or_0 (Qc_list_max balances))
    (or_0 (Qc_list_min balances))
    (or_0 (float8_avg changes))
    (or_0 (Qc_list_max changes))
    (or_0 (Qc_list_min changes)).

(** The order of the listing: [a] comes no later than [b]. *)
Definition newer (a b : Transaction.t) : Prop :=
  Transaction.timestamp b < Transaction.timestamp a
  ∨ (Transaction.timestamp b = Transaction.timestamp a
     ∧ Transaction.id b ≤ Transaction.id a).

(** A runtime that reads the decimal numerals of small ids and limits. *)
Definition digit_runtime : JsRuntime :=
  {| Date_parse := λ _, None;
     parseFloat_string := λ _, None;
     parseInt_string := λ s,
       if String.eqb s "0" then Some 0
       else if String.eqb s "1" then Some 1
       else if String.eqb s "2" then Some 2
       else if String.eqb s "3" then Some 3
       else None |}.

(** Three deposits, one per day. *)
Definition three_log : list Transaction.t :=
  [ Transaction.mk 1 day1 IN (Qc_of_Z 100);
    Transaction.mk 2 day2 IN (Qc_of_Z 50);
    Transaction.mk 3 (3 * DAY) IN (Qc_of_Z 25) ].

(** A table of two daily rows. *)
Definition two_days : gmap Z DailySummary.t :=
  <[day1 := DailySummary.mk (Qc_of_Z 100) 0%Qc 1 (Qc_of_Z 100) 0%Qc]>
    (<[day2 := DailySummary.mk (Qc_of_Z 40) (Qc_of_Z (-60)) 1 0%Qc (Qc_of_Z 60)]> ∅).

(** * Properties *)

(** ** Properties of the rounding *)

Lemma Qred_inject_Z (z : Z) : Qred (inject_Z z) = inject_Z z.
Proof. apply Qred_identity. simpl. apply Z.gcd_1_r. Qed.

Lemma Qlog2_floor_inject_Z (a : Z) :
  0 < a → Qlog2_floor (inject_Z a) = Z.log2 a.
Proof.
  intros Ha. unfold Qlog2_floor. simpl.
  change (Z.log2 1) with 0. rewrite Z.sub_0_r.
  pose proof (Z.log2_nonneg a) as Hk.
  destruct (Z.leb_spec 0 (Z.log2 a)); [|lia].
  pose proof (Z.log2_spec a Ha) as [Hlo _].
  destruct (Z.leb_spec (1 * 2 ^ Z.log2 a) a); [reflexivity|lia].
Qed.

Lemma round_half_even_inject_Z (q : Q) (m : Z) :
  q == inject_Z m → round_half_even q = m.
Proof.
  intros Hq. unfold round_half_even.
  assert (Hf : Qfloor q = m).
  { rewrite (Qfloor_comp _ _ Hq). apply Qfloor_Z. }
  rewrite Hf.
  assert (Hc : (q - inject_Z m ?= 1 # 2)%Q = Lt).
  { rewrite <- Qlt_alt. rewrite Hq. unfold Qminus. rewrite Qplus_opp_r.
    reflexivity. }
  now rewrite Hc.
Qed.

(** An integer of magnitude below 2^53 is a binary64 value. *)
Lemma binary64_inject_Z (z : Z) :
  Z.abs z < 2 ^ 53 → binary64 (inject_Z z) == inject_Z z.
Proof.
  intros Hz. unfold binary64. rewrite Qred_inject_Z.
  destruct (Qeq_bool (inject_Z z) 0) eqn:H0.
  - apply Qeq_bool_eq in H0. now rewrite H0.
  - assert (Hnz : z ≠ 0).
    { intros ->. discriminate. }
    set (a := Z.abs z).
    assert (Ha : 0 < a) by (subst a; lia).
    assert (Hlog : Z.log2 a < 53).
    { apply Z.log2_lt_pow2; [exact Ha|exact Hz]. }
    pose proof (Z.log2_nonneg a) as Hlog0.
    assert (Hu : ulp_exponent (inject_Z z) = Z.log2 a - 52).
    { unfold ulp_exponent.
      assert (Qabs (inject_Z z) = inject_Z a) as -> by reflexivity.
      rewrite Qlog2_floor_inject_Z by exact Ha. lia. }
    cbv zeta. rewrite Hu.
    set (k := 52 - Z.log2 a).
    assert (Hk : 0 ≤ k) by (subst k; lia).
    assert (Hp : pow2 (Z.log2 a - 52) == 1 # Z.to_pos (2 ^ k)).
    { unfold pow2. destruct (Z.leb_spec 0 (Z.log2 a - 52)) as [Hge|Hlt].
      - assert (Z.log2 a - 52 = 0) as -> by lia.
        assert (k = 0) as -> by lia. reflexivity.
      - replace (- (Z.log2 a - 52)) with k by (subst k; lia). reflexivity. }
    assert (H2k : 0 < 2 ^ k) by (apply Z.pow_pos_nonneg; lia).
    assert (Hdiv : inject_Z z / pow2 (Z.log2 a - 52) == inject_Z (z * 2 ^ k)).
    { rewrite Hp. unfold Qdiv, Qinv, Qeq, Qmult, inject_Z. simpl.
      destruct (2 ^ k) eqn:E; simpl; lia. }
    rewrite (round_half_even_inject_Z _ _ Hdiv), Hp.
    unfold Qeq, Qmult, inject_Z. simpl.
    rewrite Pos.mul_1_l, Z2Pos.id by exact H2k. lia.
Qed.

Lemma pow2_pos (e : Z) : (0 < pow2 e)%Q.
Proof.
  unfold pow2. destruct (Z.leb_spec 0 e) as [He|He].
  - change 0%Q with (inject_Z 0). rewrite <- Zlt_Qlt.
    now apply Z.pow_pos_nonneg.
  - reflexivity.
Qed.

Lemma round_half_even_nonneg (q : Q) : (0 <= q)%Q → 0 ≤ round_half_even q.
Proof.
  intros Hq. unfold round_half_even.
  assert (Hf : 0 ≤ Qfloor q).
  { change 0 with (Qfloor 0). now apply Qfloor_resp_le. }
  destruct (Qcompare _ _); [destruct (Z.even _)| |]; lia.
Qed.

(** Rounding keeps the sign of a number that is not negative. *)
Lemma binary64_nonneg (q : Q) : (0 <= q)%Q → (0 <= binary64 q)%Q.
Proof.
  intros Hq. unfold binary64.
  assert (Hx : (0 <= Qred q)%Q) by now rewrite Qred_correct.
  destruct (Qeq_bool (Qred q) 0); [apply Qle_refl|]. cbv zeta.
  set (u := pow2 (ulp_exponent (Qred q))).
  assert (Hu : (0 < u)%Q) by apply pow2_pos.
  apply Qmult_le_0_compat; [|now apply Qlt_le_weak].
  change 0%Q with (inject_Z 0). rewrite <- Zle_Qle.
  apply round_half_even_nonneg.
  apply Qmult_le_0_compat; [exact Hx|].
  now apply Qinv_le_0_compat, Qlt_le_weak.
Qed.

Lemma fadd_nonneg (x y : Qc) : (0 ≤ x)%Qc → (0 ≤ y)%Qc → (0 ≤ fadd x y)%Qc.
Proof.
  intros Hx Hy. unfold fadd, Qcle. cbn [this Q2Qc].
  rewrite !Qred_correct. apply binary64_nonneg.
  change 0%Q with (0 + 0)%Q. now apply Qplus_le_compat.
Qed.

Lemma whole_Qc_of_Z (x : Qc) : whole x → x = Qc_of_Z (Qnum x).
Proof.
  intros Hx. apply Qc_is_canon. destruct x as [[n d] Hc].
  unfold whole in Hx. simpl in *. now subst d.
Qed.

Lemma double_Qc_of_Z (q : Q) (z : Z) :
  q == inject_Z z → Z.abs z < 2 ^ 53 → double q = Qc_of_Z z.
Proof.
  intros Hq Hz. apply Qc_is_canon. simpl. rewrite Qred_correct.
  unfold binary64. rewrite (Qred_complete _ _ Hq).
  exact (binary64_inject_Z z Hz).
Qed.

Lemma fadd_Qc_of_Z (a b : Z) :
  Z.abs (a + b) < 2 ^ 53 → fadd (Qc_of_Z a) (Qc_of_Z b) = Qc_of_Z (a + b).
Proof.
  intros Hab. apply double_Qc_of_Z; [|exact Hab].
  simpl. now rewrite inject_Z_plus.
Qed.

Lemma fsub_Qc_of_Z (a b : Z) :
  Z.abs (a - b) < 2 ^ 53 → fsub (Qc_of_Z a) (Qc_of_Z b) = Qc_of_Z (a - b).
Proof.
  intros Hab. apply double_Qc_of_Z; [|exact Hab].
  simpl. unfold Z.sub. now rewrite inject_Z_plus, inject_Z_opp.
Qed.

(** ** Sums *)

Lemma sum_Qc_cons (x : Qc) (l : list Qc) :
  sum_Qc (x :: l) = (x + sum_Qc l)%Qc.
Proof. reflexivity. Qed.


Lemma Zsum_abs_cons (x : Qc) (l : list Qc) :
  Zsum_abs (x :: l) = Z.abs (Qnum x) + Zsum_abs l.
Proof. reflexivity. Qed.


Lemma Zsum_abs_nonneg (l : list Qc) : 0 ≤ Zsum_abs l.
Proof. induction l as [|x l IH]; simpl; lia. Qed.

Lemma Zsum_abs_sublist (l1 l2 : list Qc) :
  l1 `sublist_of` l2 → Zsum_abs l1 ≤ Zsum_abs l2.
Proof. induction 1; simpl; lia. Qed.

(** Adding whole numbers to a whole number rounds nothing while the
    magnitudes add up to less than 2^53. *)
Lemma fold_left_fadd_whole (l : list Qc) (a : Z) :
  Forall whole l →
  Z.abs a + Zsum_abs l < 2 ^ 53 →
  fold_left fadd l (Qc_of_Z a) = (Qc_of_Z a + sum_Qc l)%Qc.
Proof.
  revert a. induction l as [|x l IH]; intros a Hw Hb; simpl.
  - now rewrite Qcplus_0_r.
  - apply Forall_cons in Hw as [Hx Hw]. simpl in Hb.
    pose proof (Zsum_abs_nonneg l) as Hl.
    rewrite (whole_Qc_of_Z x Hx).
    change (Qnum (Qc_of_Z (Qnum x))) with (Qnum x) in *.
    rewrite fadd_Qc_of_Z by lia.
    rewrite IH by (try assumption; lia).
    rewrite Z2Qc_inj_add. ring.
Qed.

Lemma float8_sum_exact (l : list Qc) :
  Forall whole l → Zsum_abs l < 2 ^ 53 →
  default 0%Qc (float8_sum l) = sum_Qc l.
Proof.
  destruct l as [|x l]; [reflexivity|].
  intros [Hx Hw]%Forall_cons Hb. simpl in *.
  rewrite (whole_Qc_of_Z x Hx).
  change (Qnum (Qc_of_Z (Qnum x))) with (Qnum x) in *.
  now apply fold_left_fadd_whole.
Qed.

(** The magnitude of a sum of whole numbers. *)
Lemma sum_Qc_whole (l : list Qc) :
  Forall whole l →
  ∃ z, sum_Qc l = Qc_of_Z z ∧ Z.abs z ≤ Zsum_abs l.
Proof.
  induction 1 as [|x l Hx _ (z & Hz & Hb)]; simpl.
  - exists 0. split; [now rewrite Z2Qc_inj_0|lia].
  - exists (Qnum x + z). split; [|lia].
    rewrite Hz, (whole_Qc_of_Z x Hx) at 1. now rewrite Z2Qc_inj_add.
Qed.

(** ** Exact ledgers *)

Lemma whole_opp (x : Qc) : whole x → whole (- x)%Qc.
Proof.
  intros Hx. rewrite (whole_Qc_of_Z x Hx), <- Z2Qc_inj_opp. reflexivity.
Qed.

Lemma Qnum_opp_whole (x : Qc) : whole x → Qnum (- x)%Qc = - Qnum x.
Proof.
  intros Hx. rewrite (whole_Qc_of_Z x Hx) at 1. now rewrite <- Z2Qc_inj_opp.
Qed.

Lemma Forall_sublist {A} (P : A → Prop) (l1 l2 : list A) :
  l1 `sublist_of` l2 → Forall P l2 → Forall P l1.
Proof.
  induction 1 as [|x l1 l2 _ IH|x l1 l2 _ IH]; intros Hall.
  - constructor.
  - apply Forall_cons in Hall as [Hx Hall]. constructor; auto.
  - apply Forall_cons in Hall as [_ Hall]. auto.
Qed.

Lemma exact_ledger_sublist (l log : list Transaction.t) :
  l `sublist_of` log → exact_ledger log → exact_ledger l.
Proof.
  intros Hsub [Hw Hb]. split.
  - exact (Forall_sublist _ _ _ Hsub Hw).
  - eapply Z.le_lt_trans; [|exact Hb].
    apply Zsum_abs_sublist. now apply fmap_sublist.
Qed.

Lemma exact_ledger_filter (P : Transaction.t → Prop) `{∀ tx, Decision (P tx)}
    (log : list Transaction.t) :
  exact_ledger log → exact_ledger (filter P log).
Proof. apply exact_ledger_sublist, sublist_filter. Qed.

(** A column computed from the rows of an exact ledger, each value a
    whole number no larger in magnitude than the amount of its row, is
    summed without rounding. *)
Lemma float8_sum_column (f : Transaction.t → Qc) (l : list Transaction.t) :
  (∀ tx, whole (Transaction.amount tx) →
         whole (f tx)
         ∧ Z.abs (Qnum (f tx)) ≤ Z.abs (Qnum (Transaction.amount tx))) →
  exact_ledger l →
  default 0%Qc (float8_sum (f <$> l)) = sum_Qc (f <$> l)
  ∧ ∃ z, sum_Qc (f <$> l) = Qc_of_Z z
         ∧ Z.abs z ≤ Zsum_abs (Transaction.amount <$> l).
Proof.
  intros Hf [Hw Hb].
  assert (Hcol : Forall whole (f <$> l)
                 ∧ Zsum_abs (f <$> l) ≤ Zsum_abs (Transaction.amount <$> l)).
  { clear Hb. induction Hw as [|tx l Htx _ [IH1 IH2]].
    - split; [constructor|reflexivity].
    - destruct (Hf tx Htx) as [Hwf Hbf]. rewrite !fmap_cons.
      split; [now constructor|]. rewrite !Zsum_abs_cons. lia. }
  destruct Hcol as [Hcw Hcb]. split.
  - apply float8_sum_exact; [exact Hcw|lia].
  - destruct (sum_Qc_whole _ Hcw) as (z & Hz & Hzb).
    exists z. split; [exact Hz|lia].
Qed.

Lemma signed_amount_within (tx : Transaction.t) :
  whole (Transaction.amount tx) →
  whole (signed_amount tx)
  ∧ Z.abs (Qnum (signed_amount tx)) ≤ Z.abs (Qnum (Transaction.amount tx)).
Proof.
  intros Hw. unfold signed_amount. destruct (Transaction.type tx).
  - split; [exact Hw|lia].
  - split; [now apply whole_opp|]. rewrite Qnum_opp_whole by exact Hw. lia.
Qed.

(** On an exact ledger the sum of the query is the exact sum. *)
Lemma sql_signed_sum_exact (P : Transaction.t → Prop) `{∀ tx, Decision (P tx)}
    (log : list Transaction.t) :
  exact_ledger log →
  sql_signed_sum P log = sum_Qc (signed_amount <$> filter P log).
Proof.
  intros Hex. unfold sql_signed_sum.
  apply (float8_sum_column signed_amount); [apply signed_amount_within|].
  now apply exact_ledger_filter.
Qed.
(** ** Properties of the oracle *)

(** The balance function is the exact sum of the signed amounts. *)
Lemma B_sum (log : list Transaction.t) (t : Z) :
  B log t
  = sum_Qc (signed_amount <$> filter (λ tx, Transaction.timestamp tx ≤ t) log).
Proof.
  induction log as [|tx rest IH]; [reflexivity|].
  rewrite filter_cons. cbn [B].
  destruct (Z.leb_spec (Transaction.timestamp tx) t).
  - rewrite decide_True by assumption.
    rewrite fmap_cons, sum_Qc_cons, IH.
    unfold signed_amount. destruct (Transaction.type tx); ring.
  - rewrite decide_False by lia. exact IH.
Qed.


(** On an exact ledger the query gives the balance function. *)
Lemma sql_signed_sum_upto (log : list Transaction.t) (t : Z) :
  exact_ledger log →
  sql_signed_sum (λ tx, Transaction.timestamp tx ≤ t) log = B log t.
Proof. intros Hex. rewrite B_sum. now apply sql_signed_sum_exact. Qed.

Lemma getBalanceAtTimestamp_miss (st : State) (t : Z) :
  connected (redis st) = false ∨ balance_keys (redis st) !! t = None →
  (getBalanceAtTimestamp st t).2
  = sql_signed_sum (λ tx, Transaction.timestamp tx ≤ t) (transactions (db st)).
Proof.
  intros Hmiss.
  unfold getBalanceAtTimestamp, redis_get_balance, redis_setEx_balance.
  destruct (connected (redis st)); [|reflexivity].
  destruct Hmiss as [Hc|Hnone]; [discriminate|].
  now rewrite Hnone.
Qed.

Lemma getBalanceAtTimestamp_hit (st : State) (t : Z) (v : Qc) :
  connected (redis st) = true →
  balance_keys (redis st) !! t = Some v →
  getBalanceAtTimestamp st t = (st, v).
Proof.
  intros Hc Hv. unfold getBalanceAtTimestamp, redis_get_balance.
  now rewrite Hc, Hv.
Qed.


Lemma exact_ledger_decide (log : list Transaction.t) :
  forallb (λ tx, Pos.eqb (Qden (Transaction.amount tx)) 1) log = true →
  (Zsum_abs (Transaction.amount <$> log) <? 2 ^ 53) = true →
  exact_ledger log.
Proof.
  intros Hw Hb. split; [|now apply Z.ltb_lt].
  apply Forall_forall. intros tx Hin.
  rewrite forallb_forall in Hw. apply Pos.eqb_eq, Hw.
  now apply list_elem_of_In.
Qed.



Lemma getBalanceAtTimestamp_db (st : State) (t : Z) :
  db (getBalanceAtTimestamp st t).1 = db st.
Proof.
  unfold getBalanceAtTimestamp, redis_get_balance, redis_setEx_balance.
  destruct (connected (redis st)); [|reflexivity].
  now destruct (balance_keys (redis st) !! t).
Qed.

Lemma getBalanceAtTimestamp_connected (st : State) (t : Z) :
  connected (redis (getBalanceAtTimestamp st t).1) = connected (redis st).
Proof.
  unfold getBalanceAtTimestamp, redis_get_balance, redis_setEx_balance.
  destruct (connected (redis st)) eqn:Hc; [|exact Hc].
  destruct (balance_keys (redis st) !! t); simpl; [exact Hc|reflexivity].
Qed.

(** ** Properties of the cache invalidation coordinator *)

Lemma invalidateBalanceCache_db (st : State) (t : Z) :
  db (invalidateBalanceCache st t) = db st.
Proof.
  unfold invalidateBalanceCache, redis_keys_balance, redis_del_balance,
    redis_del_invalid_count.
  destruct (connected (redis st)) eqn:Hc; [|reflexivity].
  case_bool_decide; simpl; rewrite ?Hc; reflexivity.
Qed.

(** The cache a connected client is left with. *)
Lemma invalidateBalanceCache_connected (st : State) (t : Z) :
  connected (redis st) = true →
  redis (invalidateBalanceCache st t) =
    mkRedis true
      (foldr delete (balance_keys (redis st))
         (filter (λ keyDate, t ≤ keyDate) (map_to_list (balance_keys (redis st))).*1))
      None (transaction_stats (redis st)).
Proof.
  intros Hc.
  unfold invalidateBalanceCache, redis_keys_balance, redis_del_balance,
    redis_del_invalid_count.
  rewrite Hc. case_bool_decide as Hlen; simpl; rewrite ?Hc; simpl.
  - reflexivity.
  - destruct (filter _ _) as [|k ks]; [reflexivity|]. simpl in Hlen. lia.
Qed.

Lemma invalidateBalanceCache_disconnected (st : State) (t : Z) :
  connected (redis st) = false → invalidateBalanceCache st t = st.
Proof.
  intros Hc. unfold invalidateBalanceCache, redis_keys_balance. now rewrite Hc.
Qed.

Lemma invalidateBalanceCache_lookup (st : State) (t k : Z) :
  connected (redis st) = true →
  balance_keys (redis (invalidateBalanceCache st t)) !! k =
    if decide (t ≤ k) then None else balance_keys (redis st) !! k.
Proof.
  intros Hc. rewrite invalidateBalanceCache_connected by assumption. simpl.
  case_decide as Hk.
  - destruct (balance_keys (redis st) !! k) as [v|] eqn:Hget.
    + apply lookup_foldr_delete, list_elem_of_filter. split; [assumption|].
      apply list_elem_of_fmap. exists (k, v). split; [reflexivity|].
      now apply elem_of_map_to_list.
    + destruct (foldr delete _ _ !! k) as [w|] eqn:Hw; [|reflexivity].
      apply lookup_foldr_delete_Some in Hw as [_ Hw]. congruence.
  - apply lookup_foldr_delete_not_elem_of.
    intros Hin%list_elem_of_filter. tauto.
Qed.

(** X31.  With a cache that carries out its commands,
    invalidateBalanceCache removes every cached balance keyed by an
    instant at or after [t], leaves every cached balance keyed by an
    earlier instant as it was, clears the cached invalid-transaction
    count, and leaves the cached global statistics and the database as
    they were. *)
Theorem invalidateBalanceCache_effect (st : State) (t : Z) :
  connected (redis st) = true →
  let st' := invalidateBalanceCache st t in
  (∀ k, t ≤ k → balance_keys (redis st') !! k = None)
  ∧ (∀ k, k < t → balance_keys (redis st') !! k = balance_keys (redis st) !! k)
  ∧ invalid_transaction_count (redis st') = None
  ∧ transaction_stats (redis st') = transaction_stats (redis st)
  ∧ db st' = db st.
Proof.
  intros Hc st'. subst st'. repeat split.
  - intros k Hk. rewrite invalidateBalanceCache_lookup by assumption.
    now rewrite decide_True.
  - intros k Hk. rewrite invalidateBalanceCache_lookup by assumption.
    rewrite decide_False by lia. reflexivity.
  - now rewrite invalidateBalanceCache_connected.
  - now rewrite invalidateBalanceCache_connected.
  - apply invalidateBalanceCache_db.
Qed.

Lemma invalidateBalanceCache_effect_witness :
  connected (redis warm_state) = true
  ∧ balance_keys (redis warm_state) !! day1 = Some (Q2Qc 100)
  ∧ balance_keys (redis warm_state) !! day2 = Some (Q2Qc 100)
  ∧ let st' := invalidateBalanceCache warm_state day2 in
    (∀ k, day2 ≤ k → balance_keys (redis st') !! k = None)
    ∧ (∀ k, k < day2 →
         balance_keys (redis st') !! k = balance_keys (redis warm_state) !! k)
    ∧ invalid_transaction_count (redis st') = None
    ∧ transaction_stats (redis st') = transaction_stats (redis warm_state)
    ∧ db st' = db warm_state.
Proof.
  split; [reflexivity|].
  split; [apply (bool_decide_unpack _); vm_compute; exact I|].
  split; [apply (bool_decide_unpack _); vm_compute; exact I|].
  apply (invalidateBalanceCache_effect warm_state day2). reflexivity.
Defined.

(** C5.  invalidateBalanceCache does not clear the cached global
    statistics.  On the deposit ledger with the statistics, the invalid
    count and two balances cached, the invalidation from instant 0
    removes the balances and the invalid count and leaves the
    statistics entry; and after an accepted deposit, whose handler runs
    the invalidation, getTransactionStats still answers the statistics
    of the ledger before the deposit: one transaction, where the table
    holds two. *)
Theorem C5_stats_entry_survives :
  let st' := invalidateBalanceCache warm_state 0 in
  let o := @createTransaction numeric_runtime (3 * DAY) warm_state
             (body_of day2 "IN" 50) in
  is_Some (transaction_stats (redis warm_state))
  ∧ balance_keys (redis st') = ∅
  ∧ invalid_transaction_count (redis st') = None
  ∧ transaction_stats (redis st') = transaction_stats (redis warm_state)
  ∧ status (response o) = 201
  ∧ length (transactions (db (state o))) = 2%nat
  ∧ (getTransactionStats (state o)).2 = (getTransactionStats warm_state).2
  ∧ ∃ stats, (getTransactionStats (state o)).2 = mkResponse 200 (JStats stats)
             ∧ totalTransactions stats = 1.
Proof.
  intros st' o.
  split; [vm_compute; eauto|].
  split; [apply (bool_decide_unpack _); vm_compute; exact I|].
  split; [reflexivity|]. split; [reflexivity|]. split; [reflexivity|].
  split; [reflexivity|]. split; [reflexivity|].
  eexists. split; reflexivity.
Qed.

(** ** Properties of the mutation guard *)

(** What passing the validation of createTransaction means. *)
Lemma create_validate_inr `{JsRuntime} (now : Z) (body : Body.t) (date : Z)
    (type : TransactionType) (numericAmount : Qc) :
  create_validate now body = inr (date, type, numericAmount) ↔
    truthy (Body.timestamp body) = true
    ∧ truthy (Body.type body) = true
    ∧ truthy (Body.amount body) = true
    ∧ as_TransactionType (Body.type body) = Some type
    ∧ new_Date (Body.timestamp body) = Some date
    ∧ date ≤ now
    ∧ parseFloat (Body.amount body) = Some numericAmount
    ∧ (0 < numericAmount)%Qc.
Proof.
  unfold create_validate, isFuture.
  destruct (truthy (Body.timestamp body)), (truthy (Body.type body)),
    (truthy (Body.amount body)); simpl;
    try (split; [discriminate | intros (?&?&?&_); discriminate]).
  destruct (as_TransactionType (Body.type body)) as [ty|];
    [|split; [discriminate | intros (_&_&_&?&_); discriminate]].
  destruct (new_Date (Body.timestamp body)) as [d|];
    [|split; [discriminate | intros (_&_&_&_&?&_); discriminate]].
  case_bool_decide as Hfut.
  { split; [discriminate | intros (_&_&_&_&[= ->]&?&_); lia]. }
  destruct (parseFloat (Body.amount body)) as [a|];
    [|split; [discriminate | intros (_&_&_&_&_&_&?&_); discriminate]].
  case_bool_decide as Hpos.
  - split; [discriminate|]. intros (_&_&_&_&_&_&[= ->]&Hlt).
    now apply Qclt_not_le in Hlt.
  - split.
    + intros [= -> -> ->]. repeat split; try reflexivity; [lia|].
      now apply Qcnot_le_lt.
    + now intros (_&_&_&[= ->]&[= ->]&_&[= ->]&_).
Qed.

Lemma create_gate_db (st : State) (date : Z) (type : TransactionType)
    (numericAmount : Qc) :
  db (create_gate st date type numericAmount).1 = db st.
Proof.
  unfold create_gate. destruct type; [reflexivity|].
  pose proof (getBalanceAtTimestamp_db st date) as Hdb.
  destruct (getBalanceAtTimestamp st date) as [st1 bal]. simpl in Hdb.
  now case_bool_decide.
Qed.

(** C4.  A create request that passes validation with type OUT and an
    amount above the balance getBalanceAtTimestamp gives at its timestamp
    is answered 400 with the Insufficient balance error carrying that
    balance and the requested amount, writes no row and queues no
    recalculation.  A request that passes validation with type IN is not
    balance-gated: the gate reads no balance and raises no error, the
    answer is never the Insufficient balance error whatever the balance,
    and an answer 201 carries the new row, which is then the last of
    the log. *)
Theorem C4_create_balance_gate `{JsRuntime} (now : Z) (st : State)
    (body : Body.t) (date : Z) (type : TransactionType) (numericAmount : Qc) :
  create_validate now body = inr (date, type, numericAmount) →
  let available := (getBalanceAtTimestamp st date).2 in
  let o := createTransaction now st body in
  (type = OUT → (available < numericAmount)%Qc →
     response o = mkResponse 400 (JInsufficient available numericAmount)
     ∧ db (state o) = db st
     ∧ queued o = None)
  ∧ (type = IN →
     create_gate st date type numericAmount = (st, None)
     ∧ (∀ a r, json (response o) ≠ JInsufficient a r)
     ∧ (status (response o) = 201 →
        let newTxn :=
          Transaction.mk (transaction_seq (db st)) date IN numericAmount in
        json (response o) = JTransaction newTxn
        ∧ transactions (db (state o)) = transactions (db st) ++ [newTxn])).
Proof.
  intros Hval available o. subst available o.
  unfold createTransaction. rewrite Hval. split.
  - intros -> Hlt. unfold create_gate.
    pose proof (getBalanceAtTimestamp_db st date) as Hdb.
    destruct (getBalanceAtTimestamp st date) as [st1 bal]. simpl in *.
    rewrite bool_decide_eq_true_2 by assumption. simpl. auto.
  - intros ->. simpl. rewrite invalidateBalanceCache_db. simpl.
    split; [reflexivity|]. split; [discriminate|]. auto.
Qed.

Lemma C4_create_balance_gate_witness :
  let _ := numeric_runtime in
  let st := state_of withdrawal_log in
  let out := body_of day2 "OUT" 150 in
  let deposit := body_of day1 "IN" 40 in
  create_validate (3 * DAY) out = inr (day2, OUT, Qc_of_Z 150)
  ∧ ((getBalanceAtTimestamp st day2).2 < Qc_of_Z 150)%Qc
  ∧ (response (createTransaction (3 * DAY) st out)
     = mkResponse 400
         (JInsufficient (getBalanceAtTimestamp st day2).2 (Qc_of_Z 150))
     ∧ db (state (createTransaction (3 * DAY) st out)) = db st
     ∧ queued (createTransaction (3 * DAY) st out) = None)
  ∧ create_validate (3 * DAY) deposit = inr (day1, IN, Qc_of_Z 40)
  ∧ (getBalanceAtTimestamp st day1).2 = Q2Qc 0
  ∧ status (response (createTransaction (3 * DAY) st deposit)) = 201
  ∧ transactions (db (state (createTransaction (3 * DAY) st deposit)))
    = withdrawal_log ++ [Transaction.mk 2 day1 IN (Qc_of_Z 40)].
Proof.
  intros rt st out deposit.
  split; [reflexivity|]. split; [reflexivity|]. split.
  - apply (@C4_create_balance_gate rt (3 * DAY) st out day2 OUT (Qc_of_Z 150));
      reflexivity.
  - split; [reflexivity|]. split; [apply Qc_is_canon; reflexivity|].
    split; [reflexivity|].
    apply (@C4_create_balance_gate rt (3 * DAY) st deposit day1 IN (Qc_of_Z 40));
      reflexivity.
Defined.

(** Whatever else is wrong with it, a request of type OUT whose amount
    exceeds the balance at its timestamp is answered 400 and writes no
    row. *)
Lemma create_out_over_balance_rejected `{JsRuntime} (now : Z) (st : State)
    (body : Body.t) (date : Z) (numericAmount : Qc) :
  as_TransactionType (Body.type body) = Some OUT →
  new_Date (Body.timestamp body) = Some date →
  parseFloat (Body.amount body) = Some numericAmount →
  ((getBalanceAtTimestamp st date).2 < numericAmount)%Qc →
  status (response (createTransaction now st body)) = 400
  ∧ db (state (createTransaction now st body)) = db st.
Proof.
  intros Hty Hdate Hamt Hlt. unfold createTransaction.
  destruct (create_validate now body) as [e|[[d ty] a]] eqn:Hval.
  - now split.
  - apply create_validate_inr in Hval as (_&_&_&Hty'&Hd'&_&Ha'&_).
    assert (ty = OUT) as -> by congruence.
    assert (d = date) as -> by congruence.
    assert (a = numericAmount) as -> by congruence.
    unfold create_gate.
    pose proof (getBalanceAtTimestamp_db st date) as Hdb.
    destruct (getBalanceAtTimestamp st date) as [st1 bal]. simpl in *.
    rewrite bool_decide_eq_true_2 by assumption. simpl. auto.
Qed.

(** ** Properties of updateTransaction *)

Lemma is_OUT_as_TransactionType (v : jsval) :
  is_OUT v = true ↔ as_TransactionType v = Some OUT.
Proof.
  destruct v as [| |b|q|s]; simpl; try (split; discriminate).
  destruct (String.eqb_spec s "IN") as [->|Hin]; [split; discriminate|].
  destruct (String.eqb s "OUT"); split; congruence.
Qed.


(** C6.  For an existing transaction, an
    update whose type is a value other than IN or OUT never gets the
    response Invalid transaction type and leaves the state as it was:
    updateTransaction has no check of the type, and when the timestamp
    and the amount pass theirs (here: are omitted) the invalid value
    reaches the write, which throws, and the response is 500 Failed to
    update transaction. *)
Theorem C6_update_invalid_type `{JsRuntime} (now : Z) (st : State) (id : string)
    (txnId : Z) (existing : Transaction.t) (body : Body.t) :
  parseInt_string id = Some txnId →
  findUnique (transactions (db st)) txnId = Some existing →
  truthy (Body.type body) = true →
  as_TransactionType (Body.type body) = None →
  let o := updateTransaction now st id body in
  state o = st
  ∧ json (response o) ≠ JError "Invalid transaction type"
  ∧ (truthy (Body.timestamp body) = false →
     truthy (Body.amount body) = false →
     Transaction.timestamp existing ≤ now →
     response o = mkResponse 500 (JError "Failed to update transaction")).
Proof.
  intros Hid Hfind Hty Hnone o. subst o.
  unfold updateTransaction. rewrite Hid, Hfind, Hty.
  assert (Hout : is_OUT (Body.type body) = false).
  { destruct (is_OUT (Body.type body)) eqn:E; [|reflexivity].
    apply is_OUT_as_TransactionType in E. congruence. }
  rewrite Hout, Hnone. cbn [andb].
  split; [|split].
  - destruct (truthy (Body.timestamp body));
      [destruct (new_Date (Body.timestamp body)) as [d|]; [|reflexivity]|];
      (destruct (isFuture now _); [reflexivity|]);
      (destruct (truthy (Body.amount body));
        [destruct (parseFloat (Body.amount body)) as [a|]; [|reflexivity];
         cbn [andb]; case_bool_decide; reflexivity
        |reflexivity]).
  - destruct (truthy (Body.timestamp body));
      [destruct (new_Date (Body.timestamp body)) as [d|]; [|discriminate]|];
      (destruct (isFuture now _); [discriminate|]);
      (destruct (truthy (Body.amount body));
        [destruct (parseFloat (Body.amount body)) as [a|]; [|discriminate];
         cbn [andb]; case_bool_decide; discriminate
        |discriminate]).
  - intros -> -> Hle. unfold isFuture.
    rewrite bool_decide_eq_false_2 by lia. reflexivity.
Qed.

Lemma C6_update_invalid_type_witness :
  let _ := numeric_runtime in
  let st := state_of deposit_log in
  let body := Body.mk JUndefined (JStr "FOO") JUndefined in
  state (updateTransaction (3 * DAY) st "1" body) = st
  ∧ response (updateTransaction (3 * DAY) st "1" body)
    = mkResponse 500 (JError "Failed to update transaction")
  ∧ response (createTransaction (3 * DAY) st
                (Body.mk (JNum (Qc_of_Z day2)) (JStr "FOO") (JNum (Qc_of_Z 5))))
    = mkResponse 400 (JError "Invalid transaction type").
Proof.
  intros rt st body.
  destruct (@C6_update_invalid_type rt (3 * DAY) st "1" 1
              (Transaction.mk 1 day1 IN (Qc_of_Z 100)) body
              eq_refl eq_refl eq_refl eq_refl) as (Hst & _ & H500).
  split; [exact Hst|]. split; [|reflexivity].
  apply H500; [reflexivity|reflexivity|]. vm_compute. discriminate.
Defined.




(** ** Properties of the stable sort *)

Section sort_by.
Context {A : Type} (key : A → Z).

Lemma insert_by_Permutation (x : A) (l : list A) :
  Permutation (insert_by key x l) (x :: l).
Proof.
  induction l as [|y l IH]; simpl; [reflexivity|].
  destruct (key x <=? key y); [reflexivity|].
  rewrite IH. apply perm_swap.
Qed.

Lemma sort_by_Permutation (l : list A) : Permutation (sort_by key l) l.
Proof.
  induction l as [|x l IH]; simpl; [reflexivity|].
  rewrite insert_by_Permutation. now constructor.
Qed.

Lemma sort_by_length (l : list A) : length (sort_by key l) = length l.
Proof. apply Permutation_length, sort_by_Permutation. Qed.

Lemma insert_by_sorted (x : A) (l : list A) :
  StronglySorted (key_le key) l → StronglySorted (key_le key) (insert_by key x l).
Proof.
  induction 1 as [|y l Hs IH Hall]; simpl.
  - repeat constructor.
  - destruct (Z.leb_spec (key x) (key y)) as [Hle|Hgt].
    + constructor; [now constructor|].
      constructor; [exact Hle|].
      eapply Forall_impl; [exact Hall|]. unfold key_le. simpl. intros; lia.
    + constructor; [exact IH|].
      rewrite (insert_by_Permutation x l). constructor; [|exact Hall].
      unfold key_le. lia.
Qed.

Lemma sort_by_sorted (l : list A) : StronglySorted (key_le key) (sort_by key l).
Proof.
  induction l as [|x l IH]; simpl; [constructor|].
  now apply insert_by_sorted.
Qed.

End sort_by.

(** ** Properties of the invalid-transaction detector *)

Lemma newBalance_of_prospective (running : Qc) (txn : Transaction.t) :
  newBalance_of running txn = prospective_balance running txn.
Proof. reflexivity. Qed.

Lemma Qc_max_0_clamp (p : Qc) :
  Qc_max 0%Qc p = if bool_decide (p < 0)%Qc then 0%Qc else p.
Proof.
  unfold Qc_max. do 2 case_bool_decide; try reflexivity.
  - exfalso. eapply Qclt_not_le; [eassumption|]. now apply Qclt_le_weak.
  - apply Qcle_antisym; now apply Qcnot_lt_le.
Qed.

(** The inner loop over one page adds the markers of the page. *)
Lemma fold_mark_txn (page : list Transaction.t) (running : Qc)
    (invalidTxns : list InvalidTransaction.t) :
  fold_left mark_txn page (running, invalidTxns)
  = (running_after running page, invalidTxns ++ detect running page).
Proof.
  revert running invalidTxns.
  induction page as [|txn page IH]; intros running invalidTxns; simpl.
  - now rewrite app_nil_r.
  - rewrite newBalance_of_prospective, Qc_max_0_clamp. unfold clamped, shortfall.
    case_bool_decide; rewrite IH; [|reflexivity].
    now rewrite <- app_assoc.
Qed.

Lemma detect_app (running : Qc) (l1 l2 : list Transaction.t) :
  detect running (l1 ++ l2)
  = detect running l1 ++ detect (running_after running l1) l2.
Proof.
  revert running. induction l1 as [|txn l1 IH]; intros running; simpl.
  - reflexivity.
  - unfold clamped. case_bool_decide; now rewrite IH.
Qed.

Lemma from_cursor_split (P R : list Transaction.t) (x : Transaction.t) :
  NoDup (Transaction.id <$> (P ++ x :: R)) →
  from_cursor (Transaction.id x) (P ++ x :: R) = x :: R.
Proof.
  induction P as [|y P IH]; simpl; intros Hnd.
  - now rewrite bool_decide_eq_true_2.
  - apply NoDup_cons in Hnd as [Hy Hnd].
    rewrite bool_decide_eq_false_2; [now apply IH|].
    intros Heq. apply Hy. rewrite Heq, fmap_app, fmap_cons.
    apply elem_of_app. right. now left.
Qed.

(** The page the query returns once the rows [P] were read. *)
Lemma findMany_page_rest (log P R : list Transaction.t) (n : nat) :
  sort_by Transaction.timestamp log = P ++ R →
  NoDup (Transaction.id <$> log) →
  Forall (λ tx, Transaction.id tx ≠ 0) log →
  findMany_page log n (Transaction.id <$> last P) = take n R.
Proof.
  intros Hsplit Hnd Hpos. unfold findMany_page. rewrite Hsplit.
  destruct (last P) as [x|] eqn:Hlast; simpl.
  - apply last_Some in Hlast as [P' ->].
    assert (Hx : Transaction.id x ≠ 0).
    { eapply (proj1 (Forall_forall _ _) Hpos).
      rewrite <- (sort_by_Permutation Transaction.timestamp log), Hsplit.
      rewrite !elem_of_app. left. right. now left. }
    rewrite bool_decide_eq_false_2 by assumption.
    rewrite <- app_assoc. simpl. rewrite from_cursor_split; [reflexivity|].
    rewrite <- app_assoc in Hsplit. simpl in Hsplit. rewrite <- Hsplit.
    now rewrite (sort_by_Permutation Transaction.timestamp log).
  - apply last_None in Hlast as ->. reflexivity.
Qed.

Lemma mark_loop_scan (batchSize insertSize : nat) (log : list Transaction.t) :
  (0 < batchSize)%nat →
  NoDup (Transaction.id <$> log) →
  Forall (λ tx, Transaction.id tx ≠ 0) log →
  ∀ (fuel : nat) (P R : list Transaction.t) (running : Qc)
    (invalidTxns table : list InvalidTransaction.t),
    sort_by Transaction.timestamp log = P ++ R →
    (length R < fuel)%nat →
    ∃ invalidTxns' table',
      mark_loop batchSize insertSize fuel log (Transaction.id <$> last P)
                running invalidTxns table
      = Some (invalidTxns', table')
      ∧ table' ++ invalidTxns' = table ++ invalidTxns ++ detect running R.
Proof.
  intros Hb Hnd Hpos fuel.
  induction fuel as [|fuel IH]; intros P R running invalidTxns table Hsplit Hfuel;
    [lia|].
  cbn [mark_loop]. rewrite (findMany_page_rest log P R) by assumption.
  destruct R as [|r R].
  - rewrite take_nil. simpl. eexists _, _. split; [reflexivity|].
    now rewrite app_nil_r.
  - destruct (last (take batchSize (r :: R))) as [lastTxn|] eqn:Hlast.
    2:{ apply last_None in Hlast. destruct batchSize; [lia|discriminate]. }
    rewrite fold_mark_txn.
    set (page := take batchSize (r :: R)) in *.
    set (R' := drop batchSize (r :: R)).
    assert (HR : r :: R = page ++ R') by (symmetry; apply take_drop).
    assert (Hsplit' : sort_by Transaction.timestamp log = (P ++ page) ++ R').
    { now rewrite <- app_assoc, <- HR. }
    assert (Hlast' : last (P ++ page) = Some lastTxn).
    { rewrite last_app, Hlast. reflexivity. }
    assert (Hlen : (length R' < fuel)%nat).
    { subst R'. rewrite length_drop. simpl in *. lia. }
    change (Some (Transaction.id lastTxn))
      with (Transaction.id <$> Some lastTxn).
    rewrite <- Hlast'.
    case_bool_decide.
    + destruct (IH (P ++ page) R' (running_after running page)
                  (drop insertSize (invalidTxns ++ detect running page))
                  (table ++ take insertSize (invalidTxns ++ detect running page))
                  Hsplit' Hlen) as (i' & t' & Heq & Hres).
      exists i', t'. split; [exact Heq|]. rewrite Hres, HR, detect_app.
      rewrite <- (app_assoc table).
      rewrite (app_assoc (take insertSize _)), take_drop.
      now rewrite <- app_assoc.
    + destruct (IH (P ++ page) R' (running_after running page)
                  (invalidTxns ++ detect running page) table Hsplit' Hlen)
        as (i' & t' & Heq & Hres).
      exists i', t'. split; [exact Heq|]. rewrite Hres, HR, detect_app.
      now rewrite <- !app_assoc.
Qed.

Lemma detect_ids (running : Qc) (scan : list Transaction.t)
    (m : InvalidTransaction.t) :
  m ∈ detect running scan →
  InvalidTransaction.transactionId m ∈ Transaction.id <$> scan.
Proof.
  revert running. induction scan as [|txn scan IH]; intros running; simpl.
  - intros Hin. now apply elem_of_nil in Hin.
  - case_bool_decide.
    + intros [->|Hin]%elem_of_cons; [now left|].
      right. eapply IH, Hin.
    + intros Hin. right. eapply IH, Hin.
Qed.


(** The detector ends, and leaves the markers of one scan of the log in
    chronological order. *)
Lemma markInvalidTransactions_scan (d : Db) :
  NoDup (Transaction.id <$> transactions d) →
  Forall (λ tx, Transaction.id tx ≠ 0) (transactions d) →
  markInvalidTransactions d
  = Some (mkDb (transactions d) (transaction_seq d)
               (detect 0%Qc (sort_by Transaction.timestamp (transactions d)))
               (dailySummaries d)).
Proof.
  intros Hnd Hpos. unfold markInvalidTransactions.
  assert (Hb : (0 < mark_batchSize)%nat) by (vm_compute; lia).
  destruct (mark_loop_scan mark_batchSize mark_insertSize (transactions d)
              Hb Hnd Hpos (S (length (transactions d))) []
              (sort_by Transaction.timestamp (transactions d)) 0%Qc [] []
              eq_refl) as (i' & t' & Heq & Hres).
  { rewrite sort_by_length. lia. }
  change (Transaction.id <$> last []) with (@None Z) in Heq.
  rewrite Heq. cbn [app] in Hres. do 2 f_equal.
  case_bool_decide as Hlen; [exact Hres|].
  destruct i'; [|simpl in Hlen; lia]. now rewrite app_nil_r in Hres.
Qed.

(** ** Chronological scans *)

Lemma key_inj_NoDup {A} (key : A → Z) (l : list A) (x y : A) :
  NoDup (key <$> l) → x ∈ l → y ∈ l → key x = key y → x = y.
Proof.
  induction l as [|z l IH]; intros Hnd Hx Hy Hk.
  - now apply elem_of_nil in Hx.
  - rewrite fmap_cons in Hnd. apply NoDup_cons in Hnd as [Hz Hnd].
    apply elem_of_cons in Hx as [->|Hx]; apply elem_of_cons in Hy as [->|Hy].
    + reflexivity.
    + exfalso. apply Hz. rewrite Hk. apply list_elem_of_fmap. now exists y.
    + exfalso. apply Hz. rewrite <- Hk. apply list_elem_of_fmap. now exists x.
    + now apply IH.
Qed.

(** With keys that are pairwise distinct, a list has one ascending
    order. *)
Lemma sorted_unique {A} (key : A → Z) (l1 l2 : list A) :
  NoDup (key <$> l1) →
  Permutation l1 l2 →
  StronglySorted (key_le key) l1 →
  StronglySorted (key_le key) l2 →
  l1 = l2.
Proof.
  revert l2. induction l1 as [|x l1 IH]; intros l2 Hnd Hp Hs1 Hs2.
  - now apply Permutation_nil in Hp.
  - destruct l2 as [|y l2].
    { symmetry in Hp. now apply Permutation_nil_cons in Hp. }
    apply StronglySorted_inv in Hs1 as [Hs1 Hall1].
    apply StronglySorted_inv in Hs2 as [Hs2 Hall2].
    assert (Hxy : x = y).
    { assert (Hy : y ∈ x :: l1) by (rewrite Hp; now left).
      assert (Hx : x ∈ y :: l2) by (rewrite <- Hp; now left).
      apply elem_of_cons in Hy as [->|Hy]; [reflexivity|].
      apply elem_of_cons in Hx as [->|Hx]; [reflexivity|].
      apply (key_inj_NoDup key (x :: l1)); [exact Hnd|now left|now right|].
      pose proof (proj1 (Forall_forall _ _) Hall1 y Hy) as H1.
      pose proof (proj1 (Forall_forall _ _) Hall2 x Hx) as H2.
      unfold key_le in *. lia. }
    subst y. f_equal. apply IH; [|eapply Permutation_cons_inv; exact Hp|auto..].
    rewrite fmap_cons in Hnd. now apply NoDup_cons in Hnd as [_ Hnd].
Qed.

(** ** Scans of an exact ledger *)

Lemma Zsum_abs_Permutation (l1 l2 : list Qc) :
  Permutation l1 l2 → Zsum_abs l1 = Zsum_abs l2.
Proof.
  induction 1 as [|x l l' _ IH|x y l|l l' l'' _ IH1 _ IH2];
    rewrite ?Zsum_abs_cons; lia.
Qed.

Lemma exact_ledger_Permutation (l1 l2 : list Transaction.t) :
  Permutation l1 l2 → exact_ledger l1 → exact_ledger l2.
Proof.
  intros Hp [Hw Hb]. split.
  - now rewrite <- Hp.
  - now rewrite <- (Zsum_abs_Permutation _ _ (fmap_Permutation _ _ _ Hp)).
Qed.

(** Along a scan of whole amounts the running balance stays a whole
    number within the magnitudes scanned, and the prospective balance
    rounds nothing. *)
Lemma prospective_balance_whole (z : Z) (txn : Transaction.t) :
  whole (Transaction.amount txn) →
  Z.abs z + Z.abs (Qnum (Transaction.amount txn)) < 2 ^ 53 →
  prospective_balance (Qc_of_Z z) txn = prospective_exact (Qc_of_Z z) txn
  ∧ ∃ z', prospective_balance (Qc_of_Z z) txn = Qc_of_Z z'
          ∧ Z.abs z' ≤ Z.abs z + Z.abs (Qnum (Transaction.amount txn)).
Proof.
  intros Hw Hb. unfold prospective_balance, prospective_exact.
  rewrite (whole_Qc_of_Z _ Hw).
  change (Qnum (Qc_of_Z (Qnum (Transaction.amount txn))))
    with (Qnum (Transaction.amount txn)) in *.
  destruct (Transaction.type txn).
  - rewrite fadd_Qc_of_Z by lia. split; [apply Z2Qc_inj_add|].
    eexists. split; [reflexivity|lia].
  - rewrite fsub_Qc_of_Z by lia. split; [apply Z2Qc_inj_sub|].
    eexists. split; [reflexivity|lia].
Qed.



(** On an exact ledger the markers are those of the detector that rounds
    nothing. *)
Lemma detect_marked_exact (scan : list Transaction.t) (z : Z) :
  Forall (λ tx, whole (Transaction.amount tx)) scan →
  Z.abs z + Zsum_abs (Transaction.amount <$> scan) < 2 ^ 53 →
  InvalidTransaction.transactionId <$> detect (Qc_of_Z z) scan
  = marked_exact (Qc_of_Z z) scan.
Proof.
  revert z. induction scan as [|txn scan IH]; intros z Hw Hb; [reflexivity|].
  apply Forall_cons in Hw as [Htx Hw].
  rewrite fmap_cons, Zsum_abs_cons in Hb.
  pose proof (Zsum_abs_nonneg (Transaction.amount <$> scan)) as Hn.
  destruct (prospective_balance_whole z txn Htx) as (Hp & z' & Hz' & Hb');
    [lia|].
  cbn [detect marked_exact]. rewrite <- Hp.
  case_bool_decide.
  - rewrite fmap_cons. cbn [InvalidTransaction.transactionId]. f_equal.
    rewrite <- Z2Qc_inj_0. apply IH; [exact Hw|lia].
  - rewrite Hz'. apply IH; [exact Hw|lia].
Qed.




(** ** Properties of the bulk loader *)

(** The bulk loader validates a record as createTransaction validates
    its body. *)
Lemma bulk_validate_create `{JsRuntime} (now : Z) (txn : Body.t)
    (v : Z * TransactionType * Qc) :
  bulk_validate now txn = inr v ↔ create_validate now txn = inr v.
Proof.
  unfold bulk_validate, create_validate.
  destruct (_ || _); [split; discriminate|].
  destruct (as_TransactionType _); [|split; discriminate].
  destruct (new_Date _); [|split; discriminate].
  destruct (isFuture _ _); [split; discriminate|].
  destruct (parseFloat _); [|split; discriminate].
  case_bool_decide; [split; discriminate|reflexivity].
Qed.

(** A batch with an element that is null, or that fails the validation,
    does not pass the loop: the answer is 500 or 400. *)
Lemma bulk_validate_all_inl `{JsRuntime} (now : Z) (txns : list (option Body.t))
    (acc : list (Z * TransactionType * Qc)) (elem : option Body.t) :
  elem ∈ txns →
  (∀ txn v, elem = Some txn → bulk_validate now txn ≠ inr v) →
  ∃ failed, bulk_validate_all now txns acc = inl failed
            ∧ (status failed = 400 ∨ status failed = 500)
            ∧ (Forall is_Some txns → status failed = 400).
Proof.
  intros Hin Hbad. revert acc.
  induction txns as [|t txns IH]; intros acc; [now apply elem_of_nil in Hin|].
  destruct t as [t|]; cbn [bulk_validate_all].
  - destruct (bulk_validate now t) as [e|v] eqn:Hv.
    { eexists. split; [reflexivity|]. simpl. auto. }
    apply elem_of_cons in Hin as [->|Hin]; [now destruct (Hbad t v)|].
    destruct (IH Hin (acc ++ [v])) as (failed & Hf & Hs & Hobj).
    exists failed. split; [exact Hf|]. split; [exact Hs|].
    intros Hall. apply Hobj. now apply Forall_cons in Hall as [_ Hall].
  - eexists. split; [reflexivity|]. split; [simpl; auto|].
    intros Hall. apply Forall_cons in Hall as [[x Hx] _]. discriminate.
Qed.

Lemma createMany_fresh (rows : list (Z * TransactionType * Qc)) (d : Db) (n : Z) :
  ids_below_seq d →
  fold_left createMany_row rows (d, n)
  = (mkDb (transactions d ++ rows_from (transaction_seq d) rows)
          (transaction_seq d + Z.of_nat (length rows))
          (invalidTransactions d) (dailySummaries d),
     n + Z.of_nat (length rows)).
Proof.
  revert d n. induction rows as [|[[date ty] amount] rows IH]; intros d n Hfresh.
  - simpl. rewrite app_nil_r, !Z.add_0_r. now destruct d.
  - cbn [fold_left createMany_row].
    assert (Hnew : existsb (λ old, Transaction.id old
                      =? Transaction.id
                           (Transaction.mk (transaction_seq d) date ty amount))
                     (transactions d) = false).
    { apply not_true_is_false. intros (old & Hin & Heq)%existsb_exists.
      apply Z.eqb_eq in Heq. simpl in Heq.
      unfold ids_below_seq in Hfresh. rewrite Forall_forall in Hfresh.
      apply list_elem_of_In in Hin. specialize (Hfresh _ Hin). lia. }
    rewrite Hnew, IH.
    + cbn [transactions transaction_seq invalidTransactions dailySummaries
           rows_from length].
      rewrite <- app_assoc. cbn [app]. f_equal; [f_equal|]; lia.
    + unfold ids_below_seq. cbn [transactions transaction_seq].
      apply Forall_app. split.
      * eapply Forall_impl; [exact Hfresh|]. simpl. intros; lia.
      * repeat constructor. simpl. lia.
Qed.

Lemma rows_from_app (seq : Z) (l1 l2 : list (Z * TransactionType * Qc)) :
  rows_from seq (l1 ++ l2)
  = rows_from seq l1 ++ rows_from (seq + Z.of_nat (length l1)) l2.
Proof.
  revert seq. induction l1 as [|[[date ty] amount] l1 IH]; intros seq.
  - simpl. now rewrite Z.add_0_r.
  - cbn [app rows_from length]. rewrite IH. do 3 f_equal. lia.
Qed.

Lemma createMany_ids_below_seq (rows : list (Z * TransactionType * Qc)) (d : Db) :
  ids_below_seq d → ids_below_seq (createMany d rows).1.
Proof.
  intros Hfresh. unfold createMany. rewrite createMany_fresh by assumption.
  unfold ids_below_seq. cbn [fst transactions transaction_seq].
  apply Forall_app. split.
  - eapply Forall_impl; [exact Hfresh|]. simpl. intros; lia.
  - clear Hfresh. generalize (transaction_seq d) as s.
    induction rows as [|[[date ty] amount] rows IH]; intros s; simpl;
      constructor.
    + simpl. lia.
    + eapply Forall_impl; [apply (IH (s + 1))|]. simpl. intros.
      rewrite Nat2Z.inj_succ. lia.
Qed.

(** The batches of the insert loop add up to one insert of all records. *)
Lemma bulk_insert_all (batchSize : nat)
    (validated : list (Z * TransactionType * Qc)) :
  (0 < batchSize)%nat →
  ∀ (fuel i : nat) (d : Db) (created : Z),
    ids_below_seq d →
    (length validated ≤ i + fuel)%nat →
    bulk_insert batchSize fuel i validated d created
    = (mkDb (transactions d ++ rows_from (transaction_seq d) (drop i validated))
            (transaction_seq d + Z.of_nat (length (drop i validated)))
            (invalidTransactions d) (dailySummaries d),
       created + Z.of_nat (length (drop i validated))).
Proof.
  intros Hb fuel. induction fuel as [|fuel IH]; intros i d created Hfresh Hlen.
  - simpl. rewrite drop_ge by lia. simpl.
    rewrite app_nil_r, !Z.add_0_r. now destruct d.
  - cbn [bulk_insert]. case_bool_decide as Hi.
    + unfold createMany. rewrite createMany_fresh by assumption.
      set (batch := take batchSize (drop i validated)).
      assert (Hsplit : drop i validated = batch ++ drop (i + batchSize) validated).
      { subst batch. now rewrite <- drop_drop, take_drop. }
      rewrite IH.
      * cbn [transactions transaction_seq invalidTransactions dailySummaries].
        rewrite (f_equal (rows_from (transaction_seq d)) Hsplit).
        rewrite (f_equal length Hsplit).
        rewrite rows_from_app, length_app, <- app_assoc.
        f_equal; [f_equal|]; lia.
      * pose proof (createMany_ids_below_seq batch d Hfresh) as Hfresh'.
        unfold createMany in Hfresh'.
        now rewrite createMany_fresh in Hfresh' by assumption.
      * lia.
    + rewrite drop_ge by lia. simpl.
      rewrite app_nil_r, !Z.add_0_r. now destruct d.
Qed.

(** X32.  The first half of the bulk contract: a batch with an element
    that is null or undefined, or that fails the validation of single
    create, is answered 400 or 500, leaves the state as it was and
    queues nothing; the answer is 400 when every element is an
    object. *)
Theorem createBulkTransactions_invalid_batch `{JsRuntime} (now : Z) (st : State)
    (txns : list (option Body.t)) (elem : option Body.t) :
  elem ∈ txns →
  (∀ txn v, elem = Some txn → create_validate now txn ≠ inr v) →
  let o := createBulkTransactions now st (Some txns) in
  state o = st
  ∧ queued o = None
  ∧ (status (response o) = 400 ∨ status (response o) = 500)
  ∧ (Forall is_Some txns → status (response o) = 400).
Proof.
  intros Hin Hbad o. subst o. unfold createBulkTransactions.
  destruct txns as [|t txns]; [now apply elem_of_nil in Hin|].
  destruct (bulk_validate_all_inl now (t :: txns) [] elem Hin)
    as (failed & Hf & Hs & Hobj).
  { intros txn v Helem Hv. apply (Hbad txn v Helem).
    now apply bulk_validate_create. }
  rewrite Hf. auto.
Qed.

Lemma createBulkTransactions_invalid_batch_witness :
  let _ := numeric_runtime in
  let st := state_of deposit_log in
  let valid := [body_of day2 "OUT" 150; body_of day1 "IN" 7; body_of day1 "IN" 5] in
  let invalid := Some <$> valid ++ [body_of day1 "IN" (-5)] in
  state (createBulkTransactions (3 * DAY) st (Some invalid)) = st
  ∧ status (response (createBulkTransactions (3 * DAY) st (Some invalid))) = 400
  ∧ response (createBulkTransactions (3 * DAY) st (Some [None]))
    = mkResponse 500 (JError "Failed to create bulk transactions").
Proof.
  intros rt st valid invalid.
  destruct (@createBulkTransactions_invalid_batch rt (3 * DAY) st invalid
              (Some (body_of day1 "IN" (-5))))
    as (Hst & _ & _ & H400).
  - subst invalid valid. set_solver.
  - intros txn v [= <-]. discriminate.
  - split; [exact Hst|]. split; [|reflexivity].
    apply H400. subst invalid valid. repeat constructor; eauto.
Defined.

(** C8.  The bulk loader does not skip exact duplicates.  A batch of two
    records equal in every field is inserted whole: the answer is 201
    with the count 2, and both rows are in the table.  The option
    skipDuplicates of createMany skips a row that collides on a unique
    key, and the id the table generates is its only unique key. *)
Theorem C8_exact_duplicates_inserted :
  let _ := numeric_runtime in
  let o := createBulkTransactions (3 * DAY) (state_of [])
             (Some [Some (body_of day1 "IN" 5); Some (body_of day1 "IN" 5)]) in
  response o
    = mkResponse 201 (JBulk "Bulk transactions created successfully" 2)
  ∧ transactions (db (state o))
    = [ Transaction.mk 1 day1 IN (Qc_of_Z 5);
        Transaction.mk 2 day1 IN (Qc_of_Z 5) ].
Proof. intros rt o. split; reflexivity. Qed.

(** ** Properties of the daily summary recalculator *)

Lemma sql_signed_sum_ext (P Q : Transaction.t → Prop)
    `{∀ tx, Decision (P tx)} `{∀ tx, Decision (Q tx)} (log : list Transaction.t) :
  (∀ tx, P tx ↔ Q tx) → sql_signed_sum P log = sql_signed_sum Q log.
Proof.
  intros Hiff. unfold sql_signed_sum.
  assert (Hf : filter P log = filter Q log); [|now rewrite Hf].
  induction log as [|tx log IH]; [reflexivity|].
  rewrite !filter_cons, IH.
  destruct (decide (P tx)) as [HP|HP], (decide (Q tx)) as [HQ|HQ];
    try reflexivity; exfalso; apply Hiff in HP || apply Hiff in HQ; contradiction.
Qed.

Lemma sql_signed_sum_before (log : list Transaction.t) (t : Z) :
  exact_ledger log →
  sql_signed_sum (λ tx, Transaction.timestamp tx < t) log = B log (t - 1).
Proof.
  intros Hex. rewrite <- sql_signed_sum_upto by exact Hex.
  apply sql_signed_sum_ext. intros tx. lia.
Qed.

Lemma day_amount (ty : TransactionType) (k : Z) (log : list Transaction.t) :
  sum_Qc ((λ tx, if decide (Transaction.type tx = ty)
                 then Transaction.amount tx else 0%Qc)
            <$> filter (in_day k) log)
  = amount_of_type ty k log.
Proof.
  unfold amount_of_type.
  induction log as [|tx log IH]; [reflexivity|].
  rewrite !filter_cons.
  destruct (decide (in_day k tx)) as [Hd|Hd].
  - rewrite fmap_cons, sum_Qc_cons, IH.
    destruct (decide (Transaction.type tx = ty)) as [Ht|Ht].
    + rewrite decide_True by tauto. now rewrite fmap_cons, sum_Qc_cons.
    + rewrite decide_False by tauto. apply Qcplus_0_l.
  - rewrite decide_False by tauto. exact IH.
Qed.

Lemma parseFloat_toFixed2_0 : parseFloat_toFixed2 0%Qc = 0%Qc.
Proof. now apply Qc_is_canon. Qed.

(** The sums of the day's amounts round nothing on an exact ledger. *)
Lemma day_amount_exact (ty : TransactionType) (l : list Transaction.t) :
  exact_ledger l →
  default 0%Qc
    (float8_sum ((λ tx, if decide (Transaction.type tx = ty)
                        then Transaction.amount tx else 0%Qc) <$> l))
  = sum_Qc ((λ tx, if decide (Transaction.type tx = ty)
                   then Transaction.amount tx else 0%Qc) <$> l).
Proof.
  intros Hex.
  apply (float8_sum_column
           (λ tx, if decide (Transaction.type tx = ty)
                  then Transaction.amount tx else 0%Qc)); [|exact Hex].
  intros tx Hw. cbv beta.
  destruct (decide (Transaction.type tx = ty)); [split; [exact Hw|reflexivity]|].
  split; [reflexivity|]. transitivity 0; [reflexivity|lia].
Qed.

Lemma filter_in_day (log : list Transaction.t) (k : Z) :
  filter (λ tx, k * DAY ≤ Transaction.timestamp tx
                ∧ Transaction.timestamp tx < k * DAY + DAY) log
  = filter (in_day k) log.
Proof.
  induction log as [|tx log IH]; [reflexivity|].
  rewrite !filter_cons, IH. unfold in_day.
  destruct (decide (k * DAY ≤ Transaction.timestamp tx
                    ∧ Transaction.timestamp tx < k * DAY + DAY)) as [Hd|Hd].
  - rewrite decide_True by lia. reflexivity.
  - rewrite decide_False by lia. reflexivity.
Qed.

Section utc.
Context `{TimeZone} (Hutc : is_utc).

Lemma startOfDay_utc (t : Z) : startOfDay t = t / DAY * DAY.
Proof.
  unfold startOfDay, UTC, LocalTime. now rewrite !Hutc, Z.add_0_r, Z.sub_0_r.
Qed.

Lemma endOfDay_utc (t : Z) : endOfDay t = t / DAY * DAY + (DAY - 1).
Proof.
  unfold endOfDay, UTC, LocalTime. rewrite !Hutc, Z.add_0_r. lia.
Qed.

Lemma nextDay_utc (d : Z) : nextDay d = d + DAY.
Proof. unfold nextDay, UTC, LocalTime. rewrite !Hutc. lia. Qed.

(** On an exact ledger, in UTC, the row the code computes for the date
    [k * DAY] is the summary of day [k]. *)
Lemma daily_summary_of_day (log : list Transaction.t) (k : Z) :
  exact_ledger log →
  daily_summary log (k * DAY) = summary_of_day log k.
Proof.
  intros Hex.
  unfold daily_summary, summary_of_day, percent_change, end_of_day.
  rewrite nextDay_utc, !sql_signed_sum_before by exact Hex.
  replace (k * DAY + DAY - 1) with ((k + 1) * DAY - 1) by lia.
  replace ((k - 1 + 1) * DAY - 1) with (k * DAY - 1) by lia.
  rewrite filter_in_day.
  pose proof (exact_ledger_filter (in_day k) log Hex) as Hday.
  f_equal.
  - case_bool_decide; [apply parseFloat_toFixed2_0|reflexivity].
  - rewrite <- (day_amount IN), <- (day_amount_exact IN) by exact Hday.
    do 2 f_equal. apply list_fmap_ext.
    intros _ tx _. now destruct (Transaction.type tx).
  - rewrite <- (day_amount OUT), <- (day_amount_exact OUT) by exact Hday.
    do 2 f_equal. apply list_fmap_ext.
    intros _ tx _. now destruct (Transaction.type tx).
Qed.

Lemma affectedDates_loop_days (n fuel : nat) (k : Z) :
  (n < fuel)%nat →
  affectedDates_loop fuel (k * DAY) ((k + Z.of_nat n - 1) * DAY + DAY - 1)
  = Some ((λ i, i * DAY) <$> seqZ k (Z.of_nat n)).
Proof.
  revert fuel k. induction n as [|n IH]; intros fuel k Hfuel;
    (destruct fuel as [|fuel]; [lia|]); cbn [affectedDates_loop].
  - rewrite (proj2 (Z.leb_gt _ _)) by (unfold DAY; lia). reflexivity.
  - rewrite (proj2 (Z.leb_le _ _)) by (unfold DAY; lia).
    rewrite seqZ_cons by lia. rewrite fmap_cons, nextDay_utc.
    replace (k * DAY + DAY) with (Z.succ k * DAY) by lia.
    replace (Z.pred (Z.of_nat (S n))) with (Z.of_nat n) by lia.
    replace ((k + Z.of_nat (S n) - 1) * DAY + DAY - 1)
      with ((Z.succ k + Z.of_nat n - 1) * DAY + DAY - 1) by lia.
    rewrite IH by lia. reflexivity.
Qed.

(** In UTC the affected dates are the starts of the days from the day
    of the instant to the current day. *)
Lemma affectedDates_days (now fromTimestamp : Z) :
  affectedDates now fromTimestamp
  = Some ((λ i, i * DAY)
            <$> seqZ (fromTimestamp / DAY) (now / DAY - fromTimestamp / DAY + 1)).
Proof.
  unfold affectedDates. rewrite startOfDay_utc, endOfDay_utc.
  set (a := fromTimestamp / DAY). set (b := now / DAY).
  assert (Hq : (b * DAY + (DAY - 1) - a * DAY) / DAY = b - a).
  { replace (b * DAY + (DAY - 1) - a * DAY) with ((b - a) * DAY + (DAY - 1)) by lia.
    rewrite Z.div_add_l by (unfold DAY; lia).
    rewrite Z.div_small by (unfold DAY; lia). lia. }
  rewrite Hq.
  destruct (Z.le_gt_cases (b - a + 1) 0) as [Hle|Hgt].
  - rewrite seqZ_nil by assumption. cbn [affectedDates_loop].
    rewrite (proj2 (Z.leb_gt _ _)) by (unfold DAY; nia). reflexivity.
  - pose proof (affectedDates_loop_days (Z.to_nat (b - a + 1))
                  (S (Z.to_nat (2 * (b - a) + 2))) a ltac:(lia)) as Hloop.
    rewrite Z2Nat.id in Hloop by lia.
    replace ((a + (b - a + 1) - 1) * DAY + DAY - 1)
      with (b * DAY + (DAY - 1)) in Hloop by lia.
    exact Hloop.
Qed.

End utc.

Lemma date_column_day (k : Z) : date_column (k * DAY) = k * DAY.
Proof. unfold date_column. rewrite Z.div_mul by (unfold DAY; lia). reflexivity. Qed.

(** The row the recalculation leaves under a date of the table: the row
    of the last of the dates that the column reads as that date. *)
Lemma fold_upsert_lookup `{TimeZone} (log : list Transaction.t) (dates : list Z)
    (table : gmap Z DailySummary.t) (c : Z) :
  fold_left (upsert_summary log) dates table !! c
  = match last (filter (λ date, date_column date = c) dates) with
    | Some date => Some (daily_summary log date)
    | None => table !! c
    end.
Proof.
  revert table. induction dates as [|x dates IH]; intros table;
    cbn [fold_left]; [reflexivity|].
  rewrite IH, filter_cons. unfold upsert_summary.
  destruct (decide (date_column x = c)) as [Hx|Hx].
  - rewrite last_cons.
    destruct (last (filter _ dates)); [reflexivity|].
    now rewrite Hx, lookup_insert_eq.
  - destruct (last (filter _ dates)); [reflexivity|].
    now rewrite lookup_insert_ne.
Qed.

Lemma filter_days (k a n : Z) :
  filter (λ date, date_column date = k * DAY) ((λ i, i * DAY) <$> seqZ a n)
  = if decide (a ≤ k < a + n) then [k * DAY] else [].
Proof.
  destruct (Z.le_gt_cases n 0) as [Hn|Hn].
  { rewrite seqZ_nil by assumption. rewrite decide_False by lia. reflexivity. }
  rewrite <- (Z2Nat.id n) by lia. generalize (Z.to_nat n) as m. clear n Hn.
  intros m. revert a. induction m as [|m IH]; intros a.
  - rewrite decide_False by lia. reflexivity.
  - rewrite seqZ_cons by lia. rewrite fmap_cons, filter_cons, date_column_day.
    replace (Z.pred (Z.of_nat (S m))) with (Z.of_nat m) by lia.
    rewrite IH.
    destruct (decide (a * DAY = k * DAY)) as [Heq|Hne].
    + assert (a = k) as -> by (unfold DAY in Heq; lia).
      rewrite decide_False by lia. rewrite decide_True by lia. reflexivity.
    + assert (a ≠ k) by congruence.
      destruct (decide (Z.succ a ≤ k < Z.succ a + Z.of_nat m)).
      * rewrite decide_True by lia. reflexivity.
      * rewrite decide_False by lia. reflexivity.
Qed.




Lemma recalculateFromTimestamp_result `{TimeZone} (now : Z) (d : Db) (t : Z)
    (dates : list Z) :
  NoDup (Transaction.id <$> transactions d) →
  Forall (λ tx, Transaction.id tx ≠ 0) (transactions d) →
  affectedDates now t = Some dates →
  recalculateFromTimestamp now d t
  = Some (mkDb (transactions d) (transaction_seq d)
               (detect 0%Qc (sort_by Transaction.timestamp (transactions d)))
               (fold_left (upsert_summary (transactions d)) dates
                          (dailySummaries d))).
Proof.
  intros Hnd Hpos Hdates. unfold recalculateFromTimestamp.
  now rewrite Hdates, markInvalidTransactions_scan.
Qed.




(** ** Properties of the batch balances *)

Lemma fold_insert_keys (results : list (Z * Qc)) (balanceMap : gmap Z Qc) (k : Z) :
  is_Some (fold_left (λ m row, <[row.1 := row.2]> m) results balanceMap !! k) →
  k ∈ results.*1 ∨ is_Some (balanceMap !! k).
Proof.
  revert balanceMap. induction results as [|row results IH]; intros balanceMap;
    cbn [fold_left]; [now right|].
  intros [Hin|Hsome]%IH.
  - left. rewrite fmap_cons. now right.
  - destruct (decide (row.1 = k)) as [<-|Hne].
    + left. rewrite fmap_cons. now left.
    + right. now rewrite lookup_insert_ne in Hsome.
Qed.

(** Whatever value the database gives to the select item, the map that
    getBalancesAtTimestamps returns has keys only at requested instants
    that are the timestamp of a transaction of the log. *)
Lemma getBalancesAtTimestamps_keys
    (running_balance : list (Z * list Transaction.t) → Z → Qc)
    (log : list Transaction.t) (timestamps : list Z) (t : Z) :
  is_Some (getBalancesAtTimestamps running_balance log timestamps !! t) →
  t ∈ timestamps ∧ t ∈ Transaction.timestamp <$> log.
Proof.
  unfold getBalancesAtTimestamps. intros [Hin|Hsome]%fold_insert_keys.
  - rewrite <- list_fmap_compose in Hin. unfold groups in Hin.
    rewrite <- list_fmap_compose in Hin.
    apply list_elem_of_fmap in Hin as (b & -> & Hb). simpl.
    apply (proj1 (elem_of_remove_dups _ _)) in Hb. unfold bucket_rows in Hb.
    rewrite (sort_by_Permutation (λ b : Z, b)) in Hb.
    apply list_elem_of_fmap in Hb as (tx & -> & Htx).
    apply list_elem_of_filter in Htx as [Hreq Htx].
    apply (proj1 (elem_of_remove_dups _ _)) in Hreq. split; [exact Hreq|].
    now apply list_elem_of_fmap_2.
  - rewrite lookup_empty in Hsome. now destruct Hsome.
Qed.

(** C3.  The log holds IN 100 on day 1.
    Asked for the balance at day 2, where no transaction has its
    timestamp, getBalancesAtTimestamps returns a map without an entry
    for day 2, whatever value the database gives to the select item; the
    balance at day 2 is 100. *)
Theorem C3_batch_misses_instant
    (running_balance : list (Z * list Transaction.t) → Z → Qc) :
  getBalancesAtTimestamps running_balance deposit_log [day2] !! day2 = None
  ∧ getBalancesAtTimestamps running_balance deposit_log [day2] = ∅
  ∧ (getBalanceAtTimestamp (state_of deposit_log) day2).2 = Q2Qc 100.
Proof.
  split; [|split]; [| reflexivity | apply Qc_is_canon; reflexivity].
  destruct (getBalancesAtTimestamps running_balance deposit_log [day2] !! day2)
    as [v|] eqn:Hget; [|reflexivity].
  destruct (getBalancesAtTimestamps_keys running_balance deposit_log [day2] day2)
    as [_ Hin]; [rewrite Hget; eauto|].
  vm_compute in Hin. apply list_elem_of_In in Hin. simpl in Hin.
  destruct Hin as [Hin|[]]. discriminate.
Qed.

(** Under the reading [window_sum] of the select item the entries that
    exist are not the balances either: on the ledger IN 100 on day 1,
    OUT 150 on day 2, the entry of day 2 counts the deposit twice. *)
Lemma getBalancesAtTimestamps_window_sum_day2 :
  getBalancesAtTimestamps window_sum overdraft_log [day1; day2] !! day2
    = Some (Q2Qc 50)
  ∧ B overdraft_log day2 = Q2Qc (-50).
Proof.
  split; [|now apply Qc_is_canon].
  apply (bool_decide_unpack _). vm_compute. exact I.
Qed.

(** ** Requests in flight *)

(** A request that runs alone from its first await to its response does
    what createTransaction does. *)
Lemma create_steps_alone `{JsRuntime} (now : Z) (st : State) (body : Body.t) :
  let o := createTransaction now st body in
  run_two [true; true; true] st (create_start now body)
          (Responded (response o))
  = (state o, Responded (response o), Responded (response o)).
Proof.
  intros o. subst o. unfold createTransaction, create_start.
  destruct (create_validate now body) as [e|[[date ty] amt]]; [reflexivity|].
  cbn [run_two create_step].
  destruct (create_gate st date ty amt) as [st1 [r|]]; [reflexivity|].
  cbn [run_two create_step]. unfold set_db.
  destruct (transaction_create (db st1) date ty amt) as [d newTxn].
  reflexivity.
Qed.

(** C9.  The ledger holds IN 100 on day 1;
    two requests OUT 100 at day 2 are in flight.  When each reads the
    balance before the other inserts, both read 100, both are answered
    201, and the balance at day 2 becomes -100.  When the first request
    runs to its response before the second starts, the second is
    answered 400. *)
Theorem C9_two_creates_overdraw :
  let _ := numeric_runtime in
  let st := state_of deposit_log in
  let request := create_start (3 * DAY) (body_of day2 "OUT" 100) in
  let interleaved := run_two [true; false; true; false; true; false] st request request in
  let serial := run_two [true; true; true; false; false; false] st request request in
  interleaved.1.2
    = Responded (mkResponse 201
        (JTransaction (Transaction.mk 2 day2 OUT (Qc_of_Z 100))))
  ∧ interleaved.2
    = Responded (mkResponse 201
        (JTransaction (Transaction.mk 3 day2 OUT (Qc_of_Z 100))))
  ∧ B (transactions (db interleaved.1.1)) day2 = Q2Qc (-100)
  ∧ serial.1.2
    = Responded (mkResponse 201
        (JTransaction (Transaction.mk 2 day2 OUT (Qc_of_Z 100))))
  ∧ serial.2
    = Responded (mkResponse 400 (JInsufficient (Q2Qc 0) (Qc_of_Z 100)))
  ∧ B (transactions (db serial.1.1)) day2 = Q2Qc 0.
Proof.
  intros rt st request interleaved serial.
  repeat split; try reflexivity; now apply Qc_is_canon.
Qed.

(** ** The cache stays fresh *)

Lemma B_app (l1 l2 : list Transaction.t) (t : Z) :
  B (l1 ++ l2) t = (B l1 t + B l2 t)%Qc.
Proof.
  induction l1 as [|tx l1 IH]; simpl.
  - now rewrite Qcplus_0_l.
  - destruct (Transaction.timestamp tx <=? t); [|exact IH].
    destruct (Transaction.type tx); rewrite IH; ring.
Qed.

Lemma B_later (tx : Transaction.t) (k : Z) :
  k < Transaction.timestamp tx → B [tx] k = 0%Qc.
Proof.
  intros Hk. simpl. now rewrite (proj2 (Z.leb_gt _ _)) by lia.
Qed.

(** The rows up to [k] are the same after a row beyond [k] was
    appended, after rows beyond [k] were replaced by rows beyond [k],
    and after rows beyond [k] were removed. *)
Lemma filter_upto_app_later (log : list Transaction.t) (tx : Transaction.t) (k : Z) :
  k < Transaction.timestamp tx →
  filter (λ tx, Transaction.timestamp tx ≤ k) (log ++ [tx])
  = filter (λ tx, Transaction.timestamp tx ≤ k) log.
Proof.
  intros Hk. rewrite filter_app, filter_cons, decide_False by lia.
  now rewrite filter_nil, app_nil_r.
Qed.

Lemma filter_upto_fmap_later (f : Transaction.t → Transaction.t)
    (log : list Transaction.t) (k : Z) :
  (∀ tx, tx ∈ log →
     f tx = tx ∨ (k < Transaction.timestamp tx ∧ k < Transaction.timestamp (f tx))) →
  filter (λ tx, Transaction.timestamp tx ≤ k) (f <$> log)
  = filter (λ tx, Transaction.timestamp tx ≤ k) log.
Proof.
  induction log as [|tx log IH]; intros Hf; [reflexivity|].
  rewrite fmap_cons, !filter_cons, IH by (intros; apply Hf; now right).
  destruct (Hf tx) as [->|[H1 H2]]; [now left|reflexivity|].
  now rewrite !decide_False by lia.
Qed.

Lemma filter_upto_filter_later (P : Transaction.t → Prop)
    `{∀ tx, Decision (P tx)} (log : list Transaction.t) (k : Z) :
  (∀ tx, tx ∈ log → ¬ P tx → k < Transaction.timestamp tx) →
  filter (λ tx, Transaction.timestamp tx ≤ k) (filter P log)
  = filter (λ tx, Transaction.timestamp tx ≤ k) log.
Proof.
  induction log as [|tx log IH]; intros Hf; [reflexivity|].
  rewrite (filter_cons P).
  destruct (decide (P tx)) as [HP|HP].
  - rewrite !filter_cons, IH; [reflexivity|].
    intros; apply Hf; [now right|assumption].
  - rewrite IH by (intros; apply Hf; [now right|assumption]).
    rewrite filter_cons, decide_False; [reflexivity|].
    specialize (Hf tx ltac:(now left) HP). lia.
Qed.

Lemma getBalanceAtTimestamp_fresh (st : State) (t : Z) :
  cache_fresh st → cache_fresh (getBalanceAtTimestamp st t).1.
Proof.
  intros Hcoh. unfold getBalanceAtTimestamp, redis_get_balance, redis_setEx_balance.
  destruct (connected (redis st)); [|exact Hcoh].
  destruct (balance_keys (redis st) !! t) as [v|] eqn:Hget; [exact Hcoh|].
  intros k v. simpl. rewrite lookup_insert. case_decide as Hk.
  - subst k. now intros [= <-].
  - apply Hcoh.
Qed.

Lemma getTransactionStats_fresh_cache (st : State) :
  cache_fresh st → cache_fresh (getTransactionStats st).1.
Proof.
  intros Hcoh. unfold getTransactionStats.
  destruct (connected (redis st)); [|exact Hcoh].
  destruct (transaction_stats (redis st)); exact Hcoh.
Qed.

Lemma getInvalidTransactionCount_fresh (st : State) :
  cache_fresh st → cache_fresh (getInvalidTransactionCount st).1.
Proof.
  intros Hcoh. unfold getInvalidTransactionCount.
  destruct (connected (redis st)); [|exact Hcoh].
  destruct (invalid_transaction_count (redis st)); exact Hcoh.
Qed.

(** Invalidation from [t] restores freshness after a write that left the
    rows before [t] as they were. *)
Lemma invalidateBalanceCache_fresh (st : State) (d : Db) (t : Z) :
  connected (redis st) = true →
  cache_fresh st →
  (∀ k, k < t →
     filter (λ tx, Transaction.timestamp tx ≤ k) (transactions d)
     = filter (λ tx, Transaction.timestamp tx ≤ k) (transactions (db st))) →
  cache_fresh (invalidateBalanceCache (set_db st d) t).
Proof.
  intros Hc Hcoh Hsame k v.
  rewrite invalidateBalanceCache_db, invalidateBalanceCache_lookup by exact Hc.
  case_decide as Hk; [discriminate|]. simpl. intros Hget.
  unfold sql_signed_sum. rewrite Hsame by lia. now apply Hcoh.
Qed.

Lemma invalidateBalanceCache_keeps_connected (st : State) (t : Z) :
  connected (redis (invalidateBalanceCache st t)) = connected (redis st).
Proof.
  destruct (connected (redis st)) eqn:Hc.
  - now rewrite invalidateBalanceCache_connected.
  - now rewrite invalidateBalanceCache_disconnected.
Qed.

Lemma findUnique_Some (log : list Transaction.t) (txnId : Z) (tx : Transaction.t) :
  findUnique log txnId = Some tx → tx ∈ log ∧ Transaction.id tx = txnId.
Proof.
  unfold findUnique. intros [Hin Hid]%find_some.
  apply list_elem_of_In in Hin. apply bool_decide_eq_true in Hid. auto.
Qed.

Lemma id_unique (log : list Transaction.t) (tx tx' : Transaction.t) :
  NoDup (Transaction.id <$> log) →
  tx ∈ log → tx' ∈ log → Transaction.id tx = Transaction.id tx' → tx = tx'.
Proof.
  induction log as [|y log IH]; intros Hnd Hin Hin' Hid;
    [now apply elem_of_nil in Hin|].
  rewrite fmap_cons in Hnd. apply NoDup_cons in Hnd as [Hy Hnd].
  apply elem_of_cons in Hin as [->|Hin], Hin' as [->|Hin']; auto.
  - exfalso. apply Hy. rewrite Hid. now apply list_elem_of_fmap_2.
  - exfalso. apply Hy. rewrite <- Hid. now apply list_elem_of_fmap_2.
Qed.

Lemma getBalanceAtTimestamp_Inv (st : State) (t : Z) :
  Inv st → Inv (getBalanceAtTimestamp st t).1.
Proof.
  intros [Hc Hnd Hseq Hcoh]. split.
  - now rewrite getBalanceAtTimestamp_connected.
  - now rewrite getBalanceAtTimestamp_db.
  - now rewrite getBalanceAtTimestamp_db.
  - now apply getBalanceAtTimestamp_fresh.
Qed.

Lemma create_gate_Inv (st : State) (date : Z) (type : TransactionType)
    (numericAmount : Qc) :
  Inv st → Inv (create_gate st date type numericAmount).1.
Proof.
  intros HI. unfold create_gate. destruct type; [exact HI|].
  pose proof (getBalanceAtTimestamp_Inv st date HI) as HI'.
  destruct (getBalanceAtTimestamp st date) as [st1 bal].
  now case_bool_decide.
Qed.

Lemma createTransaction_Inv `{JsRuntime} (now : Z) (st : State) (body : Body.t) :
  Inv st → Inv (state (createTransaction now st body)).
Proof.
  intros HI. unfold createTransaction.
  destruct (create_validate now body) as [e|[[date ty] amt]]; [exact HI|].
  pose proof (create_gate_Inv st date ty amt HI) as HI1.
  destruct (create_gate st date ty amt) as [st1 [r|]]; [exact HI1|].
  simpl in HI1. destruct HI1 as [Hc Hnd Hseq Hcoh].
  cbn [state transaction_create].
  set (newTxn := Transaction.mk (transaction_seq (db st1)) date ty amt).
  set (d := mkDb _ _ _ _).
  split.
  - now rewrite invalidateBalanceCache_keeps_connected.
  - rewrite invalidateBalanceCache_db. cbn [set_db db d transactions].
    rewrite fmap_app. apply NoDup_app. split; [exact Hnd|]. split.
    + intros i (tx & -> & Hin)%list_elem_of_fmap [Heq|Hnil]%elem_of_cons.
      * unfold ids_below_seq in Hseq. rewrite Forall_forall in Hseq.
        specialize (Hseq _ Hin). simpl in Heq. lia.
      * now apply elem_of_nil in Hnil.
    + apply NoDup_singleton.
  - rewrite invalidateBalanceCache_db. unfold ids_below_seq.
    cbn [set_db db d transactions transaction_seq].
    apply Forall_app. split.
    + eapply Forall_impl; [exact Hseq|]. simpl. intros; lia.
    + repeat constructor. simpl. lia.
  - apply invalidateBalanceCache_fresh; [exact Hc|exact Hcoh|].
    intros k Hk. cbn [d transactions].
    apply filter_upto_app_later. simpl. lia.
Qed.

Lemma updateTransaction_Inv `{JsRuntime} (now : Z) (st : State) (id : string)
    (body : Body.t) :
  Inv st → Inv (state (updateTransaction now st id body)).
Proof.
  intros HI. unfold updateTransaction.
  destruct (parseInt_string id) as [txnId|]; [|exact HI].
  destruct (findUnique (transactions (db st)) txnId) as [existing|] eqn:Hfind;
    [|exact HI].
  apply findUnique_Some in Hfind as [Hin Hid].
  destruct (if truthy (Body.timestamp body) then _ else _) as [date|]; [|exact HI].
  destruct (isFuture now date); [exact HI|].
  destruct (if truthy (Body.amount body) then _ else _) as [newAmount|];
    [|exact HI].
  destruct (_ && _); [exact HI|].
  destruct (_ && _); [exact HI|].
  destruct (as_TransactionType _) as [ty|]; [|exact HI].
  destruct HI as [Hc Hnd Hseq Hcoh].
  cbn [state transaction_update].
  set (updated := Transaction.mk txnId date ty newAmount).
  set (f := λ tx, if bool_decide (Transaction.id tx = txnId) then updated else tx).
  set (d := mkDb _ _ _ _).
  assert (Hids : Transaction.id <$> (f <$> transactions (db st))
                 = Transaction.id <$> transactions (db st)).
  { rewrite <- list_fmap_compose. apply list_fmap_ext. intros _ tx _.
    unfold f. simpl. now case_bool_decide. }
  split.
  - now rewrite invalidateBalanceCache_keeps_connected.
  - rewrite invalidateBalanceCache_db. cbn [set_db db d transactions].
    now rewrite Hids.
  - rewrite invalidateBalanceCache_db. unfold ids_below_seq.
    cbn [set_db db d transactions transaction_seq].
    unfold ids_below_seq in Hseq. rewrite Forall_forall in Hseq.
    apply Forall_forall. intros tx (tx0 & -> & Hin0)%list_elem_of_fmap.
    unfold f. case_bool_decide as Heq; [|now apply Hseq].
    simpl. rewrite <- Heq. now apply Hseq.
  - apply invalidateBalanceCache_fresh; [exact Hc|exact Hcoh|].
    intros k Hk. cbn [d transactions]. apply filter_upto_fmap_later.
    intros tx Htx. unfold f. case_bool_decide as Heq; [|now left].
    right. assert (tx = existing) as ->.
    { apply (id_unique (transactions (db st))); auto. congruence. }
    simpl. lia.
Qed.

Lemma deleteTransaction_Inv `{JsRuntime} (st : State) (id : string) :
  Inv st → Inv (state (deleteTransaction st id)).
Proof.
  intros HI. unfold deleteTransaction.
  destruct (parseInt_string id) as [txnId|]; [|exact HI].
  destruct (findUnique (transactions (db st)) txnId) as [transaction|] eqn:Hfind;
    [|exact HI].
  apply findUnique_Some in Hfind as [Hin Hid].
  destruct HI as [Hc Hnd Hseq Hcoh]. cbn [state]. split.
  - now rewrite invalidateBalanceCache_keeps_connected.
  - rewrite invalidateBalanceCache_db. cbn [set_db db transaction_delete transactions].
    eapply sublist_NoDup; [exact Hnd|]. apply fmap_sublist, sublist_filter.
  - rewrite invalidateBalanceCache_db. unfold ids_below_seq.
    cbn [set_db db transaction_delete transactions transaction_seq].
    unfold ids_below_seq in Hseq. rewrite Forall_forall in Hseq.
    apply Forall_forall. intros tx [_ Htx]%list_elem_of_filter. now apply Hseq.
  - apply invalidateBalanceCache_fresh; [exact Hc|exact Hcoh|].
    intros k Hk. cbn [transaction_delete transactions].
    apply filter_upto_filter_later.
    intros tx Htx Hsame. assert (tx = transaction) as ->; [|lia].
    apply (id_unique (transactions (db st))); auto.
    destruct (decide (Transaction.id tx = txnId)); [congruence|contradiction].
Qed.

Lemma rows_from_ids (seq : Z) (records : list (Z * TransactionType * Qc)) :
  Transaction.id <$> rows_from seq records = seqZ seq (Z.of_nat (length records)).
Proof.
  revert seq. induction records as [|[[date ty] amt] records IH]; intros seq;
    [reflexivity|].
  cbn [rows_from length]. rewrite fmap_cons, IH, (seqZ_cons seq) by lia.
  simpl. do 2 f_equal; lia.
Qed.

Lemma createBulkTransactions_Inv `{JsRuntime} (now : Z) (st : State)
    (txns : option (list (option Body.t))) :
  Inv st → Inv (state (createBulkTransactions now st txns)).
Proof.
  intros HI. unfold createBulkTransactions.
  destruct txns as [[|t txns]|]; [exact HI| |exact HI].
  destruct (bulk_validate_all now (t :: txns) []) as [e|validated]; [exact HI|].
  destruct HI as [Hc Hnd Hseq Hcoh].
  assert (Hb : (0 < bulk_batchSize)%nat) by (vm_compute; lia).
  rewrite (bulk_insert_all bulk_batchSize _ Hb _ 0 (db st) 0 Hseq) by lia.
  rewrite drop_0. unfold redis_flushDb. rewrite Hc. cbn [state].
  set (sorted := sort_by _ validated). split.
  - reflexivity.
  - cbn [db transactions]. rewrite fmap_app. apply NoDup_app.
    split; [exact Hnd|]. rewrite rows_from_ids. split; [|apply NoDup_seqZ].
    intros i (tx & -> & Hin)%list_elem_of_fmap Hi%elem_of_seqZ.
    unfold ids_below_seq in Hseq. rewrite Forall_forall in Hseq.
    specialize (Hseq _ Hin). lia.
  - unfold ids_below_seq. cbn [db transactions transaction_seq].
    apply Forall_app. split.
    + eapply Forall_impl; [exact Hseq|]. simpl. intros; lia.
    + apply Forall_forall. intros tx Htx.
      assert (Hi : Transaction.id tx ∈ Transaction.id <$> rows_from
                     (transaction_seq (db st)) sorted)
        by now apply list_elem_of_fmap_2.
      rewrite rows_from_ids in Hi. apply elem_of_seqZ in Hi. lia.
  - intros k v. cbn [redis balance_keys]. now rewrite lookup_empty.
Qed.

(** Every request keeps the invariant: while the cache carries out its
    commands, every cached balance is the sum the query gives. *)
Lemma handle_Inv `{JsRuntime} (st : State) (req : Request) :
  Inv st → Inv (handle st req).
Proof.
  intros HI. destruct req; cbn [handle].
  - now apply createTransaction_Inv.
  - now apply updateTransaction_Inv.
  - now apply deleteTransaction_Inv.
  - now apply createBulkTransactions_Inv.
  - destruct HI as [Hc Hnd Hseq Hcoh].
    pose proof (getTransactionStats_fresh_cache st Hcoh) as Hcoh'.
    unfold getTransactionStats in *. rewrite Hc in *.
    destruct (transaction_stats (redis st)); now split.
  - now apply getBalanceAtTimestamp_Inv.
  - destruct HI as [Hc Hnd Hseq Hcoh].
    pose proof (getInvalidTransactionCount_fresh st Hcoh) as Hcoh'.
    unfold getInvalidTransactionCount in *. rewrite Hc in *.
    destruct (invalid_transaction_count (redis st)); now split.
Qed.

(** X1.  Requests handled one after another by a service whose cache
    carries out its commands, starting with no balance cached and with
    ids unique and drawn from the sequence: after any sequence of
    create, update, delete, bulk, stats and read requests that leaves a
    ledger of whole amounts with magnitudes adding up to less than
    2^53, getBalanceAtTimestamp returns at every instant the balance B
    of the log, from the cache or not. *)
Theorem balance_fresh_after_requests `{JsRuntime} (st : State)
    (reqs : list Request) (t : Z) :
  connected (redis st) = true →
  balance_keys (redis st) = ∅ →
  NoDup (Transaction.id <$> transactions (db st)) →
  ids_below_seq (db st) →
  let st' := fold_left handle reqs st in
  exact_ledger (transactions (db st')) →
  (getBalanceAtTimestamp st' t).2 = B (transactions (db st')) t.
Proof.
  intros Hc Hempty Hnd Hseq st' Hex.
  assert (HI : Inv st).
  { split; [exact Hc|exact Hnd|exact Hseq|].
    intros k v. rewrite Hempty, lookup_empty. discriminate. }
  assert (HI' : Inv st').
  { subst st'. clear - HI. revert st HI.
    induction reqs as [|req reqs IH]; intros st HI; [exact HI|].
    cbn [fold_left]. apply IH. now apply handle_Inv. }
  destruct HI' as [Hc' _ _ Hcoh].
  rewrite <- sql_signed_sum_upto by exact Hex.
  destruct (balance_keys (redis st') !! t) as [v|] eqn:Hget.
  - rewrite (getBalanceAtTimestamp_hit st' t v Hc' Hget). now apply Hcoh.
  - apply getBalanceAtTimestamp_miss. now right.
Qed.

Lemma balance_fresh_after_requests_witness :
  let _ := numeric_runtime in
  let reqs :=
    [ ReadBalance day2;
      PostTransaction (3 * DAY) (body_of day2 "OUT" 60);
      ReadBalance day2;
      PutTransaction (3 * DAY) "2" (Body.mk JUndefined JUndefined (JNum (Qc_of_Z 10)));
      DeleteTransaction "1";
      PostBulk (3 * DAY) (Some [Some (body_of day1 "IN" 5)]) ] in
  let st' := fold_left handle reqs (state_of deposit_log) in
  transactions (db st')
  = [Transaction.mk 2 day2 OUT (Qc_of_Z 10); Transaction.mk 3 day1 IN (Qc_of_Z 5)]
  ∧ exact_ledger (transactions (db st'))
  ∧ (getBalanceAtTimestamp st' day2).2 = B (transactions (db st')) day2.
Proof.
  intros rt reqs st'.
  assert (Hlog : transactions (db st')
                 = [Transaction.mk 2 day2 OUT (Qc_of_Z 10);
                    Transaction.mk 3 day1 IN (Qc_of_Z 5)]) by reflexivity.
  assert (Hex : exact_ledger (transactions (db st'))).
  { rewrite Hlog. apply exact_ledger_decide; reflexivity. }
  split; [exact Hlog|]. split; [exact Hex|].
  refine (@balance_fresh_after_requests rt (state_of deposit_log)
            reqs day2 eq_refl eq_refl _ _ Hex);
    apply (bool_decide_unpack _); vm_compute; exact I.
Defined.

(** ** Further properties of the oracle and the cache *)

Lemma State_eq (a b : State) : db a = db b → redis a = redis b → a = b.
Proof. destruct a, b. simpl. now intros -> ->. Qed.

Lemma Redis_eq (a b : Redis) :
  connected a = connected b →
  balance_keys a = balance_keys b →
  invalid_transaction_count a = invalid_transaction_count b →
  transaction_stats a = transaction_stats b →
  a = b.
Proof. destruct a, b. simpl. now intros -> -> -> ->. Qed.

(** X3.  Reading the balance at an instant twice in a row gives the same
    number, and the second read changes nothing: with the cache
    reachable it is served from the entry the first read left. *)
Theorem getBalanceAtTimestamp_read_twice (st : State) (t : Z) :
  getBalanceAtTimestamp (getBalanceAtTimestamp st t).1 t
  = getBalanceAtTimestamp st t
  ∧ (connected (redis st) = true →
     balance_keys (redis (getBalanceAtTimestamp st t).1) !! t
     = Some (getBalanceAtTimestamp st t).2).
Proof.
  unfold getBalanceAtTimestamp, redis_get_balance, redis_setEx_balance.
  destruct (connected (redis st)) eqn:Hc.
  - destruct (balance_keys (redis st) !! t) as [v|] eqn:Hget; cbn [fst snd].
    + rewrite Hc, Hget. auto.
    + cbn [set_redis redis connected balance_keys]. rewrite lookup_insert_eq.
      auto.
  - cbn [fst snd]. rewrite Hc. split; [reflexivity|discriminate].
Qed.

(** X4.  Two invalidations in a row amount to one invalidation from the
    earlier of the two instants. *)
Theorem invalidateBalanceCache_twice (st : State) (t1 t2 : Z) :
  invalidateBalanceCache (invalidateBalanceCache st t1) t2
  = invalidateBalanceCache st (Z.min t1 t2).
Proof.
  destruct (connected (redis st)) eqn:Hc.
  - assert (Hc1 : connected (redis (invalidateBalanceCache st t1)) = true).
    { now rewrite invalidateBalanceCache_connected. }
    apply State_eq.
    + now rewrite !invalidateBalanceCache_db.
    + apply Redis_eq.
      * now rewrite (invalidateBalanceCache_connected _ t2 Hc1),
          (invalidateBalanceCache_connected st (Z.min t1 t2) Hc).
      * apply map_eq. intros k.
        rewrite !invalidateBalanceCache_lookup by assumption.
        repeat case_decide; try reflexivity; lia.
      * now rewrite (invalidateBalanceCache_connected _ t2 Hc1),
          (invalidateBalanceCache_connected st (Z.min t1 t2) Hc).
      * rewrite (invalidateBalanceCache_connected _ t2 Hc1),
          (invalidateBalanceCache_connected st (Z.min t1 t2) Hc).
        cbn [transaction_stats].
        now rewrite (invalidateBalanceCache_connected st t1 Hc).
  - rewrite (invalidateBalanceCache_disconnected st t1 Hc).
    rewrite (invalidateBalanceCache_disconnected st t2 Hc).
    now rewrite (invalidateBalanceCache_disconnected st (Z.min t1 t2) Hc).
Qed.

(** ** Further properties of the mutation guard *)

(** X5.  createTransaction writes only when it answers 201: every other
    response leaves the database as it was and queues no recalculation;
    a 201 appends exactly one row, with the next id of the sequence and
    the validated date, type and amount, advances the sequence by one,
    leaves the markers and the daily summaries as they were, and queues
    the recalculation from the row's date. *)
Theorem createTransaction_outcomes `{JsRuntime} (now : Z) (st : State)
    (body : Body.t) :
  let o := createTransaction now st body in
  (status (response o) ≠ 201 → db (state o) = db st ∧ queued o = None)
  ∧ (status (response o) = 201 →
     ∃ date type numericAmount,
       create_validate now body = inr (date, type, numericAmount)
       ∧ let newTxn :=
           Transaction.mk (transaction_seq (db st)) date type numericAmount in
         json (response o) = JTransaction newTxn
         ∧ transactions (db (state o)) = transactions (db st) ++ [newTxn]
         ∧ transaction_seq (db (state o)) = transaction_seq (db st) + 1
         ∧ invalidTransactions (db (state o)) = invalidTransactions (db st)
         ∧ dailySummaries (db (state o)) = dailySummaries (db st)
         ∧ queued o = Some date).
Proof.
  intros o. subst o. unfold createTransaction.
  destruct (create_validate now body) as [e|[[date ty] amt]] eqn:Hval.
  { split; [now split|]. simpl. discriminate. }
  pose proof (create_gate_db st date ty amt) as Hdb.
  destruct (create_gate st date ty amt) as [st1 [r|]] eqn:Hgate; simpl in Hdb.
  - assert (Hr : status r = 400).
    { unfold create_gate in Hgate. destruct ty; [discriminate|].
      destruct (getBalanceAtTimestamp st date) as [s b].
      case_bool_decide; [|discriminate]. now injection Hgate as _ <-. }
    split; [now split|]. simpl. rewrite Hr. discriminate.
  - split; [simpl; congruence|]. intros _. exists date, ty, amt.
    split; [reflexivity|]. cbn [response json state queued transaction_create].
    rewrite invalidateBalanceCache_db. cbn [set_db db transactions
      transaction_seq invalidTransactions dailySummaries].
    rewrite Hdb. repeat split.
Qed.

(** X6.  On a ledger of whole amounts with magnitudes adding up to
    less than 2^53, when the cache holds no balance for the date of the
    request or rejects its commands, an accepted OUT does not overdraw
    the ledger at its own timestamp: after the 201 the balance B at the
    date of the new row is the balance before less the amount, and at
    least 0. *)
Theorem createTransaction_out_not_overdrawn `{JsRuntime} (now : Z) (st : State)
    (body : Body.t) (date : Z) (numericAmount : Qc) :
  exact_ledger (transactions (db st)) →
  connected (redis st) = false ∨ balance_keys (redis st) !! date = None →
  create_validate now body = inr (date, OUT, numericAmount) →
  status (response (createTransaction now st body)) = 201 →
  B (transactions (db (state (createTransaction now st body)))) date
  = (B (transactions (db st)) date - numericAmount)%Qc
  ∧ (0 ≤ B (transactions (db (state (createTransaction now st body)))) date)%Qc.
Proof.
  intros Hex Hmiss Hval Hok.
  pose proof (getBalanceAtTimestamp_miss st date Hmiss) as Hbal.
  rewrite sql_signed_sum_upto in Hbal by exact Hex.
  pose proof (getBalanceAtTimestamp_db st date) as Hdb.
  revert Hok. unfold createTransaction. rewrite Hval. unfold create_gate.
  destruct (getBalanceAtTimestamp st date) as [st1 bal]. simpl in Hbal, Hdb.
  case_bool_decide as Hgate; [simpl; discriminate|]. intros _.
  cbn [state transaction_create]. rewrite invalidateBalanceCache_db.
  cbn [set_db db transactions]. rewrite Hdb, B_app.
  assert (Hnew : B [Transaction.mk (transaction_seq (db st)) date OUT numericAmount]
                   date = (- numericAmount)%Qc).
  { simpl. rewrite Z.leb_refl. ring. }
  rewrite Hnew. split; [ring|].
  apply Qcnot_lt_le in Hgate. rewrite Hbal in Hgate.
  apply Qcle_minus_iff in Hgate.
  now replace (B (transactions (db st)) date + - numericAmount)%Qc
    with (B (transactions (db st)) date + - numericAmount)%Qc by ring.
Qed.

Lemma createTransaction_out_not_overdrawn_witness :
  let _ := numeric_runtime in
  let st := state_of deposit_log in
  let body := body_of day2 "OUT" 100 in
  exact_ledger (transactions (db st))
  ∧ balance_keys (redis st) !! day2 = None
  ∧ create_validate (3 * DAY) body = inr (day2, OUT, Qc_of_Z 100)
  ∧ status (response (createTransaction (3 * DAY) st body)) = 201
  ∧ (0 ≤ B (transactions (db (state (createTransaction (3 * DAY) st body)))) day2)%Qc.
Proof.
  intros rt st body.
  assert (Hex : exact_ledger (transactions (db st)))
    by (apply exact_ledger_decide; reflexivity).
  split; [exact Hex|]. split; [reflexivity|].
  split; [reflexivity|]. split; [reflexivity|].
  apply (@createTransaction_out_not_overdrawn rt (3 * DAY) st body day2
           (Qc_of_Z 100)); [exact Hex|now right|reflexivity|reflexivity].
Defined.

(** X7.  updateTransaction never applies an update in part: every
    response other than 200 leaves the whole state, cache included, as
    it was and queues nothing; a 200 keeps the ids of the table, in
    their order, keeps every row of another id, and leaves the sequence,
    the markers and the daily summaries as they were. *)
Theorem updateTransaction_outcomes `{JsRuntime} (now : Z) (st : State)
    (id : string) (body : Body.t) :
  let o := updateTransaction now st id body in
  (status (response o) ≠ 200 → state o = st ∧ queued o = None)
  ∧ (status (response o) = 200 →
     Transaction.id <$> transactions (db (state o))
       = Transaction.id <$> transactions (db st)
     ∧ (∀ txnId tx, parseInt_string id = Some txnId →
          Transaction.id tx ≠ txnId →
          (tx ∈ transactions (db (state o)) ↔ tx ∈ transactions (db st)))
     ∧ transaction_seq (db (state o)) = transaction_seq (db st)
     ∧ invalidTransactions (db (state o)) = invalidTransactions (db st)
     ∧ dailySummaries (db (state o)) = dailySummaries (db st)).
Proof.
  intros o. subst o. unfold updateTransaction.
  destruct (parseInt_string id) as [txnId|];
    [|split; [now split|simpl; discriminate]].
  destruct (findUnique (transactions (db st)) txnId) as [existing|];
    [|split; [now split|simpl; discriminate]].
  destruct (if truthy (Body.timestamp body) then _ else _) as [date|];
    [|split; [now split|simpl; discriminate]].
  destruct (isFuture now date); [split; [now split|simpl; discriminate]|].
  destruct (if truthy (Body.amount body) then _ else _) as [newAmount|];
    [|split; [now split|simpl; discriminate]].
  destruct (_ && _); [split; [now split|simpl; discriminate]|].
  destruct (_ && _); [split; [now split|simpl; discriminate]|].
  destruct (as_TransactionType _) as [ty|];
    [|split; [now split|simpl; discriminate]].
  split; [simpl; congruence|]. intros _.
  cbn [state transaction_update]. rewrite invalidateBalanceCache_db.
  cbn [set_db db transactions transaction_seq invalidTransactions dailySummaries].
  split; [|split; [|repeat split]].
  - rewrite <- list_fmap_compose. apply list_fmap_ext. intros _ tx _.
    simpl. now case_bool_decide.
  - intros txnId' tx [= <-] Hne. rewrite list_elem_of_fmap. split.
    + intros (tx0 & Heq & Hin). case_bool_decide as Hid.
      * subst tx. simpl in Hne. congruence.
      * now subst tx0.
    + intros Hin. exists tx. split; [|exact Hin].
      now rewrite bool_decide_eq_false_2.
Qed.

(** X8.  An update that ends with type OUT and an amount above the
    balance that excludes the updated transaction, at the date the update
    ends with, is answered 400 with the Insufficient balance for update
    error carrying that balance and the amount, and the state stays as
    it was.  Omitted (falsy) fields end with the stored values. *)
Theorem updateTransaction_balance_gate `{JsRuntime} (now : Z) (st : State)
    (id : string) (txnId : Z) (existing : Transaction.t) (body : Body.t)
    (date : Z) (newAmount : Qc) :
  parseInt_string id = Some txnId →
  findUnique (transactions (db st)) txnId = Some existing →
  (if truthy (Body.timestamp body) then new_Date (Body.timestamp body)
   else Some (Transaction.timestamp existing)) = Some date →
  date ≤ now →
  (if truthy (Body.amount body) then parseFloat (Body.amount body)
   else Some (Transaction.amount existing)) = Some newAmount →
  (truthy (Body.amount body) = true → (0 < newAmount)%Qc) →
  is_OUT (if truthy (Body.type body) then Body.type body
          else type_name (Transaction.type existing)) = true →
  (getBalanceExcludingTransaction (db st) date txnId < newAmount)%Qc →
  let o := updateTransaction now st id body in
  response o
  = mkResponse 400
      (JInsufficientUpdate (getBalanceExcludingTransaction (db st) date txnId)
                           newAmount)
  ∧ state o = st.
Proof.
  intros Hid Hfind Hdate Hnow Hamt Hpos Hout Hlt o. subst o.
  unfold updateTransaction. rewrite Hid, Hfind, Hdate, Hamt, Hout.
  unfold isFuture. rewrite bool_decide_eq_false_2 by lia.
  assert (Hchk : truthy (Body.amount body) && bool_decide (newAmount ≤ 0)%Qc
                 = false).
  { destruct (truthy (Body.amount body)); [|reflexivity].
    rewrite bool_decide_eq_false_2; [reflexivity|].
    apply Qclt_not_le. now apply Hpos. }
  rewrite Hchk, (bool_decide_eq_true_2 _ Hlt). now split.
Qed.

Lemma updateTransaction_balance_gate_witness :
  let _ := numeric_runtime in
  let st := state_of settled_log in
  let body := Body.mk JUndefined JUndefined (JNum (Qc_of_Z 101)) in
  getBalanceExcludingTransaction (db st) day2 2 = Q2Qc 100
  ∧ response (updateTransaction (3 * DAY) st "2" body)
    = mkResponse 400
        (JInsufficientUpdate (getBalanceExcludingTransaction (db st) day2 2)
                             (Qc_of_Z 101))
  ∧ state (updateTransaction (3 * DAY) st "2" body) = st.
Proof.
  intros rt st body. split; [apply Qc_is_canon; reflexivity|].
  apply (@updateTransaction_balance_gate rt (3 * DAY) st "2" 2
           (Transaction.mk 2 day2 OUT (Qc_of_Z 100)) body day2 (Qc_of_Z 101));
    try reflexivity.
  vm_compute. discriminate.
Defined.

Lemma createTransaction_201 `{JsRuntime} (now : Z) (st : State) (body : Body.t)
    (newTxn : Transaction.t) :
  response (createTransaction now st body) = mkResponse 201 (JTransaction newTxn) →
  Transaction.id newTxn = transaction_seq (db st)
  ∧ transactions (db (state (createTransaction now st body)))
    = transactions (db st) ++ [newTxn]
  ∧ invalidTransactions (db (state (createTransaction now st body)))
    = invalidTransactions (db st).
Proof.
  unfold createTransaction.
  destruct (create_validate now body) as [e|[[date ty] amt]]; [discriminate|].
  pose proof (create_gate_db st date ty amt) as Hdb.
  destruct (create_gate st date ty amt) as [st1 [r|]] eqn:Hgate; simpl in Hdb.
  - unfold create_gate in Hgate. destruct ty; [discriminate|].
    destruct (getBalanceAtTimestamp st date) as [s b].
    case_bool_decide; [|discriminate]. injection Hgate as _ <-. discriminate.
  - cbn [response state transaction_create]. intros [= <-].
    rewrite invalidateBalanceCache_db. cbn. now rewrite Hdb.
Qed.

Lemma findUnique_None (log : list Transaction.t) (txnId : Z) :
  (∀ tx, tx ∈ log → Transaction.id tx ≠ txnId) → findUnique log txnId = None.
Proof.
  intros Hno. unfold findUnique.
  destruct (find _ log) as [tx|] eqn:Hfind; [|reflexivity].
  apply find_some in Hfind as [Hin Hid].
  apply list_elem_of_In in Hin. apply bool_decide_eq_true in Hid.
  now destruct (Hno tx Hin).
Qed.

Lemma filter_ids_below (log : list Transaction.t) (seq : Z) :
  Forall (λ tx, Transaction.id tx < seq) log →
  filter (λ tx, Transaction.id tx ≠ seq) log = log.
Proof.
  induction 1 as [|tx log Htx _ IH]; [reflexivity|].
  rewrite filter_cons, decide_True by lia. now rewrite IH.
Qed.

Lemma findUnique_app_fresh (log : list Transaction.t) (tx : Transaction.t) :
  Forall (λ x, Transaction.id x < Transaction.id tx) log →
  findUnique (log ++ [tx]) (Transaction.id tx) = Some tx.
Proof.
  unfold findUnique. induction 1 as [|y log Hy _ IH]; cbn [app find].
  - now rewrite bool_decide_eq_true_2.
  - rewrite bool_decide_eq_false_2 by lia. exact IH.
Qed.

(** X9.  Create, then delete: when the ids of the table were drawn from
    the sequence, deleting the transaction that an accepted create has
    just returned is answered 200 and leaves the log exactly as it was
    before the create, and queues the recalculation from the date of the
    deleted row. *)
Theorem create_then_delete `{JsRuntime} (now : Z) (st : State) (body : Body.t)
    (newTxn : Transaction.t) (id : string) :
  ids_below_seq (db st) →
  response (createTransaction now st body) = mkResponse 201 (JTransaction newTxn) →
  parseInt_string id = Some (Transaction.id newTxn) →
  let o := deleteTransaction (state (createTransaction now st body)) id in
  response o = mkResponse 200 (JMessage "Transaction deleted successfully")
  ∧ transactions (db (state o)) = transactions (db st)
  ∧ queued o = Some (Transaction.timestamp newTxn).
Proof.
  intros Hseq Hok Hid o. subst o.
  destruct (createTransaction_201 now st body newTxn Hok) as (Hnew & Hlog & _).
  unfold deleteTransaction. rewrite Hid.
  assert (Hfind : findUnique
                    (transactions (db (state (createTransaction now st body))))
                    (Transaction.id newTxn) = Some newTxn).
  { rewrite Hlog. apply findUnique_app_fresh. now rewrite Hnew. }
  rewrite Hfind. cbn [response state queued].
  rewrite invalidateBalanceCache_db.
  cbn [set_db db transaction_delete transactions]. rewrite Hlog.
  repeat split. rewrite filter_app, Hnew, filter_ids_below by exact Hseq.
  rewrite filter_cons, decide_False by (rewrite Hnew; tauto).
  now rewrite filter_nil, app_nil_r.
Qed.

Lemma create_then_delete_witness :
  let _ := numeric_runtime in
  let st := state_of deposit_log in
  let body := body_of day2 "OUT" 60 in
  ids_below_seq (db st)
  ∧ response (createTransaction (3 * DAY) st body)
    = mkResponse 201 (JTransaction (Transaction.mk 2 day2 OUT (Qc_of_Z 60)))
  ∧ transactions
      (db (state (deleteTransaction (state (createTransaction (3 * DAY) st body))
                                    "2")))
    = deposit_log.
Proof.
  intros rt st body.
  assert (Hseq : ids_below_seq (db st)).
  { apply (bool_decide_unpack _). vm_compute. exact I. }
  split; [exact Hseq|]. split; [reflexivity|].
  apply (@create_then_delete rt (3 * DAY) st body
           (Transaction.mk 2 day2 OUT (Qc_of_Z 60)) "2" Hseq eq_refl eq_refl).
Defined.

(** X10.  A transaction is deleted once: after a delete that was
    answered 200, every row of that id and its marker are gone, and a
    second delete of the same id is answered 404 and changes nothing. *)
Theorem deleteTransaction_twice `{JsRuntime} (st : State) (id : string) :
  status (response (deleteTransaction st id)) = 200 →
  let st' := state (deleteTransaction st id) in
  (∀ txnId, parseInt_string id = Some txnId →
     (∀ tx, tx ∈ transactions (db st') → Transaction.id tx ≠ txnId)
     ∧ (∀ m, m ∈ invalidTransactions (db st') →
          InvalidTransaction.transactionId m ≠ txnId))
  ∧ response (deleteTransaction st' id)
    = mkResponse 404 (JError "Transaction not found")
  ∧ state (deleteTransaction st' id) = st'.
Proof.
  intros Hok st'.
  assert (∃ txnId tx, parseInt_string id = Some txnId
            ∧ st' = invalidateBalanceCache
                      (set_db st (transaction_delete (db st) txnId))
                      (Transaction.timestamp tx)) as (txnId & tx & Hid & Hst').
  { subst st'. revert Hok. unfold deleteTransaction.
    destruct (parseInt_string id) as [txnId|]; [|simpl; discriminate].
    destruct (findUnique (transactions (db st)) txnId) as [tx|];
      [|simpl; discriminate].
    intros _. now exists txnId, tx. }
  clearbody st'. subst st'.
  set (st' := invalidateBalanceCache _ _).
  assert (Hgone : ∀ x, x ∈ transactions (db st') → Transaction.id x ≠ txnId).
  { intros x. subst st'. rewrite invalidateBalanceCache_db.
    cbn [set_db db transaction_delete transactions].
    now intros [? _]%list_elem_of_filter. }
  split.
  - intros txnId' Hid'. assert (txnId' = txnId) as -> by congruence.
    split; [exact Hgone|].
    intros m. subst st'. rewrite invalidateBalanceCache_db.
    cbn [set_db db transaction_delete invalidTransactions].
    now intros [? _]%list_elem_of_filter.
  - unfold deleteTransaction. rewrite Hid.
    rewrite (findUnique_None _ txnId Hgone). now split.
Qed.

Lemma deleteTransaction_twice_witness :
  let _ := numeric_runtime in
  let st := state_of settled_log in
  status (response (deleteTransaction st "1")) = 200
  ∧ response (deleteTransaction (state (deleteTransaction st "1")) "1")
    = mkResponse 404 (JError "Transaction not found")
  ∧ state (deleteTransaction (state (deleteTransaction st "1")) "1")
    = state (deleteTransaction st "1").
Proof.
  intros rt st. split; [reflexivity|].
  apply (@deleteTransaction_twice rt st "1"). reflexivity.
Defined.

Lemma sql_signed_sum_filter (P Q : Transaction.t → Prop)
    `{∀ tx, Decision (P tx)} `{∀ tx, Decision (Q tx)} (log : list Transaction.t) :
  sql_signed_sum (λ tx, P tx ∧ Q tx) log = sql_signed_sum P (filter Q log).
Proof.
  unfold sql_signed_sum.
  assert (Hf : filter (λ tx, P tx ∧ Q tx) log = filter P (filter Q log));
    [|now rewrite Hf].
  induction log as [|tx log IH]; [reflexivity|].
  rewrite !filter_cons.
  destruct (decide (Q tx)) as [HQ|HQ].
  - rewrite filter_cons. destruct (decide (P tx)) as [HP|HP].
    + rewrite decide_True by tauto. now rewrite IH.
    + rewrite decide_False by tauto. exact IH.
  - rewrite decide_False by tauto. exact IH.
Qed.

Lemma filter_ids_irrelevant (log : list Transaction.t) (tx : Transaction.t) :
  Transaction.id tx ∉ Transaction.id <$> log →
  filter (λ x, Transaction.id x ≠ Transaction.id tx) log = log.
Proof.
  induction log as [|y log IH]; intros Hno; [reflexivity|].
  rewrite fmap_cons in Hno. apply not_elem_of_cons in Hno as [Hne Hno].
  rewrite filter_cons, decide_True by congruence. now rewrite IH.
Qed.

Lemma B_remove (log : list Transaction.t) (tx : Transaction.t) (t : Z) :
  NoDup (Transaction.id <$> log) →
  tx ∈ log →
  (B (filter (λ x, Transaction.id x ≠ Transaction.id tx) log) t + B [tx] t)%Qc
  = B log t.
Proof.
  induction log as [|y log IH]; intros Hnd Hin; [now apply elem_of_nil in Hin|].
  rewrite fmap_cons in Hnd. apply NoDup_cons in Hnd as [Hy Hnd].
  rewrite filter_cons.
  change (B (y :: log) t) with (B ([y] ++ log) t). rewrite B_app.
  destruct (decide (Transaction.id y ≠ Transaction.id tx)) as [Hne|Heq].
  - apply elem_of_cons in Hin as [->|Hin]; [congruence|].
    change (B (y :: filter (λ x, Transaction.id x ≠ Transaction.id tx) log) t)
      with (B ([y] ++ filter (λ x, Transaction.id x ≠ Transaction.id tx) log) t).
    rewrite B_app, <- (IH Hnd Hin). ring.
  - assert (Hid : Transaction.id y = Transaction.id tx).
    { destruct (decide (Transaction.id y = Transaction.id tx)); tauto. }
    assert (y = tx) as ->.
    { apply elem_of_cons in Hin as [->|Hin]; [reflexivity|].
      exfalso. apply Hy. rewrite Hid. now apply list_elem_of_fmap_2. }
    rewrite (filter_ids_irrelevant log tx Hy). ring.
Qed.

(** X11.  On a ledger of whole amounts with magnitudes adding up to
    less than 2^53, the balance that excludes a transaction is the
    balance of the log once that transaction is deleted; with unique
    ids, for a transaction of the log it is the balance B less the
    transaction's own signed amount when its timestamp is at or before
    the instant, and the balance B itself when its timestamp is
    later. *)
Theorem getBalanceExcludingTransaction_own (d : Db) (tx : Transaction.t) (t : Z) :
  exact_ledger (transactions d) →
  NoDup (Transaction.id <$> transactions d) →
  tx ∈ transactions d →
  getBalanceExcludingTransaction d t (Transaction.id tx)
  = B (transactions (transaction_delete d (Transaction.id tx))) t
  ∧ getBalanceExcludingTransaction d t (Transaction.id tx)
    = if decide (Transaction.timestamp tx ≤ t)
      then (B (transactions d) t - signed_amount tx)%Qc
      else B (transactions d) t.
Proof.
  intros Hex Hnd Hin.
  assert (Hdel : getBalanceExcludingTransaction d t (Transaction.id tx)
                 = B (filter (λ x, Transaction.id x ≠ Transaction.id tx)
                             (transactions d)) t).
  { unfold getBalanceExcludingTransaction.
    rewrite (sql_signed_sum_filter
               (λ x, Transaction.timestamp x ≤ t)
               (λ x, Transaction.id x ≠ Transaction.id tx)).
    apply sql_signed_sum_upto. now apply exact_ledger_filter. }
  split; [exact Hdel|]. rewrite Hdel.
  rewrite <- (B_remove (transactions d) tx t Hnd Hin).
  case_decide as Ht.
  - simpl. rewrite (proj2 (Z.leb_le _ _) Ht). unfold signed_amount.
    destruct (Transaction.type tx); ring.
  - rewrite B_later by lia. ring.
Qed.

Lemma getBalanceExcludingTransaction_own_witness :
  let d := db_of settled_log in
  let tx := Transaction.mk 2 day2 OUT (Qc_of_Z 100) in
  exact_ledger (transactions d)
  ∧ NoDup (Transaction.id <$> transactions d)
  ∧ tx ∈ transactions d
  ∧ B (transactions d) day2 = Q2Qc 0
  ∧ getBalanceExcludingTransaction d day2 2 = Q2Qc 100
  ∧ getBalanceExcludingTransaction d day2 2
    = (B (transactions d) day2 - signed_amount tx)%Qc.
Proof.
  intros d tx.
  assert (Hex : exact_ledger (transactions d))
    by (apply exact_ledger_decide; reflexivity).
  assert (Hnd : NoDup (Transaction.id <$> transactions d)).
  { apply (bool_decide_unpack _). vm_compute. exact I. }
  assert (Hin : tx ∈ transactions d).
  { subst d tx. simpl. set_solver. }
  split; [exact Hex|]. split; [exact Hnd|]. split; [exact Hin|].
  split; [now apply Qc_is_canon|]. split; [now apply Qc_is_canon|].
  destruct (getBalanceExcludingTransaction_own d tx day2 Hex Hnd Hin)
    as [_ Hval].
  rewrite decide_True in Hval by (vm_compute; discriminate). exact Hval.
Defined.

(** ** Further properties of the detector and the recalculator *)

(** X12.  The detector is idempotent, and with timestamps pairwise
    distinct its markers depend on the rows alone, not on the order in
    which the table holds them: with ids unique and none 0, a second run
    on its own result returns that result, and every database whose log
    is a rearrangement of this log gets the same marker table, whatever
    markers it held before. *)
Theorem markInvalidTransactions_idempotent (d d' : Db) :
  NoDup (Transaction.id <$> transactions d) →
  Forall (λ tx, Transaction.id tx ≠ 0) (transactions d) →
  NoDup (Transaction.timestamp <$> transactions d) →
  markInvalidTransactions d = Some d' →
  markInvalidTransactions d' = Some d'
  ∧ ∀ d2, Permutation (transactions d2) (transactions d) →
      invalidTransactions <$> markInvalidTransactions d2
      = Some (invalidTransactions d').
Proof.
  intros Hnd Hpos Hts Hrun.
  rewrite (markInvalidTransactions_scan d Hnd Hpos) in Hrun.
  injection Hrun as <-. split.
  - now rewrite markInvalidTransactions_scan.
  - intros d2 Hperm.
    rewrite markInvalidTransactions_scan by now rewrite Hperm.
    simpl. do 2 f_equal.
    apply (sorted_unique Transaction.timestamp).
    + now rewrite (sort_by_Permutation Transaction.timestamp), Hperm.
    + now rewrite !(sort_by_Permutation Transaction.timestamp).
    + apply sort_by_sorted.
    + apply sort_by_sorted.
Qed.

Lemma markInvalidTransactions_idempotent_witness :
  let d := db_of overdraft_log in
  let d' := mkDb overdraft_log 3
              [InvalidTransaction.mk 2 "Would result in negative balance: -50.00"]
              ∅ in
  markInvalidTransactions d = Some d'
  ∧ markInvalidTransactions d' = Some d'
  ∧ invalidTransactions <$> markInvalidTransactions (db_of (rev overdraft_log))
    = Some (invalidTransactions d').
Proof.
  intros d d'. split; [reflexivity|].
  destruct (markInvalidTransactions_idempotent d d') as [Hidem Hperm].
  - apply (bool_decide_unpack _). vm_compute. exact I.
  - apply (bool_decide_unpack _). vm_compute. exact I.
  - apply (bool_decide_unpack _). vm_compute. exact I.
  - reflexivity.
  - split; [exact Hidem|]. apply Hperm. apply perm_swap.
Defined.

Lemma detect_sublist (running : Qc) (scan : list Transaction.t) :
  InvalidTransaction.transactionId <$> detect running scan
    `sublist_of` Transaction.id <$> scan.
Proof.
  revert running. induction scan as [|txn scan IH]; intros running; simpl;
    [constructor|].
  case_bool_decide.
  - rewrite fmap_cons. simpl. apply sublist_skip, IH.
  - apply sublist_cons, IH.
Qed.

Lemma detect_only_out (running : Qc) (scan : list Transaction.t)
    (m : InvalidTransaction.t) :
  (0 ≤ running)%Qc →
  Forall (λ tx, (0 ≤ Transaction.amount tx)%Qc) scan →
  m ∈ detect running scan →
  ∃ tx, tx ∈ scan
        ∧ Transaction.id tx = InvalidTransaction.transactionId m
        ∧ Transaction.type tx = OUT.
Proof.
  intros Hr Hall. revert running Hr.
  induction Hall as [|txn scan Hamt _ IH]; intros running Hr; simpl.
  - intros Hin. now apply elem_of_nil in Hin.
  - case_bool_decide as Hneg.
    + intros [->|Hin]%elem_of_cons.
      * exists txn. split; [now left|]. split; [reflexivity|].
        unfold prospective_balance in Hneg.
        destruct (Transaction.type txn); [|reflexivity].
        exfalso. eapply Qclt_not_le; [exact Hneg|].
        now apply fadd_nonneg.
      * destruct (IH 0%Qc (Qcle_refl _) Hin) as (tx & ? & ? & ?).
        exists tx. split; [now right|auto].
    + intros Hin. apply Qcnot_lt_le in Hneg.
      destruct (IH _ Hneg Hin) as (tx & ? & ? & ?).
      exists tx. split; [now right|auto].
Qed.

(** X13.  The marker table the detector writes has at most one marker
    per transaction and every marker names a transaction of the log
    (ids unique and none 0); when no amount in the log is negative,
    every marked transaction is an OUT. *)
Theorem markInvalidTransactions_markers (d d' : Db) :
  NoDup (Transaction.id <$> transactions d) →
  Forall (λ tx, Transaction.id tx ≠ 0) (transactions d) →
  markInvalidTransactions d = Some d' →
  NoDup (InvalidTransaction.transactionId <$> invalidTransactions d')
  ∧ (∀ m, m ∈ invalidTransactions d' →
       InvalidTransaction.transactionId m ∈ Transaction.id <$> transactions d)
  ∧ (Forall (λ tx, (0 ≤ Transaction.amount tx)%Qc) (transactions d) →
     ∀ m, m ∈ invalidTransactions d' →
       ∃ tx, tx ∈ transactions d
             ∧ Transaction.id tx = InvalidTransaction.transactionId m
             ∧ Transaction.type tx = OUT).
Proof.
  intros Hnd Hpos Hrun.
  rewrite (markInvalidTransactions_scan d Hnd Hpos) in Hrun.
  injection Hrun as <-. cbn [invalidTransactions].
  pose proof (sort_by_Permutation Transaction.timestamp (transactions d)) as Hperm.
  split; [|split].
  - eapply sublist_NoDup; [|apply detect_sublist]. now rewrite Hperm.
  - intros m Hin%detect_ids. now rewrite Hperm in Hin.
  - intros Hamt m Hin.
    destruct (detect_only_out 0%Qc
                (sort_by Transaction.timestamp (transactions d)) m
                (Qcle_refl _)) as (tx & Htx & ? & ?);
      [now rewrite Hperm|exact Hin|].
    exists tx. split; [now rewrite Hperm in Htx|auto].
Qed.

Lemma markInvalidTransactions_markers_witness :
  let d := db_of overdraft_log in
  let d' := mkDb overdraft_log 3
              [InvalidTransaction.mk 2 "Would result in negative balance: -50.00"]
              ∅ in
  markInvalidTransactions d = Some d'
  ∧ NoDup (InvalidTransaction.transactionId <$> invalidTransactions d')
  ∧ (∀ m, m ∈ invalidTransactions d' →
       InvalidTransaction.transactionId m ∈ Transaction.id <$> transactions d).
Proof.
  intros d d'. split; [reflexivity|].
  assert (Hnd : NoDup (Transaction.id <$> transactions d)).
  { apply (bool_decide_unpack _). vm_compute. exact I. }
  assert (Hpos : Forall (λ tx, Transaction.id tx ≠ 0) (transactions d)).
  { apply (bool_decide_unpack _). vm_compute. exact I. }
  destruct (markInvalidTransactions_markers d d' Hnd Hpos eq_refl) as (H1 & H2 & _).
  split; [exact H1|exact H2].
Defined.

Lemma prospective_exact_signed (running : Qc) (txn : Transaction.t) :
  prospective_exact running txn = (running + signed_amount txn)%Qc.
Proof.
  unfold prospective_exact, signed_amount.
  destruct (Transaction.type txn); ring.
Qed.

Lemma marked_exact_nil_prefixes (running : Qc) (scan : list Transaction.t) :
  (0 ≤ running)%Qc →
  marked_exact running scan = []
  ↔ ∀ n, (0 ≤ running + sum_Qc (signed_amount <$> take n scan))%Qc.
Proof.
  revert running. induction scan as [|txn scan IH]; intros running Hr.
  - split; [|reflexivity]. intros _ n. rewrite take_nil. simpl.
    now rewrite Qcplus_0_r.
  - cbn [marked_exact]. rewrite prospective_exact_signed.
    case_bool_decide as Hneg.
    + split; [discriminate|]. intros Hall. exfalso.
      specialize (Hall 1%nat). cbn in Hall. rewrite Qcplus_0_r in Hall.
      eapply Qclt_not_le; eassumption.
    + apply Qcnot_lt_le in Hneg. rewrite (IH _ Hneg). split.
      * intros Hall [|n]; [simpl; now rewrite Qcplus_0_r|].
        specialize (Hall n). cbn [take]. rewrite fmap_cons, sum_Qc_cons.
        now rewrite Qcplus_assoc.
      * intros Hall n. specialize (Hall (S n)).
        cbn [take] in Hall. rewrite fmap_cons, sum_Qc_cons in Hall.
        now rewrite Qcplus_assoc in Hall.
Qed.

(** X14.  On a ledger of whole amounts with magnitudes adding up to
    less than 2^53, with ids unique and none 0 and timestamps pairwise
    distinct, the detector leaves the marker table empty exactly when,
    in chronological order, no prefix of the log has a negative signed
    sum. *)
Theorem markInvalidTransactions_none (d d' : Db) (scan : list Transaction.t) :
  exact_ledger (transactions d) →
  NoDup (Transaction.id <$> transactions d) →
  Forall (λ tx, Transaction.id tx ≠ 0) (transactions d) →
  NoDup (Transaction.timestamp <$> transactions d) →
  Permutation scan (transactions d) →
  StronglySorted (key_le Transaction.timestamp) scan →
  markInvalidTransactions d = Some d' →
  invalidTransactions d' = []
  ↔ ∀ n, (0 ≤ sum_Qc (signed_amount <$> take n scan))%Qc.
Proof.
  intros Hex Hnd Hpos Hts Hperm Hsorted Hrun.
  assert (Hscan : scan = sort_by Transaction.timestamp (transactions d)).
  { apply (sorted_unique Transaction.timestamp).
    - now rewrite Hperm.
    - now rewrite Hperm, (sort_by_Permutation Transaction.timestamp).
    - exact Hsorted.
    - apply sort_by_sorted. }
  rewrite (markInvalidTransactions_scan d Hnd Hpos) in Hrun.
  injection Hrun as <-. cbn [invalidTransactions]. rewrite <- Hscan.
  apply (exact_ledger_Permutation _ scan) in Hex; [|now symmetry].
  destruct Hex as [Hw Hb].
  assert (Hids : InvalidTransaction.transactionId <$> detect 0%Qc scan
                 = marked_exact 0%Qc scan).
  { rewrite <- Z2Qc_inj_0. apply detect_marked_exact; [exact Hw|].
    change (Z.abs 0) with 0. lia. }
  transitivity (marked_exact 0%Qc scan = []).
  - rewrite <- Hids. split; [now intros ->|apply fmap_nil_inv].
  - rewrite (marked_exact_nil_prefixes 0%Qc scan (Qcle_refl _)).
    split; intros Hall n; specialize (Hall n); now rewrite Qcplus_0_l in *.
Qed.

Lemma markInvalidTransactions_none_witness :
  let d := db_of settled_log in
  exact_ledger (transactions d)
  ∧ NoDup (Transaction.id <$> transactions d)
  ∧ Forall (λ tx, Transaction.id tx ≠ 0) (transactions d)
  ∧ NoDup (Transaction.timestamp <$> transactions d)
  ∧ StronglySorted (key_le Transaction.timestamp) settled_log
  ∧ markInvalidTransactions d = Some d
  ∧ (invalidTransactions d = []
     ↔ ∀ n, (0 ≤ sum_Qc (signed_amount <$> take n settled_log))%Qc).
Proof.
  intros d.
  assert (Hex : exact_ledger (transactions d))
    by (apply exact_ledger_decide; reflexivity).
  assert (Hnd : NoDup (Transaction.id <$> transactions d)).
  { apply (bool_decide_unpack _). vm_compute. exact I. }
  assert (Hpos : Forall (λ tx, Transaction.id tx ≠ 0) (transactions d)).
  { apply (bool_decide_unpack _). vm_compute. exact I. }
  assert (Hts : NoDup (Transaction.timestamp <$> transactions d)).
  { apply (bool_decide_unpack _). vm_compute. exact I. }
  assert (Hsorted : StronglySorted (key_le Transaction.timestamp) settled_log).
  { repeat constructor. unfold key_le. simpl. vm_compute. discriminate. }
  split; [exact Hex|]. split; [exact Hnd|]. split; [exact Hpos|].
  split; [exact Hts|]. split; [exact Hsorted|]. split; [reflexivity|].
  exact (markInvalidTransactions_none d d settled_log Hex Hnd Hpos Hts
           (Permutation_refl _) Hsorted eq_refl).
Defined.

(** X15.  recalculateFromTimestamp is idempotent: with ids unique and
    none 0, running it again from the same instant at the same time on
    its own result returns that result, in every time zone. *)
Theorem recalculateFromTimestamp_idempotent `{TimeZone} (now : Z) (d d' : Db)
    (t : Z) :
  NoDup (Transaction.id <$> transactions d) →
  Forall (λ tx, Transaction.id tx ≠ 0) (transactions d) →
  recalculateFromTimestamp now d t = Some d' →
  recalculateFromTimestamp now d' t = Some d'.
Proof.
  intros Hnd Hpos Hrun.
  destruct (affectedDates now t) as [dates|] eqn:Hdates;
    [|unfold recalculateFromTimestamp in Hrun; now rewrite Hdates in Hrun].
  rewrite (recalculateFromTimestamp_result now d t dates Hnd Hpos Hdates) in Hrun.
  injection Hrun as <-.
  rewrite (recalculateFromTimestamp_result _ _ _ dates) by assumption.
  cbn [transactions transaction_seq dailySummaries]. do 2 f_equal.
  apply map_eq. intros date. rewrite !fold_upsert_lookup.
  now destruct (last _).
Qed.

Lemma recalculateFromTimestamp_idempotent_witness :
  let _ := utc in
  let d := db_of overdraft_log in
  NoDup (Transaction.id <$> transactions d)
  ∧ Forall (λ tx, Transaction.id tx ≠ 0) (transactions d)
  ∧ ∃ d', recalculateFromTimestamp (3 * DAY + 5) d (day1 + 77) = Some d'
          ∧ recalculateFromTimestamp (3 * DAY + 5) d' (day1 + 77) = Some d'.
Proof.
  intros tz d.
  assert (Hutc : is_utc) by (intros t b; reflexivity).
  assert (Hnd : NoDup (Transaction.id <$> transactions d)).
  { apply (bool_decide_unpack _). vm_compute. exact I. }
  assert (Hpos : Forall (λ tx, Transaction.id tx ≠ 0) (transactions d)).
  { apply (bool_decide_unpack _). vm_compute. exact I. }
  split; [exact Hnd|]. split; [exact Hpos|].
  pose proof (recalculateFromTimestamp_result (3 * DAY + 5) d (day1 + 77) _
                Hnd Hpos (affectedDates_days Hutc _ _)) as Hrun.
  eexists. split; [exact Hrun|].
  exact (recalculateFromTimestamp_idempotent (3 * DAY + 5) d _ (day1 + 77)
           Hnd Hpos Hrun).
Defined.

(** The balance at the end of a day is the balance at the end of the
    day before, plus the IN amounts and minus the OUT amounts of the
    day. *)
Lemma B_chain (log : list Transaction.t) (k : Z) :
  B log (end_of_day k)
  = (B log (end_of_day (k - 1)) + amount_of_type IN k log
     - amount_of_type OUT k log)%Qc.
Proof.
  unfold amount_of_type, end_of_day.
  replace (k - 1 + 1) with k by lia.
  assert (Hday : 0 < DAY) by (unfold DAY; lia).
  induction log as [|tx log IH]; [simpl; ring|].
  cbn [B]. rewrite !filter_cons.
  destruct (Z.leb_spec (Transaction.timestamp tx) (k * DAY - 1)) as [Hlt|Hge].
  - rewrite (proj2 (Z.leb_le _ _)) by lia.
    rewrite !decide_False by (unfold in_day; lia).
    destruct (Transaction.type tx); rewrite IH; ring.
  - destruct (Z.leb_spec (Transaction.timestamp tx) ((k + 1) * DAY - 1))
      as [Hin|Hout].
    + destruct (Transaction.type tx) eqn:Hty.
      * rewrite decide_True by (unfold in_day; split; [reflexivity|lia]).
        rewrite decide_False by (intros [? _]; discriminate).
        rewrite fmap_cons, sum_Qc_cons, IH. ring.
      * rewrite decide_False by (intros [? _]; discriminate).
        rewrite decide_True by (unfold in_day; split; [reflexivity|lia]).
        rewrite fmap_cons, sum_Qc_cons, IH. ring.
    + rewrite !decide_False by (unfold in_day; lia). exact IH.
Qed.

(** X16.  For a process in UTC and a ledger of whole amounts with
    magnitudes adding up to less than 2^53, the daily rows chain after
    a recalculation: for two consecutive days of the recalculated
    window, the balance of the later day is the balance of the earlier
    day plus the later day's inAmount minus its outAmount. *)
Theorem recalculateFromTimestamp_chain `{TimeZone} (now : Z) (d d' : Db)
    (t k : Z) (today yesterday : DailySummary.t) :
  is_utc →
  exact_ledger (transactions d) →
  NoDup (Transaction.id <$> transactions d) →
  Forall (λ tx, Transaction.id tx ≠ 0) (transactions d) →
  recalculateFromTimestamp now d t = Some d' →
  t / DAY ≤ k - 1 → k ≤ now / DAY →
  dailySummaries d' !! ((k - 1) * DAY) = Some yesterday →
  dailySummaries d' !! (k * DAY) = Some today →
  DailySummary.balance today
  = (DailySummary.balance yesterday + DailySummary.inAmount today
     - DailySummary.outAmount today)%Qc.
Proof.
  intros Hutc Hex Hnd Hpos Hrun Hlo Hhi Hy Ht.
  rewrite (recalculateFromTimestamp_result now d t _ Hnd Hpos
             (affectedDates_days Hutc _ _)) in Hrun.
  injection Hrun as <-. cbn [dailySummaries] in Hy, Ht.
  rewrite fold_upsert_lookup, filter_days in Hy, Ht.
  rewrite decide_True in Hy by lia. rewrite decide_True in Ht by lia.
  cbn [last] in Hy, Ht.
  rewrite (daily_summary_of_day Hutc) in Hy, Ht by exact Hex.
  injection Hy as <-. injection Ht as <-.
  cbn [summary_of_day DailySummary.balance DailySummary.inAmount
       DailySummary.outAmount].
  apply B_chain.
Qed.

Lemma recalculateFromTimestamp_chain_witness :
  let _ := utc in
  let d := db_of overdraft_log in
  ∃ d' today yesterday,
    recalculateFromTimestamp (3 * DAY + 5) d (day1 + 77) = Some d'
    ∧ dailySummaries d' !! ((2 - 1) * DAY) = Some yesterday
    ∧ dailySummaries d' !! (2 * DAY) = Some today
    ∧ DailySummary.balance today = Q2Qc (-50)
    ∧ DailySummary.balance today
      = (DailySummary.balance yesterday + DailySummary.inAmount today
         - DailySummary.outAmount today)%Qc.
Proof.
  intros tz d.
  assert (Hutc : is_utc) by (intros t b; reflexivity).
  assert (Hex : exact_ledger (transactions d))
    by (apply exact_ledger_decide; reflexivity).
  assert (Hnd : NoDup (Transaction.id <$> transactions d)).
  { apply (bool_decide_unpack _). vm_compute. exact I. }
  assert (Hpos : Forall (λ tx, Transaction.id tx ≠ 0) (transactions d)).
  { apply (bool_decide_unpack _). vm_compute. exact I. }
  pose proof (recalculateFromTimestamp_result (3 * DAY + 5) d (day1 + 77) _
                Hnd Hpos (affectedDates_days Hutc _ _)) as Hrun.
  eexists _, (daily_summary overdraft_log (2 * DAY)),
             (daily_summary overdraft_log ((2 - 1) * DAY)).
  split; [exact Hrun|]. cbn [dailySummaries].
  assert (Hy : fold_left (upsert_summary (transactions d))
                 ((λ i, i * DAY)
                    <$> seqZ ((day1 + 77) / DAY)
                             ((3 * DAY + 5) / DAY - (day1 + 77) / DAY + 1))
                 (dailySummaries d)
                 !! ((2 - 1) * DAY)
               = Some (daily_summary overdraft_log ((2 - 1) * DAY)))
    by (rewrite fold_upsert_lookup; reflexivity).
  assert (Ht : fold_left (upsert_summary (transactions d))
                 ((λ i, i * DAY)
                    <$> seqZ ((day1 + 77) / DAY)
                             ((3 * DAY + 5) / DAY - (day1 + 77) / DAY + 1))
                 (dailySummaries d)
                 !! (2 * DAY)
               = Some (daily_summary overdraft_log (2 * DAY)))
    by (rewrite fold_upsert_lookup; reflexivity).
  split; [exact Hy|]. split; [exact Ht|].
  split; [apply Qc_is_canon; reflexivity|].
  eapply (recalculateFromTimestamp_chain (3 * DAY + 5) d _ (day1 + 77) 2
            _ _ Hutc Hex Hnd Hpos Hrun).
  - vm_compute. discriminate.
  - vm_compute. discriminate.
  - exact Hy.
  - exact Ht.
Defined.

(** ** Further properties of the statistics *)

Lemma Qc_max_l (x y : Qc) : (x ≤ Qc_max x y)%Qc.
Proof.
  unfold Qc_max. case_bool_decide; [now apply Qclt_le_weak|apply Qcle_refl].
Qed.

Lemma Qc_max_r (x y : Qc) : (y ≤ Qc_max x y)%Qc.
Proof.
  unfold Qc_max. case_bool_decide; [apply Qcle_refl|now apply Qcnot_lt_le].
Qed.

Lemma Qc_min_l (x y : Qc) : (Qc_min x y ≤ x)%Qc.
Proof.
  unfold Qc_min. case_bool_decide; [now apply Qclt_le_weak|apply Qcle_refl].
Qed.

Lemma Qc_min_r (x y : Qc) : (Qc_min x y ≤ y)%Qc.
Proof.
  unfold Qc_min. case_bool_decide; [apply Qcle_refl|now apply Qcnot_lt_le].
Qed.

Lemma Qc_list_max_upper (l : list Qc) (y : Qc) :
  y ∈ l → (y ≤ default 0%Qc (Qc_list_max l))%Qc.
Proof.
  destruct l as [|x rest]; [intros Hin; now apply elem_of_nil in Hin|].
  cbn [Qc_list_max default]. revert y.
  induction rest as [|z rest IH]; intros y Hin; cbn [foldr].
  - apply list_elem_of_singleton in Hin as ->. apply Qcle_refl.
  - apply elem_of_cons in Hin as [->|Hin].
    + eapply Qcle_trans; [apply IH; now left|apply Qc_max_r].
    + apply elem_of_cons in Hin as [->|Hin]; [apply Qc_max_l|].
      eapply Qcle_trans; [apply IH; now right|apply Qc_max_r].
Qed.

Lemma Qc_list_min_lower (l : list Qc) (y : Qc) :
  y ∈ l → (default 0%Qc (Qc_list_min l) ≤ y)%Qc.
Proof.
  destruct l as [|x rest]; [intros Hin; now apply elem_of_nil in Hin|].
  cbn [Qc_list_min default]. revert y.
  induction rest as [|z rest IH]; intros y Hin; cbn [foldr].
  - apply list_elem_of_singleton in Hin as ->. apply Qcle_refl.
  - apply elem_of_cons in Hin as [->|Hin].
    + eapply Qcle_trans; [apply Qc_min_r|apply IH; now left].
    + apply elem_of_cons in Hin as [->|Hin]; [apply Qc_min_l|].
      eapply Qcle_trans; [apply Qc_min_r|apply IH; now right].
Qed.

Lemma aggregate_counts (log : list Transaction.t) :
  (length (filter (λ tx, Transaction.type tx = IN) log)
   + length (filter (λ tx, Transaction.type tx = OUT) log))%nat = length log.
Proof.
  induction log as [|tx log IH]; [reflexivity|].
  rewrite !filter_cons. destruct (Transaction.type tx) eqn:Hty.
  - rewrite decide_True, decide_False by congruence. simpl. lia.
  - rewrite decide_False, decide_True by congruence. simpl. lia.
Qed.

Lemma aggregate_balance (log : list Transaction.t) (t : Z) :
  Forall (λ tx, Transaction.timestamp tx ≤ t) log →
  (sum_Qc (Transaction.amount <$> filter (λ tx, Transaction.type tx = IN) log)
   - sum_Qc (Transaction.amount <$> filter (λ tx, Transaction.type tx = OUT) log))%Qc
  = B log t.
Proof.
  induction 1 as [|tx log Htx _ IH]; [simpl; ring|].
  rewrite !filter_cons. cbn [B]. rewrite (proj2 (Z.leb_le _ _) Htx).
  destruct (Transaction.type tx) eqn:Hty.
  - rewrite decide_True, decide_False by congruence.
    rewrite fmap_cons, sum_Qc_cons, <- IH. ring.
  - rewrite decide_False, decide_True by congruence.
    rewrite fmap_cons, sum_Qc_cons, <- IH. ring.
Qed.

Lemma Zsum_abs_by_type (log : list Transaction.t) :
  Zsum_abs (Transaction.amount <$> filter (λ tx, Transaction.type tx = IN) log)
  + Zsum_abs (Transaction.amount <$> filter (λ tx, Transaction.type tx = OUT) log)
  = Zsum_abs (Transaction.amount <$> log).
Proof.
  induction log as [|tx log IH]; [reflexivity|].
  rewrite !filter_cons, fmap_cons, Zsum_abs_cons.
  destruct (Transaction.type tx) eqn:Hty.
  - rewrite decide_True, decide_False by congruence.
    rewrite fmap_cons, Zsum_abs_cons. lia.
  - rewrite decide_False, decide_True by congruence.
    rewrite fmap_cons, Zsum_abs_cons. lia.
Qed.

(** On an exact ledger the totals of the two types and their difference
    round nothing. *)
Lemma aggregate_balance_exact (log : list Transaction.t) :
  exact_ledger log →
  fsub (totalAmount (aggregate IN log)) (totalAmount (aggregate OUT log))
  = (sum_Qc (Transaction.amount <$> filter (λ tx, Transaction.type tx = IN) log)
     - sum_Qc (Transaction.amount
                 <$> filter (λ tx, Transaction.type tx = OUT) log))%Qc.
Proof.
  intros Hex. unfold aggregate. cbn [totalAmount].
  destruct (float8_sum_column Transaction.amount
              (filter (λ tx, Transaction.type tx = IN) log))
    as (Hin & a & Ha & Hab);
    [intros tx Hw; split; [exact Hw|reflexivity]
    |now apply exact_ledger_filter|].
  destruct (float8_sum_column Transaction.amount
              (filter (λ tx, Transaction.type tx = OUT) log))
    as (Hout & b & Hb & Hbb);
    [intros tx Hw; split; [exact Hw|reflexivity]
    |now apply exact_ledger_filter|].
  rewrite Hin, Hout, Ha, Hb.
  pose proof (Zsum_abs_by_type log) as Hsplit. destruct Hex as [_ Hbound].
  rewrite fsub_Qc_of_Z by lia. apply Z2Qc_inj_sub.
Qed.

(** X18.  Statistics computed from the table (the cache holds no
    statistics, or rejects its commands) are consistent with the log:
    the IN and OUT counts add up to the total count, and every amount
    lies between the minAmount and the maxAmount of its type; on a
    ledger of whole amounts with magnitudes adding up to less than
    2^53, currentBalance is the balance B at any instant not before the
    last timestamp. *)
Theorem getTransactionStats_fresh (st : State) :
  connected (redis st) = false ∨ transaction_stats (redis st) = None →
  ∃ stats,
    (getTransactionStats st).2 = mkResponse 200 (JStats stats)
    ∧ totalTransactions stats
      = count (inTransactions stats) + count (outTransactions stats)
    ∧ totalTransactions stats = Z.of_nat (length (transactions (db st)))
    ∧ (exact_ledger (transactions (db st)) →
       ∀ t, Forall (λ tx, Transaction.timestamp tx ≤ t) (transactions (db st)) →
         currentBalance stats = B (transactions (db st)) t)
    ∧ (∀ tx, tx ∈ transactions (db st) →
         let s := match Transaction.type tx with
                  | IN => inTransactions stats
                  | OUT => outTransactions stats
                  end in
         (minAmount s ≤ Transaction.amount tx)%Qc
         ∧ (Transaction.amount tx ≤ maxAmount s)%Qc).
Proof.
  intros Hmiss.
  assert (Hcached : (if connected (redis st) then transaction_stats (redis st)
                     else None) = None).
  { destruct Hmiss as [-> | ->]; [reflexivity|now destruct (connected _)]. }
  unfold getTransactionStats. rewrite Hcached.
  eexists. split; [reflexivity|].
  cbn [totalTransactions inTransactions outTransactions currentBalance].
  split; [|split; [reflexivity|split]].
  - unfold aggregate. cbn [count]. rewrite !length_fmap.
    rewrite <- Nat2Z.inj_add. now rewrite aggregate_counts.
  - intros Hex t Hall. rewrite aggregate_balance_exact by exact Hex.
    now apply aggregate_balance.
  - intros tx Hin. unfold aggregate.
    assert (Hmem : Transaction.amount tx
              ∈ Transaction.amount
                  <$> filter (λ x, Transaction.type x = Transaction.type tx)
                             (transactions (db st))).
    { apply list_elem_of_fmap_2, list_elem_of_filter. now split. }
    destruct (Transaction.type tx); cbn [minAmount maxAmount];
      (split; [now apply Qc_list_min_lower|now apply Qc_list_max_upper]).
Qed.

Lemma getTransactionStats_fresh_witness :
  let st := state_of settled_log in
  (connected (redis st) = false ∨ transaction_stats (redis st) = None)
  ∧ exact_ledger (transactions (db st))
  ∧ ∃ stats,
      (getTransactionStats st).2 = mkResponse 200 (JStats stats)
      ∧ totalTransactions stats = 2
      ∧ currentBalance stats = B (transactions (db st)) day2.
Proof.
  intros st.
  assert (Hmiss : connected (redis st) = false ∨ transaction_stats (redis st) = None)
    by now right.
  assert (Hex : exact_ledger (transactions (db st)))
    by (apply exact_ledger_decide; reflexivity).
  split; [exact Hmiss|]. split; [exact Hex|].
  destruct (getTransactionStats_fresh st Hmiss) as (stats & Hr & _ & Hn & Hb & _).
  exists stats. split; [exact Hr|]. split; [exact Hn|].
  apply (Hb Hex). apply (bool_decide_unpack _). vm_compute. exact I.
Defined.
(** * Listing *)

Lemma sort_by_lex {A} (key : A → Z) (S : A → A → Prop) (l : list A) :
  StronglySorted S l →
  StronglySorted (λ a b, key a < key b ∨ (key a = key b ∧ S a b)) (sort_by key l).
Proof.
  induction 1 as [|x l Hs IH Hall]; simpl; [constructor|].
  assert (Hall' : Forall (S x) (sort_by key l)).
  { now rewrite sort_by_Permutation. }
  clear Hs Hall. induction IH as [|y l' Hs' IH' Hy]; simpl.
  - repeat constructor.
  - apply Forall_cons in Hall' as [Hxy Hall'].
    destruct (Z.leb_spec (key x) (key y)) as [Hle|Hgt].
    + constructor; [now constructor|].
      constructor.
      * destruct (decide (key x = key y)); [right; auto|left; lia].
      * rewrite Forall_forall in Hy, Hall'. apply Forall_forall. intros z Hz.
        destruct (Hy z Hz) as [?|[? ?]];
          destruct (decide (key x = key z)); auto; left; lia.
    + constructor; [now apply IH'|].
      assert (Hperm : Permutation (insert_by key x l') (x :: l'))
        by apply insert_by_Permutation.
      rewrite Hperm. constructor; [left; lia|exact Hy].
Qed.

Lemma StronglySorted_weaken {A} (R S : A → A → Prop) (l : list A) :
  (∀ a b, R a b → S a b) → StronglySorted R l → StronglySorted S l.
Proof.
  intros HRS. induction 1 as [|x l _ IH Hall]; constructor; [exact IH|].
  eapply Forall_impl; [exact Hall|]. intros b. apply HRS.
Qed.

Lemma StronglySorted_sublist_of {A} (R : A → A → Prop) (l1 l2 : list A) :
  l1 `sublist_of` l2 → StronglySorted R l2 → StronglySorted R l1.
Proof.
  induction 1 as [|x l1 l2 Hsub IH|x l1 l2 Hsub IH]; intros Hs.
  - constructor.
  - apply StronglySorted_inv in Hs as [Hs Hall]. constructor; [auto|].
    rewrite Forall_forall in *. intros y Hy. apply Hall.
    eapply elem_of_sublist; eauto.
  - apply StronglySorted_inv in Hs as [Hs _]. auto.
Qed.

Lemma sublist_of_reverse {A} (l1 l2 : list A) :
  l1 `sublist_of` reverse l2 → reverse l1 `sublist_of` l2.
Proof.
  intros Hsub. rewrite <- (reverse_involutive l2).
  induction Hsub as [|x l1 l Hsub IH|x l1 l Hsub IH].
  - constructor.
  - rewrite !reverse_cons. now apply sublist_app.
  - rewrite reverse_cons. now apply sublist_inserts_r.
Qed.

Lemma newest_first_Permutation (log : list Transaction.t) :
  Permutation (newest_first log) log.
Proof. unfold newest_first. now rewrite !sort_by_Permutation. Qed.

Lemma newest_first_sorted (log : list Transaction.t) :
  StronglySorted newer (newest_first log).
Proof.
  unfold newest_first.
  eapply StronglySorted_weaken;
    [|apply sort_by_lex, (sort_by_sorted (λ tx, - Transaction.id tx))].
  intros a b [Hlt|[Heq Hid]]; unfold newer, key_le in *; [left|right]; lia.
Qed.

Lemma from_cursor_drop (c : Z) (l : list Transaction.t) :
  ∃ i, from_cursor c l = drop i l.
Proof.
  induction l as [|x l [i IH]]; [now exists 0%nat|]. simpl.
  case_bool_decide; [now exists 0%nat|now exists (S i)].
Qed.

Lemma after_cursor_drop (cursor : option Z) (l : list Transaction.t) :
  ∃ i, after_cursor cursor l = drop i l ∧ (cursor = None → i = 0%nat).
Proof.
  destruct cursor as [c|]; simpl.
  - destruct (from_cursor_drop c l) as [i ->]. exists (i + 1)%nat.
    now rewrite drop_drop.
  - now exists 0%nat.
Qed.

Lemma listing_row_txn (d : Db) (found : list Transaction.t) :
  Listing.txn <$> (listing_row d <$> found) = found.
Proof.
  rewrite <- list_fmap_compose. induction found as [|tx found IH]; [reflexivity|].
  rewrite fmap_cons, IH. reflexivity.
Qed.

Lemma getAllTransactions_found `{JsRuntime} (st : State) (query : Query.t)
    (take_n : Z) (found : list Transaction.t) :
  take_of (Query.limit query) = Some take_n →
  findMany_newest (transactions (db st)) (Some take_n)
                  (cursor_of (Query.cursor query)) = Some found →
  getAllTransactions st query
  = ((getInvalidTransactionCount st).1,
     let invalidCount := (getInvalidTransactionCount st).2 in
     if bool_decide (Z.of_nat (length found) = take_n)
     then match last found with
          | Some lastTxn =>
              Listed (Listing.mk (listing_row (db st) <$> found)
                                 (Some (Transaction.id lastTxn)) true invalidCount)
          | None => ListFailed 500 "Failed to fetch transactions"
          end
     else Listed (Listing.mk (listing_row (db st) <$> found) None false
                             invalidCount)).
Proof.
  intros Ht Hf. unfold getAllTransactions. rewrite Ht, Hf.
  destruct (getInvalidTransactionCount st) as [st1 n]. cbn [fst snd].
  case_bool_decide; [|reflexivity]. now destruct (last found).
Qed.

Lemma getAllTransactions_Listed `{JsRuntime} (st : State) (query : Query.t)
    (body : Listing.t) :
  (getAllTransactions st query).2 = Listed body →
  ∃ take_n found,
    take_of (Query.limit query) = Some take_n
    ∧ findMany_newest (transactions (db st)) (Some take_n)
                      (cursor_of (Query.cursor query)) = Some found.
Proof.
  unfold getAllTransactions.
  destruct (take_of (Query.limit query)) as [take_n|]; [|discriminate].
  destruct (findMany_newest _ _ _) as [found|] eqn:Hfound; [|discriminate].
  intros _. exists take_n, found. split; [reflexivity|exact Hfound].
Qed.

Lemma getInvalidTransactionCount_db (st : State) :
  db (getInvalidTransactionCount st).1 = db st.
Proof.
  unfold getInvalidTransactionCount.
  destruct (connected (redis st)); [|reflexivity].
  now destruct (invalid_transaction_count (redis st)).
Qed.

Lemma take_of_le `{JsRuntime} (limit : option string) (take_n : Z) :
  take_of limit = Some take_n → take_n ≤ 100.
Proof.
  unfold take_of. destruct limit as [s|].
  - destruct (parseInt_string s) as [n|]; [|discriminate].
    intros [= <-]. lia.
  - intros [= <-]. lia.
Qed.

Lemma findMany_newest_sublist (log : list Transaction.t) (n : Z)
    (cursor : option (option Z)) (found : list Transaction.t) :
  findMany_newest log (Some n) cursor = Some found →
  found `sublist_of` newest_first log ∧ Z.of_nat (length found) ≤ Z.abs n.
Proof.
  unfold findMany_newest. destruct (fits_BIGINT n); [|discriminate]. cbn [negb].
  assert (Hfwd : ∀ c, take (Z.to_nat n) (after_cursor c (newest_first log))
                      `sublist_of` newest_first log).
  { intros c. destruct (after_cursor_drop c (newest_first log)) as [i [-> _]].
    etrans; [apply sublist_take|apply sublist_drop]. }
  assert (Hbwd : ∀ c, reverse (take (Z.to_nat (- n))
                                 (after_cursor c (reverse (newest_first log))))
                      `sublist_of` newest_first log).
  { intros c. apply sublist_of_reverse.
    destruct (after_cursor_drop c (reverse (newest_first log))) as [i [-> _]].
    etrans; [apply sublist_take|apply sublist_drop]. }
  assert (Hlen1 : ∀ l : list Transaction.t, 0 ≤ n →
            Z.of_nat (length (take (Z.to_nat n) l)) ≤ Z.abs n).
  { intros l Hn. rewrite length_take. lia. }
  assert (Hlen2 : ∀ l : list Transaction.t, n < 0 →
            Z.of_nat (length (reverse (take (Z.to_nat (- n)) l))) ≤ Z.abs n).
  { intros l Hn. rewrite length_reverse, length_take. lia. }
  destruct cursor as [[c|]|]; [|discriminate|].
  - destruct (fits_INTEGER c); [|discriminate]. intros [= <-].
    destruct (Z.leb_spec 0 n); split; auto.
    + apply (Hfwd (Some c)).
    + apply (Hbwd (Some c)).
  - intros [= <-]. destruct (Z.leb_spec 0 n); split; auto.
    + apply (Hfwd None).
    + apply (Hbwd None).
Qed.

(** X20.  A listing that is answered with a page reads and never writes
    the tables: the page is a part of the table in the order newest
    first (timestamp descending, then id descending), every row carries
    the reason of its own marker, the page has at most as many rows as
    the absolute value of the limit after the cap, which is at most 100
    when that limit is not negative, hasMore tells that the page is as
    long as the limit, and nextCursor is then the id of the last row of
    the page, which exists. *)
Theorem getAllTransactions_page `{JsRuntime} (st : State) (query : Query.t)
    (body : Listing.t) :
  (getAllTransactions st query).2 = Listed body →
  let shown := Listing.txn <$> Listing.transactions body in
  db (getAllTransactions st query).1 = db st
  ∧ shown `sublist_of` newest_first (transactions (db st))
  ∧ StronglySorted newer shown
  ∧ (∀ tx, tx ∈ shown → tx ∈ transactions (db st))
  ∧ Forall (λ r, Listing.invalidTransaction r
                 = reason_for (invalidTransactions (db st))
                              (Transaction.id (Listing.txn r)))
           (Listing.transactions body)
  ∧ Listing.invalidCount body = (getInvalidTransactionCount st).2
  ∧ ∃ take_n,
      take_of (Query.limit query) = Some take_n
      ∧ take_n ≤ 100
      ∧ Z.of_nat (length shown) ≤ Z.abs take_n
      ∧ (0 ≤ take_n → (length shown ≤ 100)%nat)
      ∧ Listing.hasMore body = bool_decide (Z.of_nat (length shown) = take_n)
      ∧ Listing.nextCursor body
        = (if Listing.hasMore body then Transaction.id <$> last shown else None)
      ∧ (Listing.hasMore body = true → is_Some (last shown)).
Proof.
  intros Hresp shown.
  destruct (getAllTransactions_Listed _ _ _ Hresp) as (take_n & found & Ht & Hf).
  rewrite (getAllTransactions_found _ _ _ _ Ht Hf) in *. cbn [fst snd] in Hresp.
  cbn [fst].
  destruct (findMany_newest_sublist _ _ _ _ Hf) as [Hsub Hlen].
  pose proof (take_of_le _ _ Ht) as Hcap.
  assert (Hshown : shown = found
                   ∧ Listing.transactions body = listing_row (db st) <$> found
                   ∧ Listing.invalidCount body = (getInvalidTransactionCount st).2
                   ∧ Listing.hasMore body
                     = bool_decide (Z.of_nat (length found) = take_n)
                   ∧ Listing.nextCursor body
                     = (if Listing.hasMore body
                        then Transaction.id <$> last found else None)
                   ∧ (Listing.hasMore body = true → is_Some (last found))).
  { unfold shown. case_bool_decide as Hfull.
    - destruct (last found) as [lastTxn|] eqn:Hlast; [|discriminate].
      injection Hresp as <-. cbn. rewrite listing_row_txn.
      repeat split; eauto.
    - injection Hresp as <-. cbn. rewrite listing_row_txn.
      repeat split; eauto. discriminate. }
  destruct Hshown as (-> & Hrows & Hcount & Hmore & Hnext & Hlast).
  split; [apply getInvalidTransactionCount_db|].
  split; [exact Hsub|].
  split; [eapply StronglySorted_sublist_of; [exact Hsub|apply newest_first_sorted]|].
  split.
  { intros tx Htx. rewrite <- (newest_first_Permutation (transactions (db st))).
    eapply elem_of_sublist; eauto. }
  split.
  { rewrite Hrows. apply Forall_fmap, Forall_forall. now intros tx _. }
  split; [exact Hcount|].
  exists take_n. repeat split; auto. lia.
Qed.

Lemma getAllTransactions_page_witness :
  let rt := digit_runtime in
  let st := state_of three_log in
  let query := Query.mk None (Some "2") in
  let body :=
    Listing.mk (listing_row (db st) <$> reverse (drop 1 three_log)) (Some 2) true 0 in
  (getAllTransactions st query).2 = Listed body
  ∧ db (getAllTransactions st query).1 = db st
  ∧ StronglySorted newer (Listing.txn <$> Listing.transactions body)
  ∧ Listing.hasMore body
    = bool_decide (Z.of_nat (length (Listing.txn <$> Listing.transactions body)) = 2).
Proof.
  intros rt st query body.
  assert (Hresp : (getAllTransactions st query).2 = Listed body)
    by (vm_compute; reflexivity).
  split; [exact Hresp|].
  destruct (@getAllTransactions_page rt st query body Hresp)
    as (Hdb & _ & Hsorted & _ & _ & _ & take_n & Htake & _ & _ & _ & Hmore & _).
  split; [exact Hdb|]. split; [exact Hsorted|].
  rewrite Hmore. assert (take_n = 2) as -> by (vm_compute in Htake; congruence).
  reflexivity.
Defined.

(** X21.  A limit that parses to 0 is always answered 500, whatever the
    table holds: the page comes back empty, is as long as the limit, and
    the handler throws on the id of its last row.  The tables are left
    as they were. *)
Theorem getAllTransactions_limit_zero `{JsRuntime} (st : State) (query : Query.t)
    (s : string) :
  Query.limit query = Some s →
  parseInt_string s = Some 0 →
  (getAllTransactions st query).2 = ListFailed 500 "Failed to fetch transactions"
  ∧ db (getAllTransactions st query).1 = db st.
Proof.
  intros Hlimit Hparse.
  assert (Ht : take_of (Query.limit query) = Some 0).
  { unfold take_of. now rewrite Hlimit, Hparse. }
  destruct (findMany_newest (transactions (db st)) (Some 0)
                            (cursor_of (Query.cursor query))) as [found|] eqn:Hf.
  - rewrite (getAllTransactions_found _ _ _ _ Ht Hf). cbn [fst snd].
    destruct (findMany_newest_sublist _ _ _ _ Hf) as [_ Hlen].
    destruct found as [|tx found]; [|simpl in Hlen; lia].
    split; [reflexivity|apply getInvalidTransactionCount_db].
  - unfold getAllTransactions. now rewrite Ht, Hf.
Qed.

Lemma getAllTransactions_limit_zero_witness :
  let _ := digit_runtime in
  let query := Query.mk None (Some "0") in
  parseInt_string "0" = Some 0
  ∧ (getAllTransactions (state_of three_log) query).2
    = ListFailed 500 "Failed to fetch transactions".
Proof.
  intros rt query. split; [reflexivity|].
  apply (@getAllTransactions_limit_zero rt (state_of three_log) query "0");
    reflexivity.
Defined.

Lemma after_cursor_next (ordered : list Transaction.t) (i n : nat)
    (x : Transaction.t) :
  NoDup (Transaction.id <$> ordered) →
  last (take n (drop i ordered)) = Some x →
  length (take n (drop i ordered)) = n →
  after_cursor (Some (Transaction.id x)) ordered = drop (i + n) ordered.
Proof.
  intros Hnd Hlast Hlen.
  assert (Hn : n ≠ 0%nat) by (intros ->; discriminate).
  rewrite last_lookup, Hlen, lookup_take_lt, lookup_drop in Hlast by lia.
  apply take_drop_middle in Hlast.
  pose proof (from_cursor_split (take (i + pred n) ordered)
                                (drop (S (i + pred n)) ordered) x) as Hfc.
  rewrite Hlast in Hfc. unfold after_cursor. rewrite (Hfc Hnd). simpl.
  rewrite drop_0. f_equal. lia.
Qed.

Lemma after_cursor_last (ordered : list Transaction.t) (x : Transaction.t) :
  NoDup (Transaction.id <$> ordered) →
  last ordered = Some x →
  after_cursor (Some (Transaction.id x)) ordered = [].
Proof.
  intros Hnd [P ->]%last_Some. unfold after_cursor.
  now rewrite from_cursor_split.
Qed.

Lemma findMany_newest_window (log : list Transaction.t) (n : Z)
    (cursor : option (option Z)) (found : list Transaction.t) :
  0 ≤ n →
  findMany_newest log (Some n) cursor = Some found →
  ∃ i, found = take (Z.to_nat n) (drop i (newest_first log))
       ∧ (cursor = None → i = 0%nat).
Proof.
  intros Hn. unfold findMany_newest.
  destruct (fits_BIGINT n); [|discriminate]. cbn [negb].
  destruct (Z.leb_spec 0 n); [|lia].
  destruct cursor as [[c|]|]; [|discriminate|].
  - destruct (fits_INTEGER c); [|discriminate]. intros [= <-].
    destruct (after_cursor_drop (Some c) (newest_first log)) as [i [Hi _]].
    simpl in Hi. rewrite Hi. now exists i.
  - intros [= <-]. now exists 0%nat.
Qed.

Lemma findMany_newest_after `{JsRuntime} (log : list Transaction.t) (n : nat)
    (s : string) (c : Z) :
  Z.of_nat n ≤ 100 →
  s ≠ EmptyString →
  parseInt_string s = Some c →
  fits_INTEGER c = true →
  findMany_newest log (Some (Z.of_nat n)) (cursor_of (Some s))
  = Some (take n (after_cursor (Some c) (newest_first log))).
Proof.
  intros Hn Hs Hparse Hfits. unfold findMany_newest, cursor_of, truthy.
  rewrite (bool_decide_eq_false_2 _ Hs). cbn [negb]. rewrite Hparse, Hfits.
  assert (Hbig : fits_BIGINT (Z.of_nat n) = true).
  { unfold fits_BIGINT. apply bool_decide_eq_true_2. lia. }
  rewrite Hbig. cbn [negb].
  destruct (Z.leb_spec 0 (Z.of_nat n)); [|lia].
  now rewrite Nat2Z.id.
Qed.

(** What a listing with a next cursor has read: a full page of [n] rows,
    [n] at least 1, that ends with the row of the cursor. *)
Lemma getAllTransactions_full_page `{JsRuntime} (st : State) (query : Query.t)
    (body : Listing.t) (c : Z) :
  (getAllTransactions st query).2 = Listed body →
  Listing.nextCursor body = Some c →
  ∃ (i n : nat) (x : Transaction.t),
    let page := take n (drop i (newest_first (transactions (db st)))) in
    take_of (Query.limit query) = Some (Z.of_nat n)
    ∧ Listing.txn <$> Listing.transactions body = page
    ∧ Listing.hasMore body = true
    ∧ length page = n
    ∧ last page = Some x
    ∧ Transaction.id x = c
    ∧ (1 ≤ n)%nat
    ∧ (Query.cursor query = None → i = 0%nat).
Proof.
  intros Hresp Hnext.
  destruct (getAllTransactions_Listed _ _ _ Hresp) as (take_n & found & Ht & Hf).
  rewrite (getAllTransactions_found _ _ _ _ Ht Hf) in Hresp. cbn [snd] in Hresp.
  case_bool_decide as Hfull; [|injection Hresp as <-; discriminate].
  destruct (last found) as [x|] eqn:Hlast; [|discriminate].
  injection Hresp as <-. cbn in Hnext. injection Hnext as Hc.
  destruct (findMany_newest_window _ take_n _ _ ltac:(lia) Hf) as (i & Hfound & Hi).
  assert (Htn : Z.to_nat take_n = length found) by lia.
  rewrite Htn in Hfound.
  exists i, (length found), x. cbn. rewrite listing_row_txn, <- Hfound.
  repeat split; auto.
  - rewrite Ht. f_equal. lia.
  - destruct found; [discriminate|simpl; lia].
  - intros Hq. apply Hi. unfold cursor_of. now rewrite Hq.
Qed.

Lemma getAllTransactions_second `{JsRuntime} (st st' : State) (query : Query.t)
    (n : nat) (s : string) (c : Z) :
  take_of (Query.limit query) = Some (Z.of_nat n) →
  (1 ≤ n)%nat →
  s ≠ EmptyString →
  parseInt_string s = Some c →
  fits_INTEGER c = true →
  db st' = db st →
  ∃ body',
    (getAllTransactions st' (Query.mk (Some s) (Query.limit query))).2 = Listed body'
    ∧ Listing.txn <$> Listing.transactions body'
      = take n (after_cursor (Some c) (newest_first (transactions (db st))))
    ∧ Listing.hasMore body'
      = bool_decide
          (length (take n (after_cursor (Some c)
                                        (newest_first (transactions (db st))))) = n)
    ∧ (Listing.hasMore body' = false → Listing.nextCursor body' = None).
Proof.
  intros Ht Hn Hs Hparse Hfits Hdb.
  pose proof (take_of_le _ _ Ht) as Hcap.
  pose proof (findMany_newest_after (transactions (db st')) n s c Hcap Hs Hparse Hfits)
    as Hf.
  rewrite (getAllTransactions_found st' (Query.mk (Some s) (Query.limit query))
             (Z.of_nat n) _ Ht Hf).
  rewrite Hdb. cbn [snd].
  set (found := take n (after_cursor (Some c) (newest_first (transactions (db st))))).
  case_bool_decide as Hfull.
  - destruct (last found) as [x|] eqn:Hlast.
    + eexists. split; [reflexivity|]. cbn. rewrite listing_row_txn.
      split; [reflexivity|]. split; [|discriminate].
      symmetry. apply bool_decide_eq_true_2. lia.
    + apply last_None in Hlast. rewrite Hlast in Hfull. simpl in Hfull. lia.
  - eexists. split; [reflexivity|]. cbn. rewrite listing_row_txn.
    split; [reflexivity|]. split; [|reflexivity].
    symmetry. apply bool_decide_eq_false_2. lia.
Qed.

Lemma fits_INTEGER_found (log : list Transaction.t) (page : list Transaction.t)
    (x : Transaction.t) :
  Forall (λ tx, fits_INTEGER (Transaction.id tx) = true) log →
  page `sublist_of` newest_first log →
  last page = Some x →
  fits_INTEGER (Transaction.id x) = true.
Proof.
  intros Hall Hsub Hlast. rewrite Forall_forall in Hall. apply Hall.
  rewrite <- (newest_first_Permutation log).
  eapply elem_of_sublist; [|exact Hsub]. now apply last_Some_elem_of.
Qed.

(** X22.  Following the cursor neither repeats nor skips a row: when the
    ids of the table are unique INTEGER values and a listing returns a
    next cursor, the listing that passes it back with the same limit,
    with no write in between, is answered with the page of the rows
    that come directly after the first page in the order newest first.
    A listing without a cursor starts at the newest row. *)
Theorem getAllTransactions_next_page `{JsRuntime} (st st' : State)
    (query : Query.t) (body : Listing.t) (c : Z) (s : string) :
  NoDup (Transaction.id <$> transactions (db st)) →
  Forall (λ tx, fits_INTEGER (Transaction.id tx) = true) (transactions (db st)) →
  (getAllTransactions st query).2 = Listed body →
  Listing.nextCursor body = Some c →
  s ≠ EmptyString →
  parseInt_string s = Some c →
  db st' = db st →
  let ordered := newest_first (transactions (db st)) in
  ∃ (body' : Listing.t) (i n : nat),
    (getAllTransactions st' (Query.mk (Some s) (Query.limit query))).2 = Listed body'
    ∧ take_of (Query.limit query) = Some (Z.of_nat n)
    ∧ Listing.txn <$> Listing.transactions body = take n (drop i ordered)
    ∧ Listing.txn <$> Listing.transactions body' = take n (drop (i + n) ordered)
    ∧ (Query.cursor query = None → i = 0%nat).
Proof.
  intros Hnd Hfits Hresp Hnext Hs Hparse Hdb ordered.
  destruct (getAllTransactions_full_page _ _ _ _ Hresp Hnext)
    as (i & n & x & Ht & Hshown & _ & Hlen & Hlast & Hid & Hn & Hi).
  assert (Hndo : NoDup (Transaction.id <$> ordered)).
  { unfold ordered. now rewrite newest_first_Permutation. }
  assert (Hfc : fits_INTEGER c = true).
  { rewrite <- Hid. eapply fits_INTEGER_found; [exact Hfits| |exact Hlast].
    etrans; [apply sublist_take|apply sublist_drop]. }
  destruct (getAllTransactions_second st st' query n s c Ht Hn Hs Hparse Hfc Hdb)
    as (body' & Hresp' & Hshown' & _).
  exists body', i, n. repeat split; auto.
  rewrite Hshown', <- Hid. fold ordered. f_equal.
  now apply after_cursor_next.
Qed.

Lemma getAllTransactions_next_page_witness :
  let rt := digit_runtime in
  let st := state_of three_log in
  let query := Query.mk None (Some "2") in
  let body :=
    Listing.mk (listing_row (db st) <$> reverse (drop 1 three_log)) (Some 2) true 0 in
  (getAllTransactions st query).2 = Listed body
  ∧ ∃ body',
      (getAllTransactions (getAllTransactions st query).1
                          (Query.mk (Some "2") (Some "2"))).2 = Listed body'
      ∧ Listing.txn <$> Listing.transactions body' = take 1 three_log.
Proof.
  intros rt st query body.
  assert (Hresp : (getAllTransactions st query).2 = Listed body)
    by (vm_compute; reflexivity).
  split; [exact Hresp|].
  assert (Hnd : NoDup (Transaction.id <$> transactions (db st))).
  { apply (bool_decide_unpack _). vm_compute. exact I. }
  assert (Hfits : Forall (λ tx, fits_INTEGER (Transaction.id tx) = true)
                         (transactions (db st))).
  { repeat constructor. }
  destruct (@getAllTransactions_next_page rt st (getAllTransactions st query).1
              query body 2 "2" Hnd Hfits Hresp eq_refl ltac:(discriminate) eq_refl
              (getInvalidTransactionCount_db st))
    as (body' & i & n & Hresp' & Htake & _ & Hshown' & Hi).
  exists body'. split; [exact Hresp'|].
  rewrite Hshown', (Hi eq_refl).
  change (take_of (Query.limit query)) with (Some 2) in Htake.
  assert (n = 2%nat) as -> by (injection Htake; lia).
  vm_compute. reflexivity.
Defined.

(** X23.  hasMore can announce a page that does not exist: when the ids
    of the table are unique INTEGER values and a full page ends with the
    oldest transaction of the table, the listing reports hasMore with
    that transaction as the next cursor, and the listing that follows
    the cursor returns no row, no cursor and hasMore false. *)
Theorem getAllTransactions_hasMore_at_end `{JsRuntime} (st st' : State)
    (query : Query.t) (body : Listing.t) (x : Transaction.t) (s : string) :
  NoDup (Transaction.id <$> transactions (db st)) →
  Forall (λ tx, fits_INTEGER (Transaction.id tx) = true) (transactions (db st)) →
  (getAllTransactions st query).2 = Listed body →
  last (newest_first (transactions (db st))) = Some x →
  Listing.nextCursor body = Some (Transaction.id x) →
  s ≠ EmptyString →
  parseInt_string s = Some (Transaction.id x) →
  db st' = db st →
  Listing.hasMore body = true
  ∧ ∃ body',
      (getAllTransactions st' (Query.mk (Some s) (Query.limit query))).2
      = Listed body'
      ∧ Listing.transactions body' = []
      ∧ Listing.nextCursor body' = None
      ∧ Listing.hasMore body' = false.
Proof.
  intros Hnd Hfits Hresp Hlast Hnext Hs Hparse Hdb.
  destruct (getAllTransactions_full_page _ _ _ _ Hresp Hnext)
    as (i & n & y & Ht & _ & Hmore & _ & _ & _ & Hn & _).
  split; [exact Hmore|].
  assert (Hndo : NoDup (Transaction.id <$> newest_first (transactions (db st)))).
  { now rewrite newest_first_Permutation. }
  assert (Hfx : fits_INTEGER (Transaction.id x) = true).
  { eapply fits_INTEGER_found; [exact Hfits|reflexivity|exact Hlast]. }
  destruct (getAllTransactions_second st st' query n s _ Ht Hn Hs Hparse Hfx Hdb)
    as (body' & Hresp' & Hshown' & Hmore' & Hnext').
  rewrite (after_cursor_last _ _ Hndo Hlast), take_nil in Hshown', Hmore'.
  assert (Hfalse : Listing.hasMore body' = false).
  { rewrite Hmore'. apply bool_decide_eq_false_2. simpl. lia. }
  exists body'. split; [exact Hresp'|].
  split; [now apply fmap_nil_inv in Hshown'|]. split; auto.
Qed.

Lemma getAllTransactions_hasMore_at_end_witness :
  let rt := digit_runtime in
  let st := state_of three_log in
  let query := Query.mk None (Some "3") in
  let body := Listing.mk (listing_row (db st) <$> reverse three_log) (Some 1) true 0 in
  (getAllTransactions st query).2 = Listed body
  ∧ Listing.hasMore body = true
  ∧ ∃ body',
      (getAllTransactions st (Query.mk (Some "1") (Some "3"))).2 = Listed body'
      ∧ Listing.transactions body' = [].
Proof.
  intros rt st query body.
  assert (Hresp : (getAllTransactions st query).2 = Listed body)
    by (vm_compute; reflexivity).
  split; [exact Hresp|].
  assert (Hnd : NoDup (Transaction.id <$> transactions (db st))).
  { apply (bool_decide_unpack _). vm_compute. exact I. }
  assert (Hfits : Forall (λ tx, fits_INTEGER (Transaction.id tx) = true)
                         (transactions (db st))).
  { repeat constructor. }
  destruct (@getAllTransactions_hasMore_at_end rt st st query body
              (Transaction.mk 1 day1 IN (Qc_of_Z 100)) "1" Hnd Hfits Hresp
              ltac:(vm_compute; reflexivity) eq_refl ltac:(discriminate) eq_refl
              eq_refl)
    as (Hmore & body' & Hresp' & Hrows & _).
  split; [exact Hmore|]. exists body'. split; [exact Hresp'|exact Hrows].
Defined.
(** * Summary statistics *)

Lemma latestSummary_greatest (table : gmap Z DailySummary.t) (date : Z)
    (s : DailySummary.t) :
  table !! date = Some s →
  ∃ date' latest,
    table !! date' = Some latest
    ∧ latestSummary table = Some latest
    ∧ ∀ k, is_Some (table !! k) → k ≤ date'.
Proof.
  intros Hs. unfold latestSummary.
  set (key := λ row : Z * DailySummary.t, - row.1).
  pose proof (sort_by_Permutation key (map_to_list table)) as Hperm.
  pose proof (sort_by_sorted key (map_to_list table)) as Hsorted.
  destruct (sort_by key (map_to_list table)) as [|[k v] rest] eqn:Hsort.
  - apply elem_of_map_to_list in Hs. rewrite <- Hperm in Hs.
    now apply elem_of_nil in Hs.
  - exists k, v. split; [|split; [reflexivity|]].
    + apply elem_of_map_to_list. rewrite <- Hperm. left.
    + intros k' [v' Hk']. apply elem_of_map_to_list in Hk'.
      rewrite <- Hperm in Hk'. apply elem_of_cons in Hk' as [[= -> ->]|Hin]; [lia|].
      apply StronglySorted_inv in Hsorted as [_ Hall].
      rewrite Forall_forall in Hall. specialize (Hall _ Hin).
      unfold key_le, key in Hall. simpl in Hall. lia.
Qed.

Lemma elem_of_column {A} (f : DailySummary.t → A) (table : gmap Z DailySummary.t)
    (date : Z) (s : DailySummary.t) :
  table !! date = Some s → f s ∈ f <$> (map_to_list table).*2.
Proof.
  intros Hs. apply list_elem_of_fmap. exists s. split; [reflexivity|].
  apply list_elem_of_fmap. exists (date, s). split; [reflexivity|].
  now apply elem_of_map_to_list.
Qed.

(** X24.  On a table with at least one daily row, the summary statistics
    agree with the table: totalDays is the number of rows, every row's
    balance and percentChange lie between the reported minimum and
    maximum, and currentBalance is the balance of the row with the
    greatest date. *)
Theorem getSummaryStats_consistent (d : Db) (date : Z) (s : DailySummary.t) :
  dailySummaries d !! date = Some s →
  let r := getSummaryStats d in
  SummaryStats.totalDays r = Z.of_nat (size (dailySummaries d))
  ∧ 1 ≤ SummaryStats.totalDays r
  ∧ (SummaryStats.minBalance r ≤ DailySummary.balance s)%Qc
  ∧ (DailySummary.balance s ≤ SummaryStats.maxBalance r)%Qc
  ∧ (SummaryStats.minPercentChange r ≤ DailySummary.percentChange s)%Qc
  ∧ (DailySummary.percentChange s ≤ SummaryStats.maxPercentChange r)%Qc
  ∧ ∃ date' latest,
      dailySummaries d !! date' = Some latest
      ∧ (∀ k, is_Some (dailySummaries d !! k) → k ≤ date')
      ∧ SummaryStats.currentBalance r = DailySummary.balance latest.
Proof.
  intros Hs r. unfold r, getSummaryStats. cbn.
  pose proof (elem_of_column DailySummary.balance _ _ _ Hs) as Hbal.
  pose proof (elem_of_column DailySummary.percentChange _ _ _ Hs) as Hpct.
  assert (Hlen : length (map_to_list (dailySummaries d)).*2
                 = size (dailySummaries d)).
  { now rewrite length_fmap, length_map_to_list. }
  assert (Hne : (map_to_list (dailySummaries d)).*2 ≠ []).
  { intros Hnil. rewrite Hnil in Hbal. now apply elem_of_nil in Hbal. }
  split; [now rewrite Hlen|].
  split.
  { destruct ((map_to_list (dailySummaries d)).*2); [congruence|simpl; lia]. }
  split; [now apply Qc_list_min_lower|].
  split; [now apply Qc_list_max_upper|].
  split; [now apply Qc_list_min_lower|].
  split; [now apply Qc_list_max_upper|].
  destruct (latestSummary_greatest _ _ _ Hs) as (date' & latest & Hl & Hlatest & Hmax).
  exists date', latest. rewrite Hlatest. auto.
Qed.

Lemma getSummaryStats_consistent_witness :
  let d := mkDb [] 1 [] two_days in
  let s := DailySummary.mk (Qc_of_Z 100) 0%Qc 1 (Qc_of_Z 100) 0%Qc in
  dailySummaries d !! day1 = Some s
  ∧ SummaryStats.totalDays (getSummaryStats d) = 2
  ∧ (DailySummary.balance s ≤ SummaryStats.maxBalance (getSummaryStats d))%Qc.
Proof.
  intros d s.
  assert (Hs : dailySummaries d !! day1 = Some s) by (vm_compute; reflexivity).
  split; [exact Hs|].
  destruct (getSummaryStats_consistent d day1 s Hs) as (Hdays & _ & _ & Hmax & _).
  split; [|exact Hmax].
  rewrite Hdays. vm_compute. reflexivity.
Defined.

(** X25.  For a process in UTC and a ledger of whole amounts with
    magnitudes adding up to less than 2^53: after a recalculation from
    an instant that is not after the current time, on a table with no
    daily row dated after the current day, the summary statistics
    report as currentBalance the balance B of the ledger at the end of
    the current day: the sum over the whole log when no transaction is
    dated later. *)
Theorem getSummaryStats_after_recalculation `{TimeZone} (now : Z) (d d' : Db)
    (t : Z) :
  is_utc →
  exact_ledger (transactions d) →
  NoDup (Transaction.id <$> transactions d) →
  Forall (λ tx, Transaction.id tx ≠ 0) (transactions d) →
  t ≤ now →
  (∀ date, is_Some (dailySummaries d !! date) → date ≤ now / DAY * DAY) →
  recalculateFromTimestamp now d t = Some d' →
  SummaryStats.currentBalance (getSummaryStats d')
  = B (transactions d) (end_of_day (now / DAY))
  ∧ (Forall (λ tx, Transaction.timestamp tx ≤ end_of_day (now / DAY))
            (transactions d) →
     SummaryStats.currentBalance (getSummaryStats d')
     = sum_Qc (signed_amount <$> transactions d)).
Proof.
  intros Hutc Hex Hnd Hpos Ht Hdates Hrun.
  rewrite (recalculateFromTimestamp_result now d t _ Hnd Hpos
             (affectedDates_days Hutc _ _)) in Hrun.
  injection Hrun as <-.
  set (dates := (λ i, i * DAY) <$> seqZ (t / DAY) (now / DAY - t / DAY + 1)).
  set (table := fold_left (upsert_summary (transactions d)) dates
                          (dailySummaries d)).
  assert (Hdiv : t / DAY ≤ now / DAY).
  { apply Z.div_le_mono; [unfold DAY|]; lia. }
  assert (Hrow : table !! (now / DAY * DAY)
                 = Some (daily_summary (transactions d) (now / DAY * DAY))).
  { unfold table, dates. rewrite fold_upsert_lookup, filter_days.
    now rewrite decide_True by lia. }
  assert (Hmax : ∀ k, is_Some (table !! k) → k ≤ now / DAY * DAY).
  { intros k. unfold table. rewrite fold_upsert_lookup.
    destruct (last _) as [x|] eqn:Hlast; [|apply Hdates].
    intros _. apply last_Some_elem_of in Hlast.
    apply list_elem_of_filter in Hlast as [Hcol Hin].
    apply list_elem_of_fmap in Hin as (j & -> & Hj).
    apply elem_of_seqZ in Hj. rewrite date_column_day in Hcol. subst k.
    apply Z.mul_le_mono_nonneg_r; [unfold DAY|]; lia. }
  destruct (latestSummary_greatest _ _ _ Hrow)
    as (date' & latest & Hl & Hlatest & Hgreatest).
  assert (date' = now / DAY * DAY) as ->.
  { apply Z.le_antisymm; [apply Hmax; eauto|apply Hgreatest; eauto]. }
  rewrite Hrow in Hl. injection Hl as <-.
  assert (Hcur : SummaryStats.currentBalance
                   (getSummaryStats
                      (mkDb (transactions d) (transaction_seq d)
                            (detect 0%Qc (sort_by Transaction.timestamp (transactions d)))
                            table))
                 = B (transactions d) (end_of_day (now / DAY))).
  { rewrite (daily_summary_of_day Hutc) in Hlatest by exact Hex.
    unfold getSummaryStats. cbn. rewrite Hlatest. reflexivity. }
  split; [exact Hcur|].
  intros Hpast. rewrite Hcur, B_sum. do 2 f_equal.
  clear -Hpast. induction Hpast as [|tx log Htx _ IH]; [reflexivity|].
  rewrite filter_cons_True by exact Htx. now rewrite IH.
Qed.

Lemma getSummaryStats_after_recalculation_witness :
  let _ := utc in
  let d := db_of settled_log in
  is_utc
  ∧ exact_ledger (transactions d)
  ∧ NoDup (Transaction.id <$> transactions d)
  ∧ Forall (λ tx, Transaction.id tx ≠ 0) (transactions d)
  ∧ day1 ≤ day2
  ∧ ∃ d', recalculateFromTimestamp day2 d day1 = Some d'
          ∧ SummaryStats.currentBalance (getSummaryStats d')
            = B settled_log (end_of_day (day2 / DAY))
          ∧ B settled_log (end_of_day (day2 / DAY)) = Q2Qc 0.
Proof.
  intros tz d.
  assert (Hutc : is_utc) by (intros t b; reflexivity).
  assert (Hex : exact_ledger (transactions d))
    by (apply exact_ledger_decide; reflexivity).
  assert (Hnd : NoDup (Transaction.id <$> transactions d)).
  { apply (bool_decide_unpack _). vm_compute. exact I. }
  assert (Hpos : Forall (λ tx, Transaction.id tx ≠ 0) (transactions d)).
  { apply (bool_decide_unpack _). vm_compute. exact I. }
  assert (Hle : day1 ≤ day2) by (vm_compute; discriminate).
  split; [exact Hutc|]. split; [exact Hex|].
  split; [exact Hnd|]. split; [exact Hpos|]. split; [exact Hle|].
  pose proof (recalculateFromTimestamp_result day2 d day1 _ Hnd Hpos
                (affectedDates_days Hutc _ _)) as Hrun.
  eexists. split; [exact Hrun|]. split; [|apply Qc_is_canon; reflexivity].
  refine (proj1 (getSummaryStats_after_recalculation day2 d _ day1 Hutc Hex
                   Hnd Hpos Hle _ Hrun)).
  intros date [s Hs]. change (dailySummaries d) with (∅ : gmap Z DailySummary.t) in Hs.
  now rewrite lookup_empty in Hs.
Defined.
(** * Accepted updates *)

Lemma fmap_update_irrelevant (log : list Transaction.t) (updated : Transaction.t) :
  Transaction.id updated ∉ Transaction.id <$> log →
  (λ tx, if bool_decide (Transaction.id tx = Transaction.id updated)
         then updated else tx) <$> log = log.
Proof.
  induction log as [|y log IH]; intros Hno; [reflexivity|].
  rewrite fmap_cons, not_elem_of_cons in Hno. destruct Hno as [Hne Hno].
  rewrite fmap_cons, IH by exact Hno.
  now rewrite bool_decide_eq_false_2 by congruence.
Qed.

Lemma B_update (log : list Transaction.t) (updated : Transaction.t) (t : Z) :
  NoDup (Transaction.id <$> log) →
  Transaction.id updated ∈ Transaction.id <$> log →
  B ((λ tx, if bool_decide (Transaction.id tx = Transaction.id updated)
            then updated else tx) <$> log) t
  = (B (filter (λ x, Transaction.id x ≠ Transaction.id updated) log) t
     + B [updated] t)%Qc.
Proof.
  induction log as [|y log IH]; intros Hnd Hin; [now apply elem_of_nil in Hin|].
  rewrite fmap_cons in Hnd, Hin. apply NoDup_cons in Hnd as [Hy Hnd].
  rewrite fmap_cons, filter_cons.
  case_bool_decide as Hid.
  - rewrite decide_False by tauto. rewrite Hid in Hy.
    rewrite (fmap_update_irrelevant log updated) by exact Hy.
    rewrite (filter_ids_irrelevant log updated) by exact Hy.
    change (B (updated :: log) t) with (B ([updated] ++ log) t).
    rewrite B_app. ring.
  - rewrite decide_True by exact Hid.
    apply elem_of_cons in Hin as [Heq|Hin]; [congruence|].
    set (bu := B [updated] t) in *. cbn [B]. rewrite (IH Hnd Hin).
    destruct (Transaction.timestamp y <=? t); [destruct (Transaction.type y)|]; ring.
Qed.

(** X30.  On a ledger of whole amounts with magnitudes adding up to
    less than 2^53 and with unique ids, an accepted update that ends
    with type OUT does not overdraw the ledger at the timestamp it ends
    with: after the 200 the balance B at the timestamp of the updated
    transaction is the balance that excludes the transaction, taken
    before the update, less the amount the update ends with, and is at
    least 0. *)
Theorem updateTransaction_out_not_overdrawn `{JsRuntime} (now : Z) (st : State)
    (id : string) (body : Body.t) (updated : Transaction.t) :
  exact_ledger (transactions (db st)) →
  NoDup (Transaction.id <$> transactions (db st)) →
  response (updateTransaction now st id body)
  = mkResponse 200 (JTransaction updated) →
  Transaction.type updated = OUT →
  let log' := transactions (db (state (updateTransaction now st id body))) in
  B log' (Transaction.timestamp updated)
  = (getBalanceExcludingTransaction (db st) (Transaction.timestamp updated)
                                    (Transaction.id updated)
     - Transaction.amount updated)%Qc
  ∧ (0 ≤ B log' (Transaction.timestamp updated))%Qc.
Proof.
  intros Hex Hnd. unfold updateTransaction.
  destruct (parseInt_string id) as [txnId|]; [|discriminate].
  destruct (findUnique (transactions (db st)) txnId) as [existing|] eqn:Hfind;
    [|discriminate].
  destruct (if truthy (Body.timestamp body) then _ else _) as [date|];
    [|discriminate].
  destruct (isFuture now date); [discriminate|].
  destruct (if truthy (Body.amount body) then _ else _) as [newAmount|];
    [|discriminate].
  destruct (_ && bool_decide (newAmount ≤ 0)%Qc); [discriminate|].
  destruct (is_OUT _ && _) eqn:Hgate; [discriminate|].
  destruct (as_TransactionType _) as [ty|] eqn:Hty; [|discriminate].
  unfold transaction_update. cbn [response state]. intros [= <-] Hout.
  cbn [Transaction.type] in Hout. subst ty.
  cbn [Transaction.timestamp Transaction.id Transaction.amount].
  rewrite invalidateBalanceCache_db. cbn [set_db db transactions].
  apply is_OUT_as_TransactionType in Hty. rewrite Hty in Hgate.
  cbn [andb] in Hgate. apply bool_decide_eq_false in Hgate.
  apply findUnique_Some in Hfind as [Hin Hid].
  assert (Hmem : txnId ∈ Transaction.id <$> transactions (db st)).
  { rewrite <- Hid. now apply list_elem_of_fmap_2. }
  pose proof (B_update (transactions (db st))
                (Transaction.mk txnId date OUT newAmount) date Hnd Hmem) as Hupd.
  cbn [Transaction.id] in Hupd. rewrite Hupd.
  assert (Hexcl : getBalanceExcludingTransaction (db st) date txnId
                  = B (filter (λ x, Transaction.id x ≠ txnId) (transactions (db st)))
                      date).
  { unfold getBalanceExcludingTransaction.
    rewrite sql_signed_sum_filter.
    apply sql_signed_sum_upto. now apply exact_ledger_filter. }
  assert (Hnew : B [Transaction.mk txnId date OUT newAmount] date
                 = (- newAmount)%Qc).
  { simpl. rewrite Z.leb_refl. ring. }
  rewrite Hnew, <- Hexcl. split; [ring|].
  apply Qcnot_lt_le, Qcle_minus_iff in Hgate. exact Hgate.
Qed.

Lemma updateTransaction_out_not_overdrawn_witness :
  let rt := numeric_runtime in
  let st := state_of settled_log in
  let body := Body.mk JUndefined JUndefined (JNum (Qc_of_Z 60)) in
  let updated := Transaction.mk 2 day2 OUT (Qc_of_Z 60) in
  exact_ledger (transactions (db st))
  ∧ NoDup (Transaction.id <$> transactions (db st))
  ∧ response (updateTransaction (3 * DAY) st "2" body)
    = mkResponse 200 (JTransaction updated)
  ∧ (0 ≤ B (transactions (db (state (updateTransaction (3 * DAY) st "2" body))))
           day2)%Qc.
Proof.
  intros rt st body updated.
  assert (Hex : exact_ledger (transactions (db st)))
    by (apply exact_ledger_decide; reflexivity).
  assert (Hnd : NoDup (Transaction.id <$> transactions (db st))).
  { apply (bool_decide_unpack _). vm_compute. exact I. }
  split; [exact Hex|]. split; [exact Hnd|]. split; [reflexivity|].
  apply (@updateTransaction_out_not_overdrawn rt (3 * DAY) st "2" body updated
           Hex Hnd eq_refl eq_refl).
Defined.
